(** * jsonkit / tools: the JSON Patch engine [JsonPatcher]

    The patcher (packages/tools/src/patcher.ts) is a thin loop around the
    npm package fast-json-patch: it clones the document with
    [structuredClone], rewrites every string-valued [add] into a [replace]
    (with the string appended to the current one when the target is a
    string), and hands every other operation to [applyPatch] with
    [validateOperation = false] and [mutateDocument = true].

    The development has two embeddings of that code.

    - [Doc]: documents are trees, the library calls are functions from a
      document to the next one.  This is the reading in which the patcher
      itself is written ([target = patchResult.newDocument]).
    - [Store]: objects and arrays are cells of a store and the library
      updates them in place.  It is used for the statements that are about
      references: what a call can change in the caller's objects.

    fast-json-patch is a dependency, not a file of the repository.  Its
    functions [applyOperation], [applyPatch], [getValueByPointer],
    [_areEquals] and [_deepClone] (core and helpers modules, version 3) are
    embedded as the patcher calls them, that is with validation off.

    Limits of the embedding.  Numbers are integers.  A result [OutOfModel]
    marks the places where the library leaves JSON data or where the host
    decides: properties of a primitive, properties of an array other than
    its indices, members inherited from [Object.prototype], array indices
    beyond the precision of a double.  No theorem concludes anything from
    an [OutOfModel] result.

    After the patcher come the other parts of the package and the databases
    that keep their entries in memory.

    - [JsonPathJoiner], [JsonPatchBuilder] and [JsonParser]: pathJoiner.ts,
      builder.ts and parser.ts on trees.  The parser calls the host for
      [JSON.parse], [new Date], [parseInt] and [parseFloat]; these are
      parameters of its embedding.
    - [BuilderStore]: builder.ts in the store, where the builder is an
      object, a value given to it is kept by reference, and [patches()]
      copies.
    - [MultiEntryMemDb] and [SingleEntryMemDb]: packages/db/src/memory, the
      calls taken one after the other.

    The databases on files (packages/db/src) work through the file system
    of the host and are not embedded. *)

From stdpp Require Import gmap strings list fin_maps pretty.
From Stdlib Require Import ZArith Ascii Lia.

Open Scope Z_scope.
Set Warnings "-register-all".

(** ** Outcomes of a JavaScript call *)

(** What the library throws: [TypeError]s of the engine and of the
    prototype guard, and the library's own [JsonPatchError].  All of them
    are instances of [Error]. *)
Inductive error : Type :=
| TypeError_nullish            (* property access on undefined or null *)
| TypeError_proto_banned       (* "modifying __proto__ or constructor/prototype prop is banned" *)
| TypeError_circular           (* JSON.stringify on a cyclic structure *)
| TEST_OPERATION_FAILED.       (* JsonPatchError("Test operation failed") *)

Inductive outcome (A : Type) : Type :=
| Ret (a : A)
| Throw (e : error)
| OutOfModel.
Arguments Ret {A} a.
Arguments Throw {A} e.
Arguments OutOfModel {A}.

Definition outcome_bind {A B : Type} (f : A → outcome B) (m : outcome A) : outcome B :=
  match m with
  | Ret a => f a
  | Throw e => Throw e
  | OutOfModel => OutOfModel
  end.

#[global] Instance outcome_ret : MRet outcome := @Ret.
#[global] Instance outcome_mbind : MBind outcome := @outcome_bind.

#[global] Instance error_eq_dec : EqDecision error.
Proof. solve_decision. Defined.

(** ** Strings: pointers and their segments *)

Definition slash : ascii := "/"%char.
Definition tilde : ascii := "~"%char.

(** [path.split('/')]: never empty, [""] for the empty string. *)
Fixpoint split_slash (s : string) : list string :=
  match s with
  | EmptyString => [EmptyString]
  | String a s' =>
      if decide (a = slash) then EmptyString :: split_slash s'
      else match split_slash s' with
           | h :: t => String a h :: t
           | [] => [String a EmptyString]
           end
  end.

(** [s.replace(/xy/g, r)] for a two-character pattern [xy]. *)
Fixpoint replace_pair (x y r : ascii) (s : string) : string :=
  match s with
  | EmptyString => EmptyString
  | String a t =>
      match t with
      | String b t' =>
          if decide (a = x ∧ b = y) then String r (replace_pair x y r t')
          else String a (replace_pair x y r t)
      | EmptyString => s
      end
  end.

(** helpers.unescapePathComponent:
    [path.replace(/~1/g, '/').replace(/~0/g, '~')]. *)
Definition unescapePathComponent (path : string) : string :=
  replace_pair tilde "0"%char tilde (replace_pair tilde "1"%char slash path).

Fixpoint has_char (c : ascii) (s : string) : bool :=
  match s with
  | EmptyString => false
  | String a s' => bool_decide (a = c) || has_char c s'
  end.

(** [if (key && key.indexOf('~') != -1) key = unescapePathComponent(key)] *)
Definition unescape_key (key : string) : string :=
  if has_char tilde key then unescapePathComponent key else key.

Definition is_digit (a : ascii) : bool :=
  let n := Z.of_N (N_of_ascii a) in (48 <=? n) && (n <=? 57).

(** helpers.isInteger: every character is a decimal digit (so the empty
    string passes). *)
Fixpoint isInteger (s : string) : bool :=
  match s with
  | EmptyString => true
  | String a s' => is_digit a && isInteger s'
  end.

Fixpoint decimal_from (acc : Z) (s : string) : Z :=
  match s with
  | EmptyString => acc
  | String a s' => decimal_from (10 * acc + (Z.of_N (N_of_ascii a) - 48)) s'
  end.

(** The number a string of digits denotes. *)
Definition decimal (s : string) : Z := decimal_from 0 s.

(** ToInt32, the effect of [~~key] on an integral number. *)
Definition to_int32 (z : Z) : Z := (z + 2 ^ 31) mod 2 ^ 32 - 2 ^ 31.

(** The prototype guard of applyOperation:
    [key == '__proto__' || (key == 'prototype' && t > 0 && keys[t-1] == 'constructor')]. *)
Definition banned (key prev : string) : bool :=
  bool_decide (key = "__proto__")
  || (bool_decide (key = "prototype") && bool_decide (prev = "constructor")).

(** Names every object inherits from [Object.prototype]: reading one of them
    on an object that has no such own property yields a host function. *)
Definition inherited (key : string) : bool :=
  bool_decide (key ∈ ["constructor"; "hasOwnProperty"; "isPrototypeOf";
                      "propertyIsEnumerable"; "toLocaleString"; "toString";
                      "valueOf"; "__defineGetter__"; "__defineSetter__";
                      "__lookupGetter__"; "__lookupSetter__"; "__proto__"]).

(** A path segment once it has been resolved against its container: a
    property name, or a number where the container is an array. *)
Inductive key : Type :=
| KStr (s : string)
| KNum (n : Z).

#[global] Instance key_eq_dec : EqDecision key.
Proof. solve_decision. Defined.

(** Resolution of a segment against an array of length [len]:
    [if (key === '-') key = obj.length; else if (isInteger(key)) key = ~~key]. *)
Definition array_key (len : nat) (seg : string) : outcome key :=
  if decide (seg = "-") then Ret (KNum (Z.of_nat len))
  else if isInteger seg then
    if decimal seg <? 2 ^ 53 then Ret (KNum (to_int32 (decimal seg)))
    else OutOfModel
  else OutOfModel.

(** ** Pointers to a member

    The vocabulary of the statements about pointers. *)

(** A pointer is the empty string or starts with a slash; [child pp seg] is
    the pointer to the member [seg] of what [pp] points to. *)
Definition pointer_ok (pp : string) : bool :=
  match pp with
  | EmptyString => true
  | String a _ => bool_decide (a = slash)
  end.

Definition child (pp seg : string) : string := pp +:+ String slash seg.

(** A segment that is a property name as it stands: no slash, no escape,
    not caught by the prototype guard, not a member of [Object.prototype]. *)
Definition plain_key (seg : string) : bool :=
  negb (has_char slash seg) && negb (has_char tilde seg)
  && negb (bool_decide (seg = "prototype")) && negb (inherited seg).

(** ** Arrays: the list operations behind [arr[i]], [arr[i] = v] and splice *)

Section arrays.
Context {A : Type} (undef : A).

(** [arr[i]] for a number [i]. *)
Definition arr_get (xs : list A) (i : Z) : A :=
  if (0 <=? i) then default undef (xs !! Z.to_nat i) else undef.

(** The start position splice computes from its first argument. *)
Definition splice_start (xs : list A) (i : Z) : nat :=
  if i <? 0 then Z.to_nat (Z.max (Z.of_nat (length xs) + i) 0)
  else Nat.min (Z.to_nat i) (length xs).

(** [arr.splice(i, 0, v)] *)
Definition splice_insert (xs : list A) (i : Z) (v : A) : list A :=
  let s := splice_start xs i in take s xs ++ v :: drop s xs.

(** [arr.splice(i, 1)]: the array left and the element removed. *)
Definition splice_remove (xs : list A) (i : Z) : list A * A :=
  let s := splice_start xs i in
  (take s xs ++ drop (S s) xs, default undef (xs !! s)).

(** [arr[i] = v] for [0 <= i]: in place, or growing the array with holes. *)
Definition arr_set (xs : list A) (i : nat) (v : A) : list A :=
  if decide (i < length xs)%nat then <[i := v]> xs
  else xs ++ replicate (i - length xs) undef ++ [v].
End arrays.

(** ** Operations, as types.ts declares them *)

(** [JsonPatchOperation]: a union of seven record types tagged by [op];
    the tag is the constructor.  [value] is read as [undefined] where the
    variant has no such field. *)
Inductive JsonPatchOperation (V : Type) : Type :=
| AddOperation (path : string) (value : V)
| RemoveOperation (path : string)
| ReplaceOperation (path : string) (value : V)
| MoveOperation (path : string) (from : string)
| CopyOperation (path : string) (from : string)
| TestOperation (path : string) (value : V)
| GetOperation (path : string) (value : V).
Arguments AddOperation {V} path value.
Arguments RemoveOperation {V} path.
Arguments ReplaceOperation {V} path value.
Arguments MoveOperation {V} path from.
Arguments CopyOperation {V} path from.
Arguments TestOperation {V} path value.
Arguments GetOperation {V} path value.

(** The values an operation carries. *)
Definition op_values {V} (op : JsonPatchOperation V) : list V :=
  match op with
  | AddOperation _ v | ReplaceOperation _ v | TestOperation _ v | GetOperation _ v => [v]
  | _ => []
  end.

(** * Documents as trees *)

Module Doc.

(** A JavaScript value of the kind a JSON document is made of, and
    [undefined], which the library reads from absent members and holes. *)
Inductive value : Type :=
| VUndefined
| VNull
| VBool (b : bool)
| VNum (n : Z)
| VStr (s : string)
| VArr (xs : list value)
| VObj (m : gmap string value).

Definition is_string (v : value) : bool :=
  match v with VStr _ => true | _ => false end.

(** JavaScript truthiness, as in [if (removed)]. *)
Definition truthy (v : value) : bool :=
  match v with
  | VUndefined | VNull => false
  | VBool b => b
  | VNum n => negb (n =? 0)
  | VStr s => negb (bool_decide (s = ""))
  | VArr _ | VObj _ => true
  end.

(** [JSON.parse(JSON.stringify(v))] on an object or array: members that are
    [undefined] disappear from objects and become [null] in arrays. *)
Fixpoint json_roundtrip (v : value) : value :=
  match v with
  | VArr xs =>
      VArr ((λ x, match x with VUndefined => VNull | _ => json_roundtrip x end) <$> xs)
  | VObj m =>
      VObj (omap (λ x, match x with VUndefined => None | _ => Some (json_roundtrip x) end) m)
  | _ => v
  end.

(** helpers._deepClone: the JSON round trip for [typeof obj == "object"],
    [null] for [undefined], the value itself for the other primitives. *)
Definition _deepClone (obj : value) : value :=
  match obj with
  | VNull | VArr _ | VObj _ => json_roundtrip obj
  | VUndefined => VNull
  | _ => obj
  end.

(** core._areEquals.  [a === b] settles the primitives; two arrays are
    compared by length and then index by index; two objects by the number
    of their keys, then [b.hasOwnProperty] for every key of [a], then
    member by member. *)
Fixpoint _areEquals (a b : value) {struct a} : bool :=
  match a, b with
  | VUndefined, VUndefined | VNull, VNull => true
  | VBool x, VBool y => bool_decide (x = y)
  | VNum x, VNum y => bool_decide (x = y)
  | VStr x, VStr y => bool_decide (x = y)
  | VArr xs, VArr ys =>
      bool_decide (length xs = length ys)
      && (fix each (xs ys : list value) : bool :=
            match xs, ys with
            | x :: xs', y :: ys' => _areEquals x y && each xs' ys'
            | _, _ => true
            end) xs ys
  | VObj ma, VObj mb =>
      bool_decide (size ma = size mb)
      && map_fold (λ k _ acc, acc && bool_decide (is_Some (mb !! k))) true ma
      && map_fold (λ k x acc, acc && _areEquals x (default VUndefined (mb !! k))) true ma
  | _, _ => false
  end.

(** *** Members of a container *)

(** [obj[key]] *)
Definition getprop (obj : value) (k : key) : outcome value :=
  match obj, k with
  | VUndefined, _ | VNull, _ => Throw TypeError_nullish
  | VArr xs, KNum i => Ret (arr_get VUndefined xs i)
  | VObj m, KStr s =>
      match m !! s with
      | Some x => Ret x
      | None => if inherited s then OutOfModel else Ret VUndefined
      end
  | _, _ => OutOfModel
  end.

(** The container [obj] once its member [k], an object or array the
    traversal went through, has been updated in place to [child]. *)
Definition setchild (obj : value) (k : key) (child : value) : value :=
  match obj, k with
  | VArr xs, KNum i => VArr (<[Z.to_nat i := child]> xs)
  | VObj m, KStr s => VObj (<[s := child]> m)
  | _, _ => obj
  end.

(** The segment as the loop uses it on [obj]: arrays turn it into a number. *)
Definition resolve_key (obj : value) (seg : string) : outcome key :=
  match obj with
  | VArr xs => array_key (length xs) seg
  | _ => Ret (KStr seg)
  end.

(** *** objOps and arrOps

    Each entry receives the container and the key of the last segment.  It
    returns the container as the call leaves it when it writes to it
    ([None] when it only reads), together with what the entry reports:
    [removed], or the value [_get] stores in the operation. *)

Definition leaf : Type := value → key → outcome (option value * value).

(** objOps.add: [obj[key] = this.value]; arrOps.add:
    [arr.splice(i, 0, this.value)] (the key is a number, which isInteger
    accepts). *)
Definition ops_add (v : value) : leaf := λ obj k,
  match obj, k with
  | VUndefined, _ | VNull, _ => Throw TypeError_nullish
  | VArr xs, KNum i => Ret (Some (VArr (splice_insert xs i v)), VUndefined)
  | VObj m, KStr s => Ret (Some (VObj (<[s := v]> m)), VUndefined)
  | _, _ => OutOfModel
  end.

(** objOps.remove: [removed = obj[key]; delete obj[key]]; arrOps.remove:
    [removedList = arr.splice(i, 1)]. *)
Definition ops_remove : leaf := λ obj k,
  match obj, k with
  | VUndefined, _ | VNull, _ => Throw TypeError_nullish
  | VArr xs, KNum i =>
      let '(xs', r) := splice_remove VUndefined xs i in Ret (Some (VArr xs'), r)
  | VObj m, KStr s => r ← getprop obj k; Ret (Some (VObj (delete s m)), r)
  | _, _ => OutOfModel
  end.

(** objOps.replace and arrOps.replace: [removed = obj[key]; obj[key] = this.value].
    On an array a negative number names a property, not an element. *)
Definition ops_replace (v : value) : leaf := λ obj k,
  match obj, k with
  | VUndefined, _ | VNull, _ => Throw TypeError_nullish
  | VArr xs, KNum i =>
      if 0 <=? i
      then Ret (Some (VArr (arr_set VUndefined xs (Z.to_nat i) v)), arr_get VUndefined xs i)
      else OutOfModel
  | VObj m, KStr s => r ← getprop obj k; Ret (Some (VObj (<[s := v]> m)), r)
  | _, _ => OutOfModel
  end.

(** objOps.test: [test: _areEquals(obj[key], this.value)], and the throw
    applyOperation makes of a false result. *)
Definition ops_test (v : value) : leaf := λ obj k,
  w ← getprop obj k;
  if _areEquals w v then Ret (None, VUndefined) else Throw TEST_OPERATION_FAILED.

(** objOps._get: [this.value = obj[key]]. *)
Definition ops_get : leaf := λ obj k,
  w ← getprop obj k; Ret (None, w).

(** The traversal alone, for the entries that do not look at [obj] and
    [key] (move and copy). *)
Definition ops_none : leaf := λ _ _, Ret (None, VUndefined).

(** *** applyOperation *)

(** The [while (true)] loop of applyOperation below the root, validation
    off: [seg] is [keys[t]], [prev] is [keys[t-1]], [rest] the keys after
    [t].  A write of the entry happens inside the document; here it is
    carried back to the root through the containers on the way. *)
Fixpoint walk (f : leaf) (prev seg : string) (rest : list string) (obj : value)
  {struct rest} : outcome (option value * value) :=
  let key := unescape_key seg in
  if banned key prev then Throw TypeError_proto_banned else
  k ← resolve_key obj key;
  match rest with
  | [] => f obj k
  | seg' :: rest' =>
      child ← getprop obj k;
      '(written, r) ← walk f seg seg' rest' child;
      Ret (option_map (setchild obj k) written, r)
  end.

(** The loop started on [path.split('/')].  A path without any slash has
    no [keys[1]]: the key is [undefined], which isInteger cannot take and
    which names the property "undefined" of anything else. *)
Definition walk_path (f : leaf) (document : value) (path : string)
  : outcome (option value * value) :=
  match split_slash path with
  | k0 :: seg :: rest => walk f k0 seg rest document
  | _ =>
      match document with
      | VArr _ => Throw TypeError_nullish
      | _ => f document (KStr "undefined")
      end
  end.

(** What applyOperation returns; [got] is the value a [_get] leaves in its
    operation. *)
Record OperationResult : Type := mkResult {
  newDocument : value;
  removed : value;
  got : value
}.

Definition below_root (f : leaf) (document : value) (path : string) (isget : bool)
  : outcome OperationResult :=
  '(written, r) ← walk_path f document path;
  let d := default document written in
  Ret (if isget then mkResult d VUndefined r else mkResult d r VUndefined).

Definition apply_add (document : value) (path : string) (v : value) : outcome OperationResult :=
  if decide (path = "") then Ret (mkResult v VUndefined VUndefined)
  else below_root (ops_add v) document path false.

Definition apply_remove (document : value) (path : string) : outcome OperationResult :=
  if decide (path = "") then Ret (mkResult VNull document VUndefined)
  else below_root ops_remove document path false.

Definition apply_replace (document : value) (path : string) (v : value) : outcome OperationResult :=
  if decide (path = "") then Ret (mkResult v document VUndefined)
  else below_root (ops_replace v) document path false.

Definition apply_test (document : value) (path : string) (v : value) : outcome OperationResult :=
  if decide (path = "") then
    if _areEquals document v then Ret (mkResult document VUndefined VUndefined)
    else Throw TEST_OPERATION_FAILED
  else below_root (ops_test v) document path false.

Definition apply_get (document : value) (path : string) : outcome OperationResult :=
  if decide (path = "") then Ret (mkResult document VUndefined document)
  else below_root ops_get document path true.

(** core.getValueByPointer *)
Definition getValueByPointer (document : value) (pointer : string) : outcome value :=
  if decide (pointer = "") then Ret document
  else r ← apply_get document pointer; Ret (got r).

(** objOps.move (also arrOps.move), reached with a path that is not the
    root.  The three inner calls work on the one [document]; a removal at
    the root does not change it but reports it as [removed], so that the
    add then stores the document inside itself. *)
Definition ops_move (document : value) (path from : string) : outcome OperationResult :=
  removed0 ← getValueByPointer document path;
  let removed1 := if truthy removed0 then _deepClone removed0 else removed0 in
  if decide (from = "") then OutOfModel
  else
    r1 ← apply_remove document from;
    r2 ← apply_add (newDocument r1) path (removed r1);
    Ret (mkResult (newDocument r2) removed1 VUndefined).

(** objOps.copy (also arrOps.copy). *)
Definition ops_copy (document : value) (path from : string) : outcome OperationResult :=
  valueToCopy ← getValueByPointer document from;
  r ← apply_add document path (_deepClone valueToCopy);
  Ret (mkResult (newDocument r) VUndefined VUndefined).

Definition apply_move (document : value) (path from : string) : outcome OperationResult :=
  if decide (path = "") then
    d ← getValueByPointer document from; Ret (mkResult d document VUndefined)
  else
    _ ← walk_path ops_none document path; ops_move document path from.

Definition apply_copy (document : value) (path from : string) : outcome OperationResult :=
  if decide (path = "") then
    d ← getValueByPointer document from; Ret (mkResult d VUndefined VUndefined)
  else
    _ ← walk_path ops_none document path; ops_copy document path from.

(** core.applyOperation(document, operation) with [validateOperation]
    false, [mutateDocument] and [banPrototypeModifications] true: the root
    cases for [operation.path === ""], the loop otherwise, one function per
    value of [operation.op]. *)
Definition applyOperation (document : value) (operation : JsonPatchOperation value)
  : outcome OperationResult :=
  match operation with
  | AddOperation path v => apply_add document path v
  | RemoveOperation path => apply_remove document path
  | ReplaceOperation path v => apply_replace document path v
  | MoveOperation path from => apply_move document path from
  | CopyOperation path from => apply_copy document path from
  | TestOperation path v => apply_test document path v
  | GetOperation path _ => apply_get document path
  end.

(** core.applyPatch(document, patch, false, true): the operations in order,
    each on the [newDocument] of the one before; the patcher reads
    [newDocument] only. *)
Fixpoint applyPatch (document : value) (patch : list (JsonPatchOperation value))
  : outcome value :=
  match patch with
  | [] => Ret document
  | operation :: patch' =>
      r ← applyOperation document operation;
      applyPatch (newDocument r) patch'
  end.

(** *** patcher.ts *)

(** [structuredClone] of a tree: a copy of every node. *)
Fixpoint structuredClone (v : value) : value :=
  match v with
  | VArr xs => VArr (structuredClone <$> xs)
  | VObj m => VObj (structuredClone <$> m)
  | _ => v
  end.

(** One turn of the [for] loop of [patch] (lines 24 to 45): the new
    [target]. *)
Definition patch_step (target : value) (operation : JsonPatchOperation value)
  : outcome value :=
  match operation with
  | AddOperation path (VStr s) =>
      targetValue ← getValueByPointer target path;
      let patchValue :=
        match targetValue with
        | VStr t => VStr (t +:+ s)
        | _ => VStr s
        end in
      applyPatch target [ReplaceOperation path patchValue]
  | _ => applyPatch target [operation]
  end.

Fixpoint patch_loop (target : value) (patches : list (JsonPatchOperation value))
  : outcome value :=
  match patches with
  | [] => Ret target
  | operation :: patches' =>
      target' ← patch_step target operation;
      patch_loop target' patches'
  end.

(** [JsonPatcher.patch] *)
Definition patch (object : value) (patches : list (JsonPatchOperation value))
  : outcome value :=
  patch_loop (structuredClone object) patches.

(** An object literal. *)
Definition object (members : list (string * value)) : value :=
  VObj (list_to_map members).

(** [PatchResult] of types.ts. *)
Inductive PatchResult : Type :=
| Success (data : value)
| Failure (err : error).

(** [JsonPatcher.safePatch]: the [try] returns the data, the [catch]
    returns the error; every [error] here is an [Error], which
    [error instanceof Error ? error : new Error(String(error))] hands on
    as it is. *)
Definition safePatch (target : value) (patches : list (JsonPatchOperation value))
  : outcome PatchResult :=
  match patch target patches with
  | Ret data => Ret (Success data)
  | Throw e => Ret (Failure e)
  | OutOfModel => OutOfModel
  end.

(** *** The vocabulary of the statements about documents *)

(** The number of nodes of a document, the measure of the induction over
    documents. *)
Fixpoint vsize (v : value) : nat :=
  match v with
  | VArr xs => S (foldr (λ x n, vsize x + n)%nat 0%nat xs)
  | VObj m => S (map_fold (λ _ x n, vsize x + n)%nat 0%nat m)
  | _ => 1%nat
  end.

(** [slot obj k c]: the container [obj] has the member [k], of value [c]. *)
Inductive slot : value → key → value → Prop :=
| slot_obj m s c : m !! s = Some c → slot (VObj m) (KStr s) c
| slot_arr xs i c : 0 ≤ i → xs !! Z.to_nat i = Some c → slot (VArr xs) (KNum i) c.

(** The last segment of a pointer as split gives it: the [prev] of a
    segment appended to it. *)
Definition last_seg (pp : string) : string := List.last (split_slash pp) "".

(** [lens prev seg rest plug]: the keys [seg :: rest] lead, in every
    document [plug x], to a member that holds [x]; [plug] says what the
    rest of the document is. *)
Definition lens (prev seg : string) (rest : list string) (plug : value → value) : Prop :=
  (∀ x, walk ops_get prev seg rest (plug x) = Ret (None, x)) ∧
  (∀ x y, walk (ops_replace y) prev seg rest (plug x) = Ret (Some (plug y), x)) ∧
  (∀ f x lseg,
     walk f prev seg (rest ++ [lseg]) (plug x) =
     '(w, r) ← walk f (List.last (seg :: rest) "") lseg [] x; Ret (option_map plug w, r)).

(** [focus pp plug]: in every document [plug x] the pointer [pp] reads [x],
    a replace at [pp] exchanges [x], and an operation on a member of [x]
    is an operation on [x] put back by [plug]. *)
Definition focus (pp : string) (plug : value → value) : Prop :=
  (∀ x, getValueByPointer (plug x) pp = Ret x) ∧
  (∀ x y, apply_replace (plug x) pp y = Ret (mkResult (plug y) x VUndefined)) ∧
  (pointer_ok pp = true → ∀ f x lseg, has_char slash lseg = false →
     walk_path f (plug x) (child pp lseg) =
     '(w, r) ← walk f (last_seg pp) lseg [] x; Ret (option_map plug w, r)).


End Doc.

(** * Objects and arrays as cells of a store *)

Module Store.

(** A location names one object or array. *)
Abbreviation loc := nat (only parsing).

(** A JavaScript value: a primitive, or a reference to an object or array. *)
Inductive val : Type :=
| VUndefined
| VNull
| VBool (b : bool)
| VNum (n : Z)
| VStr (s : string)
| VRef (l : loc).

Inductive cell : Type :=
| CArr (xs : list val)
| CObj (m : gmap string val).

(** The store: the cell of location [l] is the [l]-th; a new object takes
    the next location. *)
Abbreviation store := (list cell) (only parsing).

#[global] Instance val_eq_dec : EqDecision val.
Proof. solve_decision. Defined.

(** A call runs on a store and leaves one, also when it throws. *)
Definition M (A : Type) : Type := store → outcome A * store.

Definition ret {A} (a : A) : M A := λ h, (Ret a, h).
Definition throw {A} (e : error) : M A := λ h, (Throw e, h).
Definition out_of_model {A} : M A := λ h, (OutOfModel, h).

Definition bind {A B} (f : A → M B) (m : M A) : M B := λ h,
  match m h with
  | (Ret a, h') => f a h'
  | (Throw e, h') => (Throw e, h')
  | (OutOfModel, h') => (OutOfModel, h')
  end.

#[global] Instance M_ret : MRet M := @ret.
#[global] Instance M_bind : MBind M := @bind.

(** A computation that only reads the store. *)
Definition reads {A} (f : store → outcome A) : M A := λ h, (f h, h).

(** [new c]: a fresh object; [set_cell l c]: the object [l] updated in place. *)
Definition new (c : cell) : M loc := λ h, (Ret (length h), h ++ [c]).
Definition set_cell (l : loc) (c : cell) : M unit := λ h, (Ret (), <[l := c]> h).

Definition is_string (v : val) : bool :=
  match v with VStr _ => true | _ => false end.

Definition truthy (v : val) : bool :=
  match v with
  | VUndefined | VNull => false
  | VBool b => b
  | VNum n => negb (n =? 0)
  | VStr s => negb (bool_decide (s = ""))
  | VRef _ => true
  end.

(** *** What a value looks like *)

Definition prim (v : val) : Doc.value :=
  match v with
  | VUndefined | VRef _ => Doc.VUndefined
  | VNull => Doc.VNull
  | VBool b => Doc.VBool b
  | VNum n => Doc.VNum n
  | VStr s => Doc.VStr s
  end.

(** All the members are there, or what went wrong with one of them
    (a member outside the model first). *)
Definition all_members {A} (m : gmap string (outcome A)) : outcome (gmap string A) :=
  map_fold (λ k o acc,
              match o, acc with
              | Ret a, Ret m' => Ret (<[k := a]> m')
              | _, OutOfModel | OutOfModel, _ => OutOfModel
              | Throw e, _ => Throw e
              | _, Throw e => Throw e
              end) (Ret ∅) m.

Fixpoint all_elements {A} (xs : list (outcome A)) : outcome (list A) :=
  match xs with
  | [] => Ret []
  | o :: xs' =>
      match o, all_elements xs' with
      | Ret a, Ret l => Ret (a :: l)
      | _, OutOfModel | OutOfModel, _ => OutOfModel
      | Throw e, _ => Throw e
      | _, Throw e => Throw e
      end
  end.

(** The tree a value unfolds to, followed to the depth [fuel], and the
    locations met on the way, each as often as it is met.  Running out of
    depth is reported as the cycle it reveals when [fuel] exceeds the
    number of cells; a reference to no cell is outside the model. *)
Fixpoint unfold (fuel : nat) (h : store) (v : val) : outcome (Doc.value * list loc) :=
  match v with
  | VRef l =>
      match fuel with
      | O => Throw TypeError_circular
      | S fuel' =>
          match h !! l with
          | Some (CArr xs) =>
              ts ← all_elements (unfold fuel' h <$> xs);
              Ret (Doc.VArr (fst <$> ts), l :: concat (snd <$> ts))
          | Some (CObj m) =>
              ts ← all_members (unfold fuel' h <$> m);
              Ret (Doc.VObj (fst <$> ts),
                   l :: map_fold (λ _ t acc, t.2 ++ acc) [] ts)
          | None => OutOfModel
          end
      end
  | _ => Ret (prim v, [])
  end.

(** The unfolding of a value in a store: deep enough for every structure
    without a cycle. *)
Definition snapshot (h : store) (v : val) : outcome (Doc.value * list loc) :=
  unfold (S (length h)) h v.

(** Fresh objects for a tree ([JSON.parse], or the receiving side of
    [structuredClone]). *)
Fixpoint build (t : Doc.value) : M val :=
  match t with
  | Doc.VUndefined => ret VUndefined
  | Doc.VNull => ret VNull
  | Doc.VBool b => ret (VBool b)
  | Doc.VNum n => ret (VNum n)
  | Doc.VStr s => ret (VStr s)
  | Doc.VArr ts =>
      xs ← foldr (λ t acc, xs ← acc; x ← build t; ret (x :: xs)) (ret []) ts;
      l ← new (CArr xs);
      ret (VRef l)
  | Doc.VObj tm =>
      m ← map_fold (λ k t acc, m ← acc; x ← build t; ret (<[k := x]> m)) (ret ∅) tm;
      l ← new (CObj m);
      ret (VRef l)
  end.

(** helpers._deepClone: [JSON.parse(JSON.stringify(obj))] for an object or
    array (a [TypeError] on a cycle), [null] for [undefined] and for
    [null], the value itself for the other primitives. *)
Definition _deepClone (obj : val) : M val := λ h,
  match obj with
  | VRef _ =>
      match snapshot h obj with
      | Ret (t, _) => build (Doc.json_roundtrip t) h
      | Throw e => (Throw e, h)
      | OutOfModel => (OutOfModel, h)
      end
  | VUndefined => (Ret VNull, h)
  | _ => (Ret obj, h)
  end.

(** core._areEquals on two values without cycles: its recursion compares
    their unfoldings member by member, which is [Doc._areEquals] on the two
    trees.  On a cycle the recursion does not end well; that is left
    outside the model. *)
Definition _areEquals (h : store) (a b : val) : outcome bool :=
  match snapshot h a, snapshot h b with
  | Ret (ta, _), Ret (tb, _) => Ret (Doc._areEquals ta tb)
  | _, _ => OutOfModel
  end.

(** The tree a value is, its locations left out. *)
Definition look (h : store) (v : val) : outcome Doc.value :=
  match snapshot h v with
  | Ret (t, _) => Ret t
  | Throw e => Throw e
  | OutOfModel => OutOfModel
  end.

(** [structuredClone]: a copy of every object.  The copy keeps the sharing
    and the cycles of the original; here it is made from the unfolding,
    for originals that have neither. *)
Definition structuredClone (v : val) : M val := λ h,
  match snapshot h v with
  | Ret (t, ls) => if bool_decide (NoDup ls) then build t h else (OutOfModel, h)
  | _ => (OutOfModel, h)
  end.

(** *** Members of a container *)

(** [obj[key]] *)
Definition getprop (h : store) (obj : val) (k : key) : outcome val :=
  match obj with
  | VUndefined | VNull => Throw TypeError_nullish
  | VRef l =>
      match h !! l, k with
      | Some (CArr xs), KNum i => Ret (arr_get VUndefined xs i)
      | Some (CObj m), KStr s =>
          match m !! s with
          | Some x => Ret x
          | None => if inherited s then OutOfModel else Ret VUndefined
          end
      | _, _ => OutOfModel
      end
  | _ => OutOfModel
  end.

Definition resolve_key (h : store) (obj : val) (seg : string) : outcome key :=
  match obj with
  | VRef l =>
      match h !! l with
      | Some (CArr xs) => array_key (length xs) seg
      | _ => Ret (KStr seg)
      end
  | _ => Ret (KStr seg)
  end.

(** *** objOps and arrOps: the entry writes into the cell of [obj] and
    returns what it reports. *)

Definition leaf : Type := val → key → M val.

(** The cell an entry works on. *)
Definition on_cell {A} (obj : val) (f : loc → cell → M A) : M A := λ h,
  match obj with
  | VUndefined | VNull => (Throw TypeError_nullish, h)
  | VRef l =>
      match h !! l with
      | Some c => f l c h
      | None => (OutOfModel, h)
      end
  | _ => (OutOfModel, h)
  end.

Definition ops_add (v : val) : leaf := λ obj k,
  on_cell obj (λ l c,
    match c, k with
    | CArr xs, KNum i => _ ← set_cell l (CArr (splice_insert xs i v)); ret VUndefined
    | CObj m, KStr s => _ ← set_cell l (CObj (<[s := v]> m)); ret VUndefined
    | _, _ => out_of_model
    end).

Definition ops_remove : leaf := λ obj k,
  on_cell obj (λ l c,
    match c, k with
    | CArr xs, KNum i =>
        let '(xs', r) := splice_remove VUndefined xs i in
        _ ← set_cell l (CArr xs'); ret r
    | CObj m, KStr s =>
        r ← reads (λ h, getprop h obj k);
        _ ← set_cell l (CObj (delete s m)); ret r
    | _, _ => out_of_model
    end).

Definition ops_replace (v : val) : leaf := λ obj k,
  on_cell obj (λ l c,
    match c, k with
    | CArr xs, KNum i =>
        if 0 <=? i then
          _ ← set_cell l (CArr (arr_set VUndefined xs (Z.to_nat i) v));
          ret (arr_get VUndefined xs i)
        else out_of_model
    | CObj m, KStr s =>
        r ← reads (λ h, getprop h obj k);
        _ ← set_cell l (CObj (<[s := v]> m)); ret r
    | _, _ => out_of_model
    end).

Definition ops_test (v : val) : leaf := λ obj k,
  w ← reads (λ h, getprop h obj k);
  eq ← reads (λ h, _areEquals h w v);
  if eq : bool then ret VUndefined else throw TEST_OPERATION_FAILED.

Definition ops_get : leaf := λ obj k, reads (λ h, getprop h obj k).

Definition ops_none : leaf := λ _ _, ret VUndefined.

(** *** applyOperation *)

Fixpoint walk (f : leaf) (prev seg : string) (rest : list string) (obj : val)
  {struct rest} : M val :=
  let key := unescape_key seg in
  if banned key prev then throw TypeError_proto_banned else
  k ← reads (λ h, resolve_key h obj key);
  match rest with
  | [] => f obj k
  | seg' :: rest' =>
      child ← reads (λ h, getprop h obj k);
      walk f seg seg' rest' child
  end.

Definition walk_path (f : leaf) (document : val) (path : string) : M val :=
  match split_slash path with
  | k0 :: seg :: rest => walk f k0 seg rest document
  | _ =>
      isarr ← reads (λ h, Ret (match document with
                               | VRef l => match h !! l with Some (CArr _) => true | _ => false end
                               | _ => false
                               end));
      if isarr : bool then throw TypeError_nullish
      else f document (KStr "undefined")
  end.

Record OperationResult : Type := mkResult {
  newDocument : val;
  removed : val;
  got : val
}.

Definition apply_add (document : val) (path : string) (v : val) : M OperationResult :=
  if decide (path = "") then ret (mkResult v VUndefined VUndefined)
  else r ← walk_path (ops_add v) document path; ret (mkResult document r VUndefined).

Definition apply_remove (document : val) (path : string) : M OperationResult :=
  if decide (path = "") then ret (mkResult VNull document VUndefined)
  else r ← walk_path ops_remove document path; ret (mkResult document r VUndefined).

Definition apply_replace (document : val) (path : string) (v : val) : M OperationResult :=
  if decide (path = "") then ret (mkResult v document VUndefined)
  else r ← walk_path (ops_replace v) document path; ret (mkResult document r VUndefined).

Definition apply_test (document : val) (path : string) (v : val) : M OperationResult :=
  if decide (path = "") then
    eq ← reads (λ h, _areEquals h document v);
    if eq : bool then ret (mkResult document VUndefined VUndefined)
    else throw TEST_OPERATION_FAILED
  else r ← walk_path (ops_test v) document path; ret (mkResult document r VUndefined).

Definition apply_get (document : val) (path : string) : M OperationResult :=
  if decide (path = "") then ret (mkResult document VUndefined document)
  else r ← walk_path ops_get document path; ret (mkResult document VUndefined r).

Definition getValueByPointer (document : val) (pointer : string) : M val :=
  if decide (pointer = "") then ret document
  else r ← apply_get document pointer; ret (got r).

(** objOps.move: the removal and the add both work on [document]; the
    value travels by reference. *)
Definition ops_move (document : val) (path from : string) : M OperationResult :=
  removed0 ← getValueByPointer document path;
  removed1 ← (if truthy removed0 then _deepClone removed0 else ret removed0);
  r1 ← apply_remove document from;
  _ ← apply_add document path (removed r1);
  ret (mkResult document removed1 VUndefined).

(** objOps.copy: the value is copied by [_deepClone]. *)
Definition ops_copy (document : val) (path from : string) : M OperationResult :=
  valueToCopy ← getValueByPointer document from;
  copy ← _deepClone valueToCopy;
  _ ← apply_add document path copy;
  ret (mkResult document VUndefined VUndefined).

Definition apply_move (document : val) (path from : string) : M OperationResult :=
  if decide (path = "") then
    d ← getValueByPointer document from; ret (mkResult d document VUndefined)
  else
    _ ← walk_path ops_none document path; ops_move document path from.

Definition apply_copy (document : val) (path from : string) : M OperationResult :=
  if decide (path = "") then
    d ← getValueByPointer document from; ret (mkResult d VUndefined VUndefined)
  else
    _ ← walk_path ops_none document path; ops_copy document path from.

Definition applyOperation (document : val) (operation : JsonPatchOperation val)
  : M OperationResult :=
  match operation with
  | AddOperation path v => apply_add document path v
  | RemoveOperation path => apply_remove document path
  | ReplaceOperation path v => apply_replace document path v
  | MoveOperation path from => apply_move document path from
  | CopyOperation path from => apply_copy document path from
  | TestOperation path v => apply_test document path v
  | GetOperation path _ => apply_get document path
  end.

Fixpoint applyPatch (document : val) (patch : list (JsonPatchOperation val)) : M val :=
  match patch with
  | [] => ret document
  | operation :: patch' =>
      r ← applyOperation document operation;
      applyPatch (newDocument r) patch'
  end.

(** *** patcher.ts *)

Definition patch_step (target : val) (operation : JsonPatchOperation val) : M val :=
  match operation with
  | AddOperation path (VStr s) =>
      targetValue ← getValueByPointer target path;
      let patchValue :=
        match targetValue with
        | VStr t => VStr (t +:+ s)
        | _ => VStr s
        end in
      applyPatch target [ReplaceOperation path patchValue]
  | _ => applyPatch target [operation]
  end.

Fixpoint patch_loop (target : val) (patches : list (JsonPatchOperation val)) : M val :=
  match patches with
  | [] => ret target
  | operation :: patches' =>
      target' ← patch_step target operation;
      patch_loop target' patches'
  end.

(** [JsonPatcher.patch] *)
Definition patch (object : val) (patches : list (JsonPatchOperation val)) : M val :=
  target ← structuredClone object;
  patch_loop target patches.

Inductive PatchResult : Type :=
| Success (data : val)
| Failure (err : error).

(** [JsonPatcher.safePatch] *)
Definition safePatch (target : val) (patches : list (JsonPatchOperation val))
  : M PatchResult := λ h,
  match patch target patches h with
  | (Ret data, h') => (Ret (Success data), h')
  | (Throw e, h') => (Ret (Failure e), h')
  | (OutOfModel, h') => (OutOfModel, h')
  end.

(** *** From trees to the store and back *)

(** An operation whose value is given as a tree, with new objects for it. *)
Definition load_op (operation : JsonPatchOperation Doc.value) : M (JsonPatchOperation val) :=
  match operation with
  | AddOperation path t => v ← build t; ret (AddOperation path v)
  | RemoveOperation path => ret (RemoveOperation path)
  | ReplaceOperation path t => v ← build t; ret (ReplaceOperation path v)
  | MoveOperation path from => ret (MoveOperation path from)
  | CopyOperation path from => ret (CopyOperation path from)
  | TestOperation path t => v ← build t; ret (TestOperation path v)
  | GetOperation path t => v ← build t; ret (GetOperation path v)
  end.

Fixpoint load (patches : list (JsonPatchOperation Doc.value))
  : M (list (JsonPatchOperation val)) :=
  match patches with
  | [] => ret []
  | operation :: patches' =>
      o ← load_op operation; os ← load patches'; ret (o :: os)
  end.

(** [patch] in an empty store, on a document and operation values given as
    trees, and the tree of what it returns. *)
Definition patch_tree (t : Doc.value) (patches : list (JsonPatchOperation Doc.value))
  : outcome Doc.value :=
  fst ((object ← build t;
        ops ← load patches;
        data ← patch object ops;
        reads (λ h, look h data)) []).

(** *** The vocabulary of the statements about the store *)

(** [region h S]: [S] is a set of objects of [h] that refer to objects of
    [S] only: with a value, everything the value can reach. *)
Definition val_in (S : list loc) (v : val) : bool :=
  match v with VRef l => bool_decide (l ∈ S) | _ => true end.

Definition cell_in (S : list loc) (c : cell) : bool :=
  match c with
  | CArr xs => forallb (val_in S) xs
  | CObj m => map_fold (λ _ v acc, acc && val_in S v) true m
  end.

Definition region (h : store) (S : list loc) : bool :=
  forallb (λ l, match h !! l with Some c => cell_in S c | None => false end) S.

Definition values_in (S : list loc) (P : list (JsonPatchOperation val)) : bool :=
  forallb (λ op, forallb (val_in S) (op_values op)) P.


(** [built h t v ext ls]: in the store [h] extended by the new objects
    [ext], the value [v] unfolds to the tree [t], through the new objects
    [ls] only. *)
Definition built (h : store) (t : Doc.value) (v : val) (ext : list cell) (ls : list loc)
  : Prop :=
  ∃ n, (n ≤ length ext)%nat
       ∧ unfold n (h ++ ext) v = Ret (t, ls)
       ∧ Forall (λ l, (length h ≤ l)%nat) ls.

Definition builds (t : Doc.value) : Prop :=
  ∀ h, ∃ v ext ls, build t h = (Ret v, h ++ ext) ∧ built h t v ext ls.

Section writes.
(** [h0] is the store a call starts in and [T] a set of its objects:
    those an operation value can reach. *)
Variables (h0 : store) (T : list loc).

(** The objects a call may write to: those of [T] and the new ones. *)
Definition own (l : loc) : Prop := l ∈ T ∨ (length h0 ≤ l)%nat.

Definition ok_val (v : val) : Prop :=
  match v with VRef l => own l | _ => True end.

Definition ok_cell (c : cell) : Prop :=
  match c with
  | CArr xs => Forall ok_val xs
  | CObj m => map_Forall (λ _, ok_val) m
  end.

(** The invariant of a call: the store has grown, the objects of [h0]
    outside [T] are as they were, and the objects the call may write to
    refer to such objects only. *)
Definition inv (h : store) : Prop :=
  (length h0 ≤ length h)%nat
  ∧ (∀ l, (l < length h0)%nat → l ∉ T → h !! l = h0 !! l)
  ∧ (∀ l c, own l → h !! l = Some c → ok_cell c).

(** [safe m Q]: [m] keeps the invariant, and what it returns satisfies [Q]. *)
Definition safe {A} (m : M A) (Q : A → Prop) : Prop :=
  ∀ h, inv h → inv (m h).2 ∧ ∀ a, (m h).1 = Ret a → Q a.

Definition safe_leaf (f : leaf) : Prop :=
  ∀ obj k, ok_val obj → safe (f obj k) ok_val.

Definition ok_result (r : OperationResult) : Prop :=
  ok_val (newDocument r) ∧ ok_val (removed r) ∧ ok_val (got r).

Definition ok_op (op : JsonPatchOperation val) : Prop := Forall ok_val (op_values op).
End writes.

End Store.

(** * Paths, the builder and the parser

    The rest of the package: pathJoiner.ts, builder.ts and parser.ts. *)

(** [JsonKey = string | number] and [JsonPath = JsonKey | JsonKey[]] of
    types.ts. *)
Inductive JsonKey : Type :=
| KeyString (s : string)
| KeyNumber (n : Z).

Inductive JsonPath : Type :=
| Complete (key : JsonKey)
| Segments (keys : list JsonKey).

(** [String(n)], also [`${n}`], for a number: the decimal digits, after the
    sign, of an integer that a double holds exactly. *)
Definition number_to_string (n : Z) : outcome string :=
  if Z.abs n <? 2 ^ 53 then Ret (pretty n) else OutOfModel.

(** [strings.join(sep)] *)
Fixpoint join_strings (sep : ascii) (ss : list string) : string :=
  match ss with
  | [] => ""
  | s :: ss' =>
      match ss' with
      | [] => s
      | _ => s +:+ String sep (join_strings sep ss')
      end
  end.

Definition op_map {V W : Type} (f : V → W) (op : JsonPatchOperation V) : JsonPatchOperation W :=
  match op with
  | AddOperation path v => AddOperation path (f v)
  | RemoveOperation path => RemoveOperation path
  | ReplaceOperation path v => ReplaceOperation path (f v)
  | MoveOperation path from => MoveOperation path from
  | CopyOperation path from => CopyOperation path from
  | TestOperation path v => TestOperation path (f v)
  | GetOperation path v => GetOperation path (f v)
  end.

Definition op_path {V : Type} (op : JsonPatchOperation V) : string :=
  match op with
  | AddOperation path _ | RemoveOperation path | ReplaceOperation path _
  | MoveOperation path _ | CopyOperation path _ | TestOperation path _
  | GetOperation path _ => path
  end.

(** The pointer an operation reads its value from: [from] of a move or
    copy. *)
Definition op_from {V : Type} (op : JsonPatchOperation V) : option string :=
  match op with
  | MoveOperation _ from | CopyOperation _ from => Some from
  | _ => None
  end.

(** A pointer that the prototype guard of applyOperation stops: one of its
    segments after the first is [__proto__], or [prototype] follows
    [constructor]. *)
Definition guarded (path : string) : Prop :=
  (∃ pre post, split_slash path = pre ++ "__proto__" :: post ∧ pre ≠ [])
  ∨ (∃ pre post, split_slash path = pre ++ "constructor" :: "prototype" :: post).

(** pathJoiner.ts *)
Module JsonPathJoiner.

(** [String(key)], and [`${path}`] for a path that is one key. *)
Definition key_to_string (key : JsonKey) : outcome string :=
  match key with
  | KeyString s => Ret s
  | KeyNumber n => number_to_string n
  end.

(** The string after its leading slashes. *)
Fixpoint drop_slashes (s : string) : string :=
  match s with
  | String a s' => if decide (a = slash) then drop_slashes s' else s
  | EmptyString => s
  end.

(** [s.replace(/^\/+/, '/')]: the slashes a string starts with become one. *)
Definition replace_leading_slashes (s : string) : string :=
  match s with
  | String a s' => if decide (a = slash) then String slash (drop_slashes s') else s
  | EmptyString => s
  end.

(** [JsonPathJoiner.join] *)
Definition join (path : JsonPath) : outcome string :=
  joinedPath ← match path with
               | Complete key => key_to_string key
               | Segments keys => ss ← mapM key_to_string keys; Ret (join_strings slash ss)
               end;
  Ret (replace_leading_slashes (String slash joinedPath)).

End JsonPathJoiner.

(** *** The vocabulary of the statements about paths *)

(** A key that the joiner hands on as one segment. *)
Definition one_segment (key : JsonKey) : bool :=
  match key with
  | KeyString s => negb (has_char slash s)
  | KeyNumber _ => true
  end.

(** A key that names a member as it stands: a plain property name, or an
    index. *)
Definition direct_key (key : JsonKey) : bool :=
  match key with
  | KeyString s => plain_key s
  | KeyNumber n => (0 <=? n) && (n <? 2 ^ 31)
  end.

(** The member of an object under a name, the element of an array under an
    index; [descend] follows a list of keys. *)
Definition member (v : Doc.value) (key : JsonKey) : option Doc.value :=
  match v, key with
  | Doc.VObj m, KeyString s => m !! s
  | Doc.VArr xs, KeyNumber n => if 0 <=? n then xs !! Z.to_nat n else None
  | _, _ => None
  end.

Fixpoint descend (v : Doc.value) (keys : list JsonKey) : option Doc.value :=
  match keys with
  | [] => Some v
  | key :: keys' => c ← member v key; descend c keys'
  end.

(** A pointer below the document in the form the joiner gives it: one
    slash, then something that does not start with a slash. *)
Definition one_slash (p : string) : bool :=
  match p with
  | String a r =>
      bool_decide (a = slash)
      && match r with String b _ => negb (bool_decide (b = slash)) | EmptyString => true end
  | EmptyString => false
  end.

(** builder.ts, where the builder and the values it is given share no
    object with anything else: the builder is its [_patches]. *)
Module JsonPatchBuilder.
Import Doc.

Record JsonPatchBuilder : Type := mk { _patches : list (JsonPatchOperation value) }.

(** [new JsonPatchBuilder()] *)
Definition empty : JsonPatchBuilder := mk [].

Definition joinPath (path : JsonPath) : outcome string := JsonPathJoiner.join path.

Definition push (this : JsonPatchBuilder) (op : JsonPatchOperation value) : JsonPatchBuilder :=
  mk (_patches this ++ [op]).

Definition add (path : JsonPath) (v : value) (this : JsonPatchBuilder)
  : outcome JsonPatchBuilder :=
  p ← joinPath path; Ret (push this (AddOperation p v)).

Definition remove (path : JsonPath) (this : JsonPatchBuilder) : outcome JsonPatchBuilder :=
  p ← joinPath path; Ret (push this (RemoveOperation p)).

Definition replace (path : JsonPath) (v : value) (this : JsonPatchBuilder)
  : outcome JsonPatchBuilder :=
  p ← joinPath path; Ret (push this (ReplaceOperation p v)).

Definition move (from to : JsonPath) (this : JsonPatchBuilder) : outcome JsonPatchBuilder :=
  f ← joinPath from; p ← joinPath to; Ret (push this (MoveOperation p f)).

Definition copy (from to : JsonPath) (this : JsonPatchBuilder) : outcome JsonPatchBuilder :=
  f ← joinPath from; p ← joinPath to; Ret (push this (CopyOperation p f)).

Definition test (path : JsonPath) (v : value) (this : JsonPatchBuilder)
  : outcome JsonPatchBuilder :=
  p ← joinPath path; Ret (push this (TestOperation p v)).

(** [patches()]: [structuredClone(this._patches)] *)
Definition patches (this : JsonPatchBuilder) : list (JsonPatchOperation value) :=
  op_map structuredClone <$> _patches this.

Definition clear (this : JsonPatchBuilder) : JsonPatchBuilder := mk [].

(** A call of one of the methods that return the builder. *)
Inductive call : Type :=
| Add (path : JsonPath) (v : value)
| Remove (path : JsonPath)
| Replace (path : JsonPath) (v : value)
| Move (from to : JsonPath)
| Copy (from to : JsonPath)
| Test (path : JsonPath) (v : value)
| Clear.

Definition run (c : call) (this : JsonPatchBuilder) : outcome JsonPatchBuilder :=
  match c with
  | Add path v => add path v this
  | Remove path => remove path this
  | Replace path v => replace path v this
  | Move from to => move from to this
  | Copy from to => copy from to this
  | Test path v => test path v this
  | Clear => Ret (clear this)
  end.

(** A chain of calls, [b.c1(..).c2(..)...]. *)
Fixpoint chain (cs : list call) (this : JsonPatchBuilder) : outcome JsonPatchBuilder :=
  match cs with
  | [] => Ret this
  | c :: cs' => this' ← run c this; chain cs' this'
  end.

End JsonPatchBuilder.

(** parser.ts *)
Module JsonParser.
Import Doc.

Inductive JsonFieldConversion : Type :=
| Date
| Int
| Float
| String'
| Boolean.

#[global] Instance JsonFieldConversion_eq_dec : EqDecision JsonFieldConversion.
Proof. solve_decision. Defined.

Record ParseField : Type := mkField {
  path : JsonPath;
  conversion : JsonFieldConversion
}.

Record JsonParser : Type := mkParser { parsedFields : list ParseField }.

(** What [parse] throws: the [SyntaxError] of [JSON.parse], an error of the
    library (of [getValueByPointer]), or its own
    [new Error(`Failed to parse JSON: ${patchResult.error}`)]. *)
Inductive failure : Type :=
| SyntaxError
| Library (e : error)
| Failed_to_parse_JSON (e : error).

Inductive result (A : Type) : Type :=
| Parsed (a : A)
| Raised (f : failure)
| Unmodelled.
Arguments Parsed {A} a.
Arguments Raised {A} f.
Arguments Unmodelled {A}.

(** [String(value)]: an array is its elements joined by commas, [null] and
    [undefined] among them as the empty string; an object has the [toString]
    of [Object.prototype]. *)
Fixpoint to_string (v : value) : outcome string :=
  match v with
  | VUndefined => Ret "undefined"
  | VNull => Ret "null"
  | VBool b => Ret (if b then "true" else "false")
  | VNum n => number_to_string n
  | VStr s => Ret s
  | VArr xs =>
      ss ← mapM (λ x, match x with
                      | VUndefined | VNull => Ret ""
                      | _ => to_string x
                      end) xs;
      Ret (join_strings ","%char ss)
  | VObj _ => Ret "[object Object]"
  end.

Definition from_host (o : option value) : outcome value :=
  match o with
  | Some v => Ret v
  | None => OutOfModel
  end.

Section host.
(** The functions of the host that the parser calls: [JSON.parse], and on a
    string [new Date], [parseInt] and [parseFloat], which give [None] where
    the result is no value of the model (a Date, NaN, a number that is not an
    integer). *)
Variable JSON_parse : string → result value.
Variables new_Date parseInt parseFloat : string → option value.

(** [JsonParser.convertValue] *)
Definition convertValue (value : value) (conversion : JsonFieldConversion) : outcome Doc.value :=
  match value with
  | VUndefined | VNull => Ret value
  | _ =>
      match conversion, value with
      | Date, VStr s => from_host (new_Date s)
      | String', _ => s ← to_string value; Ret (VStr s)
      | Int, VStr s => from_host (parseInt s)
      | Float, VStr s => from_host (parseFloat s)
      | Boolean, VStr s => Ret (VBool (if bool_decide (s = "false") then false else truthy value))
      | Boolean, _ => Ret (VBool (truthy value))
      | _, _ => Ret value
      end
  end.

(** The [for] loop of [parse] (lines 29 to 36 of parser.ts): the builder
    after the fields. *)
Fixpoint convert_fields (raw : value) (fields : list ParseField)
    (patchBuilder : JsonPatchBuilder.JsonPatchBuilder)
  : outcome JsonPatchBuilder.JsonPatchBuilder :=
  match fields with
  | [] => Ret patchBuilder
  | parseField :: fields' =>
      joinedPath ← JsonPathJoiner.join (path parseField);
      value ← getValueByPointer raw joinedPath;
      converted ← convertValue value (conversion parseField);
      patchBuilder' ← JsonPatchBuilder.replace (Complete (KeyString joinedPath)) converted
                        patchBuilder;
      convert_fields raw fields' patchBuilder'
  end.

(** [JsonParser.parse] *)
Definition parse (this : JsonParser) (text : string) : result value :=
  match JSON_parse text with
  | Parsed raw =>
      match parsedFields this with
      | [] => Parsed raw
      | _ =>
          match convert_fields raw (parsedFields this) JsonPatchBuilder.empty with
          | Ret patchBuilder =>
              match safePatch raw (JsonPatchBuilder.patches patchBuilder) with
              | Ret (Success data) => Parsed data
              | Ret (Failure e) => Raised (Failed_to_parse_JSON e)
              | Throw e => Raised (Library e)
              | OutOfModel => Unmodelled
              end
          | Throw e => Raised (Library e)
          | OutOfModel => Unmodelled
          end
      end
  | Raised f => Raised f
  | Unmodelled => Unmodelled
  end.

(** The replace operation that the loop makes of one field. *)
Definition field_patch (raw : value) (parseField : ParseField)
  : outcome (JsonPatchOperation Doc.value) :=
  joinedPath ← JsonPathJoiner.join (path parseField);
  value ← getValueByPointer raw joinedPath;
  converted ← convertValue value (conversion parseField);
  Ret (ReplaceOperation joinedPath converted).
End host.

End JsonParser.

(** builder.ts in the store: the builder is an object with the field
    [_patches], an array of operation objects; a value given to it is kept
    by reference. *)
Module BuilderStore.
Import Store.

(** The object literal of an operation, as the methods of the builder
    write it. *)
Definition operation_object (op : JsonPatchOperation val) : cell :=
  CObj (list_to_map
    match op with
    | AddOperation path v => [("op", VStr "add"); ("path", VStr path); ("value", v)]
    | RemoveOperation path => [("op", VStr "remove"); ("path", VStr path)]
    | ReplaceOperation path v => [("op", VStr "replace"); ("path", VStr path); ("value", v)]
    | MoveOperation path from => [("op", VStr "move"); ("from", VStr from); ("path", VStr path)]
    | CopyOperation path from => [("op", VStr "copy"); ("from", VStr from); ("path", VStr path)]
    | TestOperation path v => [("op", VStr "test"); ("path", VStr path); ("value", v)]
    | GetOperation path v => [("op", VStr "_get"); ("path", VStr path); ("value", v)]
    end).

(** The operation an object is, read by its fields [op], [path], and
    [value] or [from] ([JsonPatchOperation] of types.ts). *)
Definition operation_of (h : store) (o : val) : outcome (JsonPatchOperation val) :=
  op ← getprop h o (KStr "op");
  path ← getprop h o (KStr "path");
  match op, path with
  | VStr tag, VStr p =>
      if decide (tag = "add") then v ← getprop h o (KStr "value"); Ret (AddOperation p v)
      else if decide (tag = "remove") then Ret (RemoveOperation p)
      else if decide (tag = "replace") then
        v ← getprop h o (KStr "value"); Ret (ReplaceOperation p v)
      else if decide (tag = "move") then
        from ← getprop h o (KStr "from");
        match from with VStr f => Ret (MoveOperation p f) | _ => OutOfModel end
      else if decide (tag = "copy") then
        from ← getprop h o (KStr "from");
        match from with VStr f => Ret (CopyOperation p f) | _ => OutOfModel end
      else if decide (tag = "test") then v ← getprop h o (KStr "value"); Ret (TestOperation p v)
      else if decide (tag = "_get") then v ← getprop h o (KStr "value"); Ret (GetOperation p v)
      else OutOfModel
  | _, _ => OutOfModel
  end.

(** The operations of an array of operation objects, [JsonPatchOperation[]]. *)
Definition operations_of (h : store) (patches : val) : outcome (list (JsonPatchOperation val)) :=
  match patches with
  | VRef l =>
      match h !! l with
      | Some (CArr xs) => all_elements (operation_of h <$> xs)
      | _ => OutOfModel
      end
  | _ => OutOfModel
  end.

(** [obj.name] *)
Definition field (obj : val) (name : string) : M val :=
  reads (λ h, getprop h obj (KStr name)).

(** [obj.name = v] on an object *)
Definition set_field (obj : val) (name : string) (v : val) : M unit :=
  on_cell obj (λ l c,
    match c with
    | CObj m => set_cell l (CObj (<[name := v]> m))
    | CArr _ => out_of_model
    end).

(** [arr.push(v)] *)
Definition push (arr : val) (v : val) : M unit :=
  on_cell arr (λ l c,
    match c with
    | CArr xs => set_cell l (CArr (xs ++ [v]))
    | CObj _ => out_of_model
    end).

(** [new JsonPatchBuilder(_patches)]; the parameter defaults to a new
    array. *)
Definition constructor (_patches : val) : M val :=
  arr ← match _patches with
        | VUndefined => l ← new (CArr []); ret (VRef l)
        | _ => ret _patches
        end;
  this ← new (CObj {["_patches" := arr]});
  ret (VRef this).

Definition joinPath (path : JsonPath) : M string := reads (λ _, JsonPathJoiner.join path).

(** [this._patches.push({ ... }); return this] *)
Definition push_operation (this : val) (op : JsonPatchOperation val) : M val :=
  arr ← field this "_patches";
  o ← new (operation_object op);
  _ ← push arr (VRef o);
  ret this.

Definition add (path : JsonPath) (v : val) (this : val) : M val :=
  p ← joinPath path; push_operation this (AddOperation p v).

Definition remove (path : JsonPath) (this : val) : M val :=
  p ← joinPath path; push_operation this (RemoveOperation p).

Definition replace (path : JsonPath) (v : val) (this : val) : M val :=
  p ← joinPath path; push_operation this (ReplaceOperation p v).

Definition move (from to : JsonPath) (this : val) : M val :=
  f ← joinPath from; p ← joinPath to; push_operation this (MoveOperation p f).

Definition copy (from to : JsonPath) (this : val) : M val :=
  f ← joinPath from; p ← joinPath to; push_operation this (CopyOperation p f).

Definition test (path : JsonPath) (v : val) (this : val) : M val :=
  p ← joinPath path; push_operation this (TestOperation p v).

(** [patches()]: [structuredClone(this._patches)] *)
Definition patches (this : val) : M val :=
  arr ← field this "_patches"; structuredClone arr.

(** [clear()]: [this._patches = []; return this] *)
Definition clear (this : val) : M val :=
  l ← new (CArr []);
  _ ← set_field this "_patches" (VRef l);
  ret this.

(** A call of one of the methods that push an operation, and the operation
    it pushes. *)
Inductive call : Type :=
| Add (path : JsonPath) (v : val)
| Remove (path : JsonPath)
| Replace (path : JsonPath) (v : val)
| Move (from to : JsonPath)
| Copy (from to : JsonPath)
| Test (path : JsonPath) (v : val).

Definition run (c : call) (this : val) : M val :=
  match c with
  | Add path v => add path v this
  | Remove path => remove path this
  | Replace path v => replace path v this
  | Move from to => move from to this
  | Copy from to => copy from to this
  | Test path v => test path v this
  end.

Definition pushed (c : call) : outcome (JsonPatchOperation val) :=
  match c with
  | Add path v => p ← JsonPathJoiner.join path; Ret (AddOperation p v)
  | Remove path => p ← JsonPathJoiner.join path; Ret (RemoveOperation p)
  | Replace path v => p ← JsonPathJoiner.join path; Ret (ReplaceOperation p v)
  | Move from to =>
      f ← JsonPathJoiner.join from; p ← JsonPathJoiner.join to; Ret (MoveOperation p f)
  | Copy from to =>
      f ← JsonPathJoiner.join from; p ← JsonPathJoiner.join to; Ret (CopyOperation p f)
  | Test path v => p ← JsonPathJoiner.join path; Ret (TestOperation p v)
  end.

(** The operation a tree is, read as [operation_of] reads an object; and
    an operation without its value. *)
Definition tree_operation (t : Doc.value) : outcome (JsonPatchOperation Doc.value) :=
  op ← Doc.getprop t (KStr "op");
  path ← Doc.getprop t (KStr "path");
  match op, path with
  | Doc.VStr tag, Doc.VStr p =>
      if decide (tag = "add") then v ← Doc.getprop t (KStr "value"); Ret (AddOperation p v)
      else if decide (tag = "remove") then Ret (RemoveOperation p)
      else if decide (tag = "replace") then
        v ← Doc.getprop t (KStr "value"); Ret (ReplaceOperation p v)
      else if decide (tag = "move") then
        from ← Doc.getprop t (KStr "from");
        match from with Doc.VStr f => Ret (MoveOperation p f) | _ => OutOfModel end
      else if decide (tag = "copy") then
        from ← Doc.getprop t (KStr "from");
        match from with Doc.VStr f => Ret (CopyOperation p f) | _ => OutOfModel end
      else if decide (tag = "test") then
        v ← Doc.getprop t (KStr "value"); Ret (TestOperation p v)
      else if decide (tag = "_get") then
        v ← Doc.getprop t (KStr "value"); Ret (GetOperation p v)
      else OutOfModel
  | _, _ => OutOfModel
  end.

Definition without_value {V : Type} (op : JsonPatchOperation V) : JsonPatchOperation unit :=
  op_map (λ _, ()) op.

(** [is_builder h this arr]: [this] is a builder whose [_patches] is the
    array [arr]. *)
Definition is_builder (h : store) (this arr : loc) : Prop :=
  this ≠ arr
  ∧ (∃ m, h !! this = Some (CObj m) ∧ m !! "_patches" = Some (VRef arr))
  ∧ (∃ xs, h !! arr = Some (CArr xs)).

End BuilderStore.

(** * The databases in memory

    packages/db/src/memory.  Every method is [async]; the calls are taken
    one after the other, each awaited before the next.  An entry is an
    object; a predicate and an updater are functions of the caller that
    only look at the entry. *)

(** What a call settles to: the value, or the message of the [Error] it is
    rejected with. *)
Inductive settled (A : Type) : Type :=
| Resolved (a : A)
| Rejected (message : string)
| NotModelled.
Arguments Resolved {A} a.
Arguments Rejected {A} message.
Arguments NotModelled {A}.

(** [{ ...entry, ...fields }] on two objects: the members of [fields], and
    those of [entry] that [fields] does not have. *)
Definition spread (entry fields : gmap string Doc.value) : gmap string Doc.value :=
  fields ∪ entry.


(** multiEntryMemDb.ts *)
Module MultiEntryMemDb.

(** [Id] and [T extends Identifiable] of types.ts. *)
Definition Id : Type := string.
Definition T : Type := gmap string Doc.value.

(** [entry.id], a string by its type. *)
Definition id_of (entry : T) : settled Id :=
  match entry !! "id" with
  | Some (Doc.VStr s) => Resolved s
  | _ => NotModelled
  end.

(** [Map<Id, T>]: the keys in the order of their first insertion. *)
Definition Entries : Type := list (Id * T).

Fixpoint Map_get (id : Id) (es : Entries) : option T :=
  match es with
  | [] => None
  | (k, e) :: es' => if decide (k = id) then Some e else Map_get id es'
  end.

Definition Map_has (id : Id) (es : Entries) : bool :=
  match Map_get id es with Some _ => true | None => false end.

(** [set]: an existing key keeps its place. *)
Fixpoint Map_set (id : Id) (entry : T) (es : Entries) : Entries :=
  match es with
  | [] => [(id, entry)]
  | (k, e) :: es' => if decide (k = id) then (id, entry) :: es' else (k, e) :: Map_set id entry es'
  end.

Fixpoint Map_delete (id : Id) (es : Entries) : Entries :=
  match es with
  | [] => []
  | (k, e) :: es' => if decide (k = id) then es' else (k, e) :: Map_delete id es'
  end.

(** A method: from the entries before the call to what the call settles to
    and the entries after it. *)
Definition M (A : Type) : Type := Entries → settled A * Entries.

Record DeleteManyOutput : Type := mkOutput {
  deletedIds : list Id;
  ignoredIds : list Id
}.

Definition not_found (id : Id) : string := "Entry with id " +:+ id +:+ " does not exist".

Definition create (entry : T) : M T := λ es,
  match id_of entry with
  | Resolved id => (Resolved entry, Map_set id entry es)
  | _ => (NotModelled, es)
  end.

(** [null] is [None]. *)
Definition getById (id : Id) : M (option T) := λ es, (Resolved (Map_get id es), es).

Definition getByIdOrThrow (id : Id) : M T := λ es,
  match Map_get id es with
  | Some entry => (Resolved entry, es)
  | None => (Rejected (not_found id), es)
  end.


Definition getAll (whereIds : option (list Id)) : M (list T) := λ es,
  match whereIds with
  | None => (Resolved (snd <$> es), es)
  | Some ids => (Resolved (omap (λ id, Map_get id es) ids), es)
  end.

Definition getAllIds : M (list Id) := λ es, (Resolved (fst <$> es), es).

Definition update (id : Id) (updater : T → gmap string Doc.value) : M T := λ es,
  match Map_get id es with
  | None => (Rejected (not_found id), es)
  | Some entry =>
      let updatedEntryFields := updater entry in
      let updatedEntry := spread entry updatedEntryFields in
      match id_of updatedEntry with
      | Resolved id' =>
          let es' := Map_set id' updatedEntry es in
          (Resolved updatedEntry, if decide (id' = id) then es' else Map_delete id es')
      | _ => (NotModelled, es)
      end
  end.

Definition delete (id : Id) : M bool := λ es, (Resolved (Map_has id es), Map_delete id es).

(** The [for] loop of [deleteWhere] over the entries the map has when the
    loop starts: the loop deletes nothing but the entry it is at. *)
Fixpoint deleteWhere_loop (predicate : T → bool) (pending : Entries)
    (deleted ignored : list Id) (es : Entries) : DeleteManyOutput * Entries :=
  match pending with
  | [] => (mkOutput deleted ignored, es)
  | (id, entry) :: pending' =>
      if predicate entry then
        if Map_has id es
        then deleteWhere_loop predicate pending' (deleted ++ [id]) ignored (Map_delete id es)
        else deleteWhere_loop predicate pending' deleted (ignored ++ [id]) (Map_delete id es)
      else deleteWhere_loop predicate pending' deleted ignored es
  end.

Definition deleteWhere (predicate : T → bool) : M DeleteManyOutput := λ es,
  let '(out, es') := deleteWhere_loop predicate es [] [] es in (Resolved out, es').

(** [ids.includes(entry.id)]; the ids are strings. *)
Definition includes_id (ids : list Id) (entry : T) : bool :=
  match entry !! "id" with
  | Some (Doc.VStr s) => bool_decide (s ∈ ids)
  | _ => false
  end.

Definition deleteByIds (ids : list Id) : M DeleteManyOutput :=
  deleteWhere (includes_id ids).

Definition destroy : M unit := λ _, (Resolved (), []).

Definition exists' (id : Id) : M bool := λ es, (Resolved (Map_has id es), es).

Definition countAll : M nat := λ es, (Resolved (length es), es).


(** *** The vocabulary of the statements *)

(** The invariant of the map: no key twice, and every entry under its own
    id. *)
Definition well_keyed (es : Entries) : Prop :=
  NoDup (fst <$> es) ∧ Forall (λ kv, id_of kv.2 = Resolved kv.1) es.

(** A call that changes the entries. *)
Inductive call : Type :=
| Create (entry : T)
| Update (id : Id) (updater : T → gmap string Doc.value)
| Delete (id : Id)
| DeleteByIds (ids : list Id)
| DeleteWhere (predicate : T → bool)
| Destroy.

Definition after (c : call) (es : Entries) : Entries :=
  match c with
  | Create entry => (create entry es).2
  | Update id updater => (update id updater es).2
  | Delete id => (delete id es).2
  | DeleteByIds ids => (deleteByIds ids es).2
  | DeleteWhere predicate => (deleteWhere predicate es).2
  | Destroy => (destroy es).2
  end.

End MultiEntryMemDb.

(** singleEntryMemDb.ts *)
Module SingleEntryMemDb.

Definition T : Type := gmap string Doc.value.

(** The field [entry]: [null] is [None]. *)
Definition M (A : Type) : Type := option T → settled A * option T.

(** [new SingleEntryMemDb(initialEntry)] *)
Definition constructor (initialEntry : option T) : option T := initialEntry.

Definition isInited : M bool := λ entry,
  (Resolved (match entry with Some _ => true | None => false end), entry).

Definition read : M T := λ entry,
  match entry with
  | Some e => (Resolved e, entry)
  | None => (Rejected "Entry not initialized", entry)
  end.

(** [write(updaterOrEntry)]: an entry, or a function that gives the fields
    to change. *)
Definition write (updaterOrEntry : T + (T → gmap string Doc.value)) : M T := λ entry,
  match updaterOrEntry with
  | inr updater =>
      match entry with
      | None =>
          (Rejected "Cannot update uninitialized entry. Use write(entry) to initialize first.",
           entry)
      | Some e => let e' := spread e (updater e) in (Resolved e', Some e')
      end
  | inl e => (Resolved e, Some e)
  end.

Definition delete : M unit := λ _, (Resolved (), None).

End SingleEntryMemDb.

(** * Facts about documents as trees *)

Module DocFacts.
Import Doc.

(** ** Induction over a document *)

Lemma vsize_elem (xs : list value) (x : value) :
  x ∈ xs → (vsize x < vsize (VArr xs))%nat.
Proof.
  induction 1 as [x xs|x y xs _ IH]; simpl in *; lia.
Qed.

Lemma vsize_member (m : gmap string value) (k : string) (x : value) :
  m !! k = Some x → (vsize x < vsize (VObj m))%nat.
Proof.
  intros Hk. simpl.
  rewrite (map_fold_delete_L _ _ k x m); [lia | intros; lia | done].
Qed.

Lemma value_ind' (P : value → Prop) :
  P VUndefined → P VNull → (∀ b, P (VBool b)) → (∀ n, P (VNum n)) →
  (∀ s, P (VStr s)) →
  (∀ xs, Forall P xs → P (VArr xs)) →
  (∀ m, map_Forall (λ _, P) m → P (VObj m)) →
  ∀ v, P v.
Proof.
  intros HU HN HB HZ HS HA HO v.
  induction (Nat.lt_wf_0_projected vsize v) as [v _ IH].
  destruct v; auto.
  - apply HA, Forall_forall. intros x Hx. apply IH, vsize_elem, Hx.
  - apply HO. intros k x Hk. apply IH, (vsize_member _ k), Hk.
Qed.

Lemma structuredClone_id (v : value) : structuredClone v = v.
Proof.
  induction v as [| | | | |xs IH|m IH] using value_ind'; try done.
  - change (VArr (structuredClone <$> xs) = VArr xs). f_equal.
    induction IH as [|x xs Hx _ IHxs]; csimpl; [done|]. by rewrite Hx, IHxs.
  - change (VObj (structuredClone <$> m) = VObj m). f_equal. apply map_eq. intros k. rewrite lookup_fmap.
    destruct (m !! k) as [x|] eqn:Hk; simpl; [|done].
    f_equal. by apply (IH k).
Qed.

(** ** [_areEquals] decides equality of documents *)

Lemma fold_all_true {A} (p : string → A → bool) (m : gmap string A) :
  map_fold (λ k x acc, acc && p k x) true m = true ↔ map_Forall (λ k x, p k x = true) m.
Proof.
  apply (map_fold_weak_ind
    (λ b m, b = true ↔ map_Forall (λ k x, p k x = true) m)).
  - split; [intros _; apply map_Forall_empty | done].
  - intros k x m' b Hk IH. rewrite andb_true_iff, IH, map_Forall_insert by done. tauto.
Qed.




(** ** Pointers and their segments *)

Lemma split_slash_nonempty (s : string) : split_slash s ≠ [].
Proof.
  destruct s as [|a s]; cbn [split_slash]; [done|].
  case_decide; [done|]. by destruct (split_slash s).
Qed.

Lemma split_slash_no_slash (s : string) : has_char slash s = false → split_slash s = [s].
Proof.
  induction s as [|a s IH]; cbn [has_char split_slash]; [done|].
  intros [Ha Hs]%orb_false_iff. apply bool_decide_eq_false in Ha.
  rewrite decide_False by done. by rewrite IH.
Qed.

Lemma split_slash_app (p q : string) :
  split_slash (p +:+ String slash q) = split_slash p ++ split_slash q.
Proof.
  induction p as [|a p IH].
  - change ("" +:+ String slash q) with (String slash q).
    cbn [split_slash]. by rewrite decide_True.
  - change (String a p +:+ String slash q) with (String a (p +:+ String slash q)).
    cbn [split_slash]. case_decide; [by rewrite IH|].
    rewrite IH. pose proof (split_slash_nonempty p). by destruct (split_slash p).
Qed.

Lemma split_slash_child (pp seg : string) :
  has_char slash seg = false → split_slash (child pp seg) = split_slash pp ++ [seg].
Proof. intros Hs. unfold child. by rewrite split_slash_app, (split_slash_no_slash seg). Qed.

Lemma split_slash_pointer (pp : string) :
  pointer_ok pp = true → pp ≠ "" →
  ∃ seg rest, split_slash pp = "" :: seg :: rest.
Proof.
  destruct pp as [|a pp]; [done|]. cbn [pointer_ok split_slash].
  intros ->%bool_decide_eq_true _. rewrite decide_True by done.
  pose proof (split_slash_nonempty pp). destruct (split_slash pp) as [|seg rest]; [done|]. eauto.
Qed.

Lemma child_nonempty (pp seg : string) : child pp seg ≠ "".
Proof. by destruct pp. Qed.

Lemma plain_key_no_slash seg : plain_key seg = true → has_char slash seg = false.
Proof. unfold plain_key. rewrite !andb_true_iff, !negb_true_iff. tauto. Qed.

Lemma plain_key_unescape seg : plain_key seg = true → unescape_key seg = seg.
Proof.
  unfold plain_key, unescape_key. rewrite !andb_true_iff, !negb_true_iff.
  intros [[[_ ->] _] _]. done.
Qed.

Lemma plain_key_not_inherited seg : plain_key seg = true → inherited seg = false.
Proof. unfold plain_key. rewrite !andb_true_iff, !negb_true_iff. tauto. Qed.

Lemma plain_key_not_banned seg prev : plain_key seg = true → banned seg prev = false.
Proof.
  unfold plain_key, banned. rewrite !andb_true_iff, !negb_true_iff.
  intros [[_ Hp] Hi]. rewrite Hp. simpl. rewrite orb_false_r.
  apply bool_decide_eq_false. intros ->. by vm_compute in Hi.
Qed.

(** ** Members that exist *)

Lemma getprop_slot obj k c : getprop obj k = Ret c → c ≠ VUndefined → slot obj k c.
Proof.
  destruct obj as [| |b0|n0|s0|xs|m], k as [s|i]; simpl; try done.
  - unfold arr_get. destruct (0 <=? i) eqn:Hi; [|by intros [= <-]].
    destruct (xs !! Z.to_nat i) as [x|] eqn:Hx; simpl; [|by intros [= <-]].
    intros [= <-] _. constructor; [lia|done].
  - destruct (m !! s) as [x|] eqn:Hx.
    + intros [= <-] _. by constructor.
    + destruct (inherited s); [done|]. by intros [= <-].
Qed.

Lemma slot_getprop obj k c : slot obj k c → getprop obj k = Ret c.
Proof.
  destruct 1 as [m s c Hs|xs i c Hi Hx]; simpl.
  - by rewrite Hs.
  - unfold arr_get. rewrite (proj2 (Z.leb_le 0 i)) by done. by rewrite Hx.
Qed.

Lemma slot_setchild obj k c x : slot obj k c → slot (setchild obj k x) k x.
Proof.
  destruct 1 as [m s c Hs|xs i c Hi Hx]; simpl; constructor; try done.
  - apply lookup_insert_eq.
  - apply list_lookup_insert_eq. by apply lookup_lt_Some in Hx.
Qed.

Lemma slot_setchild_same obj k c : slot obj k c → setchild obj k c = obj.
Proof.
  destruct 1 as [m s c Hs|xs i c Hi Hx]; simpl; f_equal.
  - by apply insert_id.
  - by apply list_insert_id.
Qed.

Lemma setchild_setchild obj k x y : setchild (setchild obj k x) k y = setchild obj k y.
Proof.
  destruct obj as [| |b0|n0|s0|xs|m], k as [s|i]; simpl; try done; f_equal.
  - apply list_insert_insert_eq.
  - apply insert_insert_eq.
Qed.

Lemma resolve_key_setchild obj k x seg :
  resolve_key (setchild obj k x) seg = resolve_key obj seg.
Proof.
  destruct obj as [| |b0|n0|s0|xs|m], k as [s|i]; simpl; try done.
  by rewrite length_insert.
Qed.

Lemma slot_replace obj k c x :
  slot obj k c → ops_replace x obj k = Ret (Some (setchild obj k x), c).
Proof.
  destruct 1 as [m s c Hs|xs i c Hi Hx]; simpl.
  - by rewrite Hs.
  - rewrite (proj2 (Z.leb_le 0 i)) by done. unfold arr_set, arr_get.
    rewrite decide_True by (by apply lookup_lt_Some in Hx).
    rewrite (proj2 (Z.leb_le 0 i)) by done. by rewrite Hx.
Qed.

(** ** The loop of applyOperation *)

(** A traversal whose entry only reads leaves the document as it is. *)
Lemma walk_reads (f : leaf) :
  (∀ obj k w r, f obj k = Ret (w, r) → w = None) →
  ∀ rest prev seg obj w r, walk f prev seg rest obj = Ret (w, r) → w = None.
Proof.
  intros Hf rest. induction rest as [|seg' rest IH]; intros prev seg obj w r; simpl.
  - destruct (banned _ _); [done|]. destruct (resolve_key _ _) as [k| |]; simpl; try done.
    apply Hf.
  - destruct (banned _ _); [done|]. destruct (resolve_key _ _) as [k| |]; simpl; try done.
    destruct (getprop obj k) as [c| |]; simpl; try done.
    destruct (walk f seg seg' rest c) as [[w' r']| |] eqn:Hw; simpl; try done.
    apply IH in Hw as ->. by intros [= <- <-].
Qed.

Lemma ops_get_reads obj k w r : ops_get obj k = Ret (w, r) → w = None.
Proof. unfold ops_get. destruct (getprop obj k); simpl; try done. by intros [= <- _]. Qed.

Lemma ops_test_reads v obj k w r : ops_test v obj k = Ret (w, r) → w = None.
Proof.
  unfold ops_test. destruct (getprop obj k) as [x| |]; simpl; try done.
  destruct (_areEquals x v); [|done]. by intros [= <- _].
Qed.

Lemma walk_get_defined prev seg rest obj r :
  walk ops_get prev seg rest obj = Ret r → obj ≠ VUndefined.
Proof.
  intros Hw ->. destruct rest; simpl in Hw; destruct (banned _ _); done.
Qed.

Lemma walk_lens rest : ∀ prev seg obj c,
  walk ops_get prev seg rest obj = Ret (None, c) → c ≠ VUndefined →
  ∃ plug, plug c = obj ∧ lens prev seg rest plug.
Proof.
  induction rest as [|seg' rest IH]; intros prev seg obj c Hget Hc.
  - simpl in Hget. destruct (banned _ _) eqn:Hban; [done|].
    destruct (resolve_key obj _) as [k| |] eqn:Hk; simpl in Hget; try done.
    unfold ops_get in Hget. destruct (getprop obj k) as [c'| |] eqn:Hp; simplify_eq/=.
    pose proof (getprop_slot _ _ _ Hp Hc) as Hslot.
    exists (setchild obj k). split; [by apply slot_setchild_same|].
    assert (Hs : ∀ x, slot (setchild obj k x) k x) by (intros; by eapply slot_setchild).
    repeat split.
    + intros x. simpl. rewrite Hban, resolve_key_setchild, Hk. simpl.
      unfold ops_get. by rewrite (slot_getprop _ _ _ (Hs x)).
    + intros x y. simpl. rewrite Hban, resolve_key_setchild, Hk. simpl.
      by rewrite (slot_replace _ _ _ y (Hs x)), setchild_setchild.
    + intros f x lseg. simpl. rewrite Hban, resolve_key_setchild, Hk. simpl.
      rewrite (slot_getprop _ _ _ (Hs x)). simpl.
      destruct (banned (unescape_key lseg) seg); [done|].
      destruct (resolve_key x _) as [kx| |]; simpl; try done.
      destruct (f x kx) as [[[w|] r]| |]; simpl; try done. by rewrite setchild_setchild.
  - simpl in Hget. destruct (banned _ _) eqn:Hban; [done|].
    destruct (resolve_key obj _) as [k| |] eqn:Hk; simpl in Hget; try done.
    destruct (getprop obj k) as [ch| |] eqn:Hp; simpl in Hget; try done.
    destruct (walk ops_get seg seg' rest ch) as [[w r]| |] eqn:Hw; simplify_eq/=.
    pose proof (walk_get_defined _ _ _ _ _ Hw) as Hch.
    pose proof (walk_reads _ ops_get_reads _ _ _ _ _ _ Hw) as ->.
    destruct (IH _ _ _ _ Hw Hc) as (plug & Hplug & Hg & Hr & Hf).
    pose proof (getprop_slot _ _ _ Hp Hch) as Hslot.
    exists (λ x, setchild obj k (plug x)). split; [by rewrite Hplug; apply slot_setchild_same|].
    assert (Hs : ∀ x, slot (setchild obj k x) k x) by (intros; by eapply slot_setchild).
    repeat split.
    + intros x. simpl. rewrite Hban, resolve_key_setchild, Hk. simpl.
      rewrite (slot_getprop _ _ _ (Hs _)). simpl. by rewrite Hg.
    + intros x y. simpl. rewrite Hban, resolve_key_setchild, Hk. simpl.
      rewrite (slot_getprop _ _ _ (Hs _)). simpl. rewrite Hr. simpl.
      by rewrite setchild_setchild.
    + intros f x lseg.
      change (List.last (seg :: seg' :: rest) "") with (List.last (seg' :: rest) "").
      pose proof (Hf f x lseg) as Hfx. revert Hfx.
      generalize (walk f (List.last (seg' :: rest) "") lseg [] x). intros W Hfx.
      simpl. rewrite Hban, resolve_key_setchild, Hk. simpl.
      rewrite (slot_getprop _ _ _ (Hs _)). simpl. rewrite Hfx.
      destruct W as [[[w|] r']| |]; simpl; try done.
      by rewrite setchild_setchild.
Qed.

(** ** Pointers as lenses *)

Lemma bind_option_map_id (m : outcome (option value * value)) :
  m = '(w, r) ← m; Ret (option_map (λ x : value, x) w, r).
Proof. by destruct m as [[[w|] r]| |]. Qed.

Lemma split_slash_empty (pp : string) k0 seg rest :
  split_slash pp = k0 :: seg :: rest → pp ≠ "".
Proof. by intros H ->. Qed.

Lemma getValueByPointer_walk D pp k0 seg rest :
  split_slash pp = k0 :: seg :: rest →
  getValueByPointer D pp = '(_, r) ← walk ops_get k0 seg rest D; Ret r.
Proof.
  intros Hs. unfold getValueByPointer, apply_get, below_root, walk_path.
  rewrite !decide_False by (by eapply split_slash_empty). rewrite Hs.
  by destruct (walk ops_get k0 seg rest D) as [[w r]| |]; simpl.
Qed.

Lemma apply_replace_walk D pp y k0 seg rest :
  split_slash pp = k0 :: seg :: rest →
  apply_replace D pp y =
  '(w, r) ← walk (ops_replace y) k0 seg rest D; Ret (mkResult (default D w) r VUndefined).
Proof.
  intros Hs. unfold apply_replace, below_root, walk_path.
  rewrite decide_False by (by eapply split_slash_empty). by rewrite Hs.
Qed.

Lemma pointer_focus (D : value) (pp : string) (c : value) :
  getValueByPointer D pp = Ret c → c ≠ VUndefined →
  ∃ plug, plug c = D ∧ focus pp plug.
Proof.
  destruct (decide (pp = "")) as [->|Hpp].
  - intros [= ->] _. exists (λ x, x). split; [done|]. repeat split.
    intros _ f x lseg Hl. unfold walk_path, child, last_seg.
    change (split_slash ("" +:+ String slash lseg)) with ("" :: split_slash lseg).
    change (List.last (split_slash "") "") with "".
    rewrite (split_slash_no_slash _ Hl). apply bind_option_map_id.
  - destruct (split_slash pp) as [|k0 [|seg rest]] eqn:Hsplit.
    + by destruct (split_slash_nonempty pp).
    + unfold getValueByPointer, apply_get, below_root, walk_path.
      rewrite !decide_False, Hsplit by done.
      intros Hget Hc. assert (Hslot : slot D (KStr "undefined") c).
      { apply getprop_slot; [|done]. unfold ops_get in Hget.
        destruct D; try done; destruct (getprop _ _); by simplify_eq/=. }
      exists (setchild D (KStr "undefined")). split; [by apply slot_setchild_same|].
      inversion Hslot as [m s c' Hm|]; subst. repeat split.
      * intros x. unfold getValueByPointer, apply_get, below_root, walk_path, ops_get.
        rewrite !decide_False, Hsplit by done. simpl. by rewrite lookup_insert_eq.
      * intros x y. unfold apply_replace, below_root, walk_path.
        rewrite decide_False, Hsplit by done. simpl.
        by rewrite lookup_insert_eq, insert_insert_eq.
      * intros Hok. destruct (split_slash_pointer pp Hok Hpp) as (? & ? & ?). congruence.
    + rewrite (getValueByPointer_walk _ _ _ _ _ Hsplit). intros Hget Hc.
      destruct (walk ops_get k0 seg rest D) as [[w r]| |] eqn:Hw; simplify_eq/=.
      pose proof (walk_reads _ ops_get_reads _ _ _ _ _ _ Hw) as ->.
      destruct (walk_lens _ _ _ _ _ Hw Hc) as (plug & Hplug & Hg & Hr & Hf).
      exists plug. split; [done|]. repeat split.
      * intros x. by rewrite (getValueByPointer_walk _ _ _ _ _ Hsplit), Hg.
      * intros x y. by rewrite (apply_replace_walk _ _ _ _ _ _ Hsplit), Hr.
      * intros _ f x lseg Hl. unfold walk_path, last_seg.
        rewrite (split_slash_child _ _ Hl), Hsplit. apply Hf.
Qed.

(** ** The patcher, one operation at a time *)

Lemma patch_eq D P : patch D P = patch_loop D P.
Proof. unfold patch. by rewrite structuredClone_id. Qed.

Lemma bind_ret {A} (m : outcome A) : (x ← m; Ret x) = m.
Proof. by destruct m. Qed.

Lemma patch_one D op : patch D [op] = patch_step D op.
Proof. rewrite patch_eq. simpl. apply bind_ret. Qed.

Lemma patch_cons D op P :
  patch D (op :: P) = D' ← patch_step D op; patch D' P.
Proof.
  rewrite patch_eq. simpl. destruct (patch_step D op); simpl; try done. by rewrite patch_eq.
Qed.

Lemma applyPatch_one D op :
  applyPatch D [op] = r ← applyOperation D op; Ret (newDocument r).
Proof. done. Qed.

(** What [patch] does with a string-valued add. *)
Lemma patch_step_string_add D p v :
  patch_step D (AddOperation p (VStr v)) =
  targetValue ← getValueByPointer D p;
  r ← apply_replace D p (match targetValue with
                         | VStr t => VStr (t +:+ v)
                         | _ => VStr v
                         end);
  Ret (newDocument r).
Proof. done. Qed.

(** A string add on a document in focus: the focus receives the string,
    appended to what it holds if that is a string. *)
Lemma string_add_in_focus pp plug x v :
  focus pp plug →
  patch (plug x) [AddOperation pp (VStr v)] =
  Ret (plug (match x with VStr t => VStr (t +:+ v) | _ => VStr v end)).
Proof.
  intros (Hg & Hr & _). rewrite patch_one, patch_step_string_add, Hg. simpl.
  by rewrite Hr.
Qed.

(** ** Operations on a member of an object or of an array *)

Lemma plain_walk_last f prev seg c :
  plain_key seg = true →
  walk f prev seg [] c = k ← resolve_key c seg; f c k.
Proof.
  intros Hp. simpl. by rewrite (plain_key_unescape _ Hp), (plain_key_not_banned _ _ Hp).
Qed.

(** An entry applied to the member [seg] of the object in focus. *)
Lemma object_member f pp plug m seg :
  focus pp plug → pointer_ok pp = true → plain_key seg = true →
  walk_path f (plug (VObj m)) (child pp seg) =
  '(w, r) ← f (VObj m) (KStr seg); Ret (option_map plug w, r).
Proof.
  intros (_ & _ & Hf) Hok Hp.
  rewrite (Hf Hok f (VObj m) seg (plain_key_no_slash _ Hp)).
  by rewrite (plain_walk_last _ _ _ _ Hp).
Qed.

Lemma getValueByPointer_child D pp seg :
  getValueByPointer D (child pp seg) = '(_, r) ← walk_path ops_get D (child pp seg); Ret r.
Proof.
  unfold getValueByPointer, apply_get, below_root.
  rewrite !decide_False by apply child_nonempty.
  by destruct (walk_path ops_get D (child pp seg)) as [[w r]| |].
Qed.

Lemma apply_replace_child D pp seg y :
  apply_replace D (child pp seg) y =
  '(w, r) ← walk_path (ops_replace y) D (child pp seg);
  Ret (mkResult (default D w) r VUndefined).
Proof. unfold apply_replace. by rewrite decide_False by apply child_nonempty. Qed.

Lemma apply_add_child D pp seg y :
  apply_add D (child pp seg) y =
  '(w, r) ← walk_path (ops_add y) D (child pp seg);
  Ret (mkResult (default D w) r VUndefined).
Proof. unfold apply_add. by rewrite decide_False by apply child_nonempty. Qed.

Lemma apply_remove_child D pp seg :
  apply_remove D (child pp seg) =
  '(w, r) ← walk_path ops_remove D (child pp seg);
  Ret (mkResult (default D w) r VUndefined).
Proof. unfold apply_remove. by rewrite decide_False by apply child_nonempty. Qed.

(** Reading, replacing, adding and removing the member [seg] of the object
    [m] in focus. *)
Lemma get_member pp plug m seg :
  focus pp plug → pointer_ok pp = true → plain_key seg = true →
  getValueByPointer (plug (VObj m)) (child pp seg) = Ret (default VUndefined (m !! seg)).
Proof.
  intros Hfoc Hok Hp.
  rewrite getValueByPointer_child, (object_member _ _ _ _ _ Hfoc Hok Hp).
  unfold ops_get. simpl. rewrite (plain_key_not_inherited _ Hp).
  by destruct (m !! seg).
Qed.

Lemma replace_member pp plug m seg y :
  focus pp plug → pointer_ok pp = true → plain_key seg = true →
  apply_replace (plug (VObj m)) (child pp seg) y =
  Ret (mkResult (plug (VObj (<[seg := y]> m))) (default VUndefined (m !! seg)) VUndefined).
Proof.
  intros Hfoc Hok Hp.
  rewrite apply_replace_child, (object_member _ _ _ _ _ Hfoc Hok Hp).
  simpl. rewrite (plain_key_not_inherited _ Hp). by destruct (m !! seg).
Qed.

Lemma add_member pp plug m seg y :
  focus pp plug → pointer_ok pp = true → plain_key seg = true →
  apply_add (plug (VObj m)) (child pp seg) y =
  Ret (mkResult (plug (VObj (<[seg := y]> m))) VUndefined VUndefined).
Proof.
  intros Hfoc Hok Hp.
  by rewrite apply_add_child, (object_member _ _ _ _ _ Hfoc Hok Hp).
Qed.

Lemma remove_member pp plug m seg :
  focus pp plug → pointer_ok pp = true → plain_key seg = true →
  apply_remove (plug (VObj m)) (child pp seg) =
  Ret (mkResult (plug (VObj (delete seg m))) (default VUndefined (m !! seg)) VUndefined).
Proof.
  intros Hfoc Hok Hp.
  rewrite apply_remove_child, (object_member _ _ _ _ _ Hfoc Hok Hp).
  simpl. rewrite (plain_key_not_inherited _ Hp). by destruct (m !! seg).
Qed.

Lemma visit_member pp plug m seg :
  focus pp plug → pointer_ok pp = true → plain_key seg = true →
  walk_path ops_none (plug (VObj m)) (child pp seg) = Ret (None, VUndefined).
Proof. intros Hfoc Hok Hp. by rewrite (object_member _ _ _ _ _ Hfoc Hok Hp). Qed.

(** ** Members of an array *)

Lemma isInteger_has_char c seg :
  is_digit c = false → isInteger seg = true → has_char c seg = false.
Proof.
  intros Hc. induction seg as [|a seg IH]; simpl; [done|].
  intros [Ha Hs]%andb_true_iff. rewrite IH by done. rewrite orb_false_r.
  apply bool_decide_eq_false. intros ->. congruence.
Qed.

Lemma isInteger_walk_last f prev seg c :
  isInteger seg = true →
  walk f prev seg [] c = k ← resolve_key c seg; f c k.
Proof.
  intros Hi. simpl. unfold unescape_key.
  rewrite (isInteger_has_char tilde seg) by done.
  assert (banned seg prev = false) as ->; [|done].
  unfold banned. apply orb_false_iff. split.
  - apply bool_decide_eq_false. intros ->. by vm_compute in Hi.
  - apply andb_false_iff. left. apply bool_decide_eq_false. intros ->. by vm_compute in Hi.
Qed.

Lemma array_key_index len seg n :
  isInteger seg = true → decimal seg = Z.of_nat n → Z.of_nat n < 2 ^ 31 →
  array_key len seg = Ret (KNum (Z.of_nat n)).
Proof.
  intros Hi Hd Hn. unfold array_key.
  rewrite decide_False by (intros ->; by vm_compute in Hi).
  rewrite Hi, Hd. rewrite (proj2 (Z.ltb_lt _ _)) by lia.
  unfold to_int32. do 2 f_equal. rewrite Z.mod_small; lia.
Qed.

(** An entry applied to the element [n] of the array in focus. *)
Lemma array_member f pp plug xs seg n :
  focus pp plug → pointer_ok pp = true →
  isInteger seg = true → decimal seg = Z.of_nat n → Z.of_nat n < 2 ^ 31 →
  walk_path f (plug (VArr xs)) (child pp seg) =
  '(w, r) ← f (VArr xs) (KNum (Z.of_nat n)); Ret (option_map plug w, r).
Proof.
  intros (_ & _ & Hf) Hok Hi Hd Hn.
  rewrite (Hf Hok f (VArr xs) seg (isInteger_has_char slash seg eq_refl Hi)).
  rewrite (isInteger_walk_last _ _ _ _ Hi). simpl.
  by rewrite (array_key_index _ _ _ Hi Hd Hn).
Qed.

Lemma splice_insert_at (xs : list value) (n : nat) v :
  (n ≤ length xs)%nat →
  splice_insert xs (Z.of_nat n) v = take n xs ++ v :: drop n xs.
Proof.
  intros Hn. unfold splice_insert, splice_start.
  rewrite (proj2 (Z.ltb_ge _ _)) by lia. rewrite Nat2Z.id. by rewrite Nat.min_l.
Qed.

Lemma arr_get_at (xs : list value) (n : nat) :
  arr_get VUndefined xs (Z.of_nat n) = default VUndefined (xs !! n).
Proof. unfold arr_get. rewrite (proj2 (Z.leb_le _ _)) by lia. by rewrite Nat2Z.id. Qed.

Lemma arr_set_lookup (xs : list value) (n : nat) v :
  arr_set VUndefined xs n v !! n = Some v.
Proof.
  unfold arr_set. case_decide.
  - by apply list_lookup_insert_eq.
  - rewrite lookup_app_r by lia. rewrite lookup_app_r by (rewrite length_replicate; lia).
    rewrite length_replicate. by replace (n - length xs - (n - length xs))%nat with 0%nat by lia.
Qed.

Lemma get_element pp plug xs seg n :
  focus pp plug → pointer_ok pp = true →
  isInteger seg = true → decimal seg = Z.of_nat n → Z.of_nat n < 2 ^ 31 →
  getValueByPointer (plug (VArr xs)) (child pp seg) = Ret (default VUndefined (xs !! n)).
Proof.
  intros Hfoc Hok Hi Hd Hn.
  rewrite getValueByPointer_child, (array_member _ _ _ _ _ _ Hfoc Hok Hi Hd Hn).
  unfold ops_get. simpl. by rewrite arr_get_at.
Qed.

Lemma patch_step_other D op :
  (∀ p s, op ≠ AddOperation p (VStr s)) →
  patch_step D op = r ← applyOperation D op; Ret (newDocument r).
Proof.
  intros Hop. destruct op as [p v| | | | | |]; try done.
  destruct v; try done. by destruct (Hop p s).
Qed.

(** A string add at the index [n] of the array in focus assigns to the
    element [n]: the string, appended to the element if that is a string. *)
Lemma string_add_element pp plug xs seg n s :
  focus pp plug → pointer_ok pp = true →
  isInteger seg = true → decimal seg = Z.of_nat n → Z.of_nat n < 2 ^ 31 →
  patch (plug (VArr xs)) [AddOperation (child pp seg) (VStr s)] =
  Ret (plug (VArr (arr_set VUndefined xs n
         (match default VUndefined (xs !! n) with
          | VStr t => VStr (t +:+ s)
          | _ => VStr s
          end)))).
Proof.
  intros Hfoc Hok Hi Hd Hn.
  rewrite patch_one, patch_step_string_add, (get_element _ _ _ _ _ Hfoc Hok Hi Hd Hn).
  simpl. rewrite apply_replace_child.
  rewrite (array_member _ _ _ _ _ _ Hfoc Hok Hi Hd Hn). simpl.
  rewrite (proj2 (Z.leb_le _ _)) by lia. simpl. by rewrite Nat2Z.id.
Qed.

(** ** The test entry *)




(** ** The claims about documents *)

(** C1 (as amended).  A string-valued add at a pointer that reads a string
    [s] leaves [s] followed by the value there.  It leaves the value itself
    at a pointer that reads a value that is not a string, and at a member of
    an existing object or an index of an existing array where no string is
    (the member may be absent, the index beyond the end).  When the pointer
    cannot be followed (reading it throws), the call throws the same error
    and nothing is written. *)
Theorem string_add_override (D : value) (p v : string) :
  (∀ s, getValueByPointer D p = Ret (VStr s) →
        ∃ D', patch D [AddOperation p (VStr v)] = Ret D'
              ∧ getValueByPointer D' p = Ret (VStr (s +:+ v)))
  ∧ (∀ w, getValueByPointer D p = Ret w → is_string w = false → w ≠ VUndefined →
          ∃ D', patch D [AddOperation p (VStr v)] = Ret D'
                ∧ getValueByPointer D' p = Ret (VStr v))
  ∧ (∀ pp seg m, p = child pp seg → pointer_ok pp = true → plain_key seg = true →
          getValueByPointer D pp = Ret (VObj m) →
          is_string (default VUndefined (m !! seg)) = false →
          ∃ D', patch D [AddOperation p (VStr v)] = Ret D'
                ∧ getValueByPointer D' p = Ret (VStr v)
                ∧ getValueByPointer D' pp = Ret (VObj (<[seg := VStr v]> m)))
  ∧ (∀ pp seg xs n, p = child pp seg → pointer_ok pp = true →
          isInteger seg = true → decimal seg = Z.of_nat n → Z.of_nat n < 2 ^ 31 →
          getValueByPointer D pp = Ret (VArr xs) →
          is_string (default VUndefined (xs !! n)) = false →
          ∃ D', patch D [AddOperation p (VStr v)] = Ret D'
                ∧ getValueByPointer D' p = Ret (VStr v)
                ∧ getValueByPointer D' pp = Ret (VArr (arr_set VUndefined xs n (VStr v))))
  ∧ (∀ e, getValueByPointer D p = Throw e →
          patch D [AddOperation p (VStr v)] = Throw e).
Proof.
  split; [|split; [|split; [|split]]].
  - intros s Hget.
    destruct (pointer_focus _ _ _ Hget) as (plug & <- & Hfoc); [done|].
    exists (plug (VStr (s +:+ v))). split.
    + by rewrite (string_add_in_focus _ _ _ _ Hfoc).
    + apply Hfoc.
  - intros w Hget Hw Hdef.
    destruct (pointer_focus _ _ _ Hget Hdef) as (plug & <- & Hfoc).
    exists (plug (VStr v)). split.
    + rewrite (string_add_in_focus _ _ _ _ Hfoc). by destruct w.
    + apply Hfoc.
  - intros pp seg m -> Hok Hplain Hget Hm.
    destruct (pointer_focus _ _ _ Hget) as (plug & <- & Hfoc); [done|].
    exists (plug (VObj (<[seg := VStr v]> m))). split; [|split].
    + rewrite patch_one, patch_step_string_add, (get_member _ _ _ _ Hfoc Hok Hplain).
      simpl. rewrite (replace_member _ _ _ _ _ Hfoc Hok Hplain). simpl.
      by destruct (default VUndefined (m !! seg)).
    + rewrite (get_member _ _ _ _ Hfoc Hok Hplain). by rewrite lookup_insert_eq.
    + apply Hfoc.
  - intros pp seg xs n -> Hok Hi Hd Hn Hget Hx.
    destruct (pointer_focus _ _ _ Hget) as (plug & <- & Hfoc); [done|].
    exists (plug (VArr (arr_set VUndefined xs n (VStr v)))). split; [|split].
    + rewrite (string_add_element _ _ _ _ _ _ Hfoc Hok Hi Hd Hn).
      by destruct (default VUndefined (xs !! n)).
    + rewrite (get_element _ _ _ _ _ Hfoc Hok Hi Hd Hn). by rewrite arr_set_lookup.
    + apply Hfoc.
  - intros e Hget. by rewrite patch_one, patch_step_string_add, Hget.
Qed.

(** C1 as stated fails where the pointer does not resolve because its
    parent is missing: nothing is written, the call throws. *)
Lemma string_add_needs_parent :
  getValueByPointer (object []) "/a/b" = Throw TypeError_nullish
  ∧ patch (object []) [AddOperation "/a/b" (VStr "x")] = Throw TypeError_nullish
  ∧ ∀ D', patch (object []) [AddOperation "/a/b" (VStr "x")] ≠ Ret D'.
Proof. split; [by vm_compute|]. split; [by vm_compute|]. intros D'. by vm_compute. Qed.

Lemma string_add_override_witness :
  (∃ D', patch (object [("text", VStr "hello")]) [AddOperation "/text" (VStr " world")] = Ret D'
         ∧ getValueByPointer D' "/text" = Ret (VStr "hello world"))
  ∧ (∃ D', patch (object [("count", VNum 5)]) [AddOperation "/count" (VStr "more")] = Ret D'
           ∧ getValueByPointer D' "/count" = Ret (VStr "more"))
  ∧ (∃ D', patch (object [("name", VStr "John")]) [AddOperation "/email" (VStr "j@x")] = Ret D'
           ∧ getValueByPointer D' "/email" = Ret (VStr "j@x")
           ∧ getValueByPointer D' ""
             = Ret (VObj (<["email" := VStr "j@x"]> (list_to_map [("name", VStr "John")]))))
  ∧ (∃ D', patch (VArr [VNum 1]) [AddOperation "/3" (VStr "x")] = Ret D'
           ∧ getValueByPointer D' "/3" = Ret (VStr "x")
           ∧ getValueByPointer D' ""
             = Ret (VArr [VNum 1; VUndefined; VUndefined; VStr "x"]))
  ∧ patch (object []) [AddOperation "/a/b" (VStr "x")] = Throw TypeError_nullish.
Proof.
  split; [|split; [|split; [|split]]].
  - apply (proj1 (string_add_override (object [("text", VStr "hello")]) "/text" " world")
             "hello").
    vm_compute. reflexivity.
  - apply (proj1 (proj2 (string_add_override (object [("count", VNum 5)]) "/count" "more"))
             (VNum 5)).
    + vm_compute. reflexivity.
    + reflexivity.
    + discriminate.
  - apply (proj1 (proj2 (proj2
             (string_add_override (object [("name", VStr "John")]) "/email" "j@x")))
             "" "email" (list_to_map [("name", VStr "John")])).
    + reflexivity.
    + reflexivity.
    + vm_compute. reflexivity.
    + reflexivity.
    + vm_compute. reflexivity.
  - apply (proj1 (proj2 (proj2 (proj2
             (string_add_override (VArr [VNum 1]) "/3" "x"))))
             "" "3" [VNum 1] 3%nat).
    + reflexivity.
    + reflexivity.
    + reflexivity.
    + reflexivity.
    + reflexivity.
    + reflexivity.
    + reflexivity.
  - apply (proj2 (proj2 (proj2 (proj2 (string_add_override (object []) "/a/b" "x"))))).
    vm_compute. reflexivity.
Defined.

(** C3.  [safePatch] never throws, in either embedding: whatever [patch]
    does, the result is a [PatchResult], [Success] with the data when
    [patch] returns and [Failure] with the error when [patch] throws. *)
Theorem safePatch_never_throws (D : value) (P : list (JsonPatchOperation value)) :
  (∀ e, safePatch D P ≠ Throw e)
  ∧ (∀ d, patch D P = Ret d → safePatch D P = Ret (Success d))
  ∧ (∀ e, patch D P = Throw e → safePatch D P = Ret (Failure e))
  ∧ (∀ h D' P' e, (Store.safePatch D' P' h).1 ≠ Throw e).
Proof.
  unfold safePatch. split; [|split; [|split]].
  - intros e. by destruct (patch D P).
  - by intros d ->.
  - by intros e ->.
  - intros h D' P' e. unfold Store.safePatch.
    by destruct (Store.patch D' P' h) as [[d|e'|] h'].
Qed.

Lemma safePatch_never_throws_witness :
  safePatch (object [("name", VStr "John")]) [TestOperation "/name" (VStr "Jane")]
  = Ret (Failure TEST_OPERATION_FAILED)
  ∧ safePatch (object [("name", VStr "John")]) [TestOperation "/name" (VStr "John")]
    = Ret (Success (object [("name", VStr "John")])).
Proof.
  split.
  - apply (proj1 (proj2 (proj2 (safePatch_never_throws (object [("name", VStr "John")])
                                   [TestOperation "/name" (VStr "Jane")])))).
    vm_compute. reflexivity.
  - apply (proj1 (proj2 (safePatch_never_throws (object [("name", VStr "John")])
                            [TestOperation "/name" (VStr "John")]))).
    vm_compute. reflexivity.
Defined.

(** C4.  String adds compose from left to right: the test of
    patcher.test.ts, and any list of string adds on a pointer that reads a
    string, each appending to what the ones before it left. *)
Theorem string_adds_compose :
  patch (object [("text", VStr "a")])
        [AddOperation "/text" (VStr "b"); AddOperation "/text" (VStr "c");
         AddOperation "/text" (VStr "de")]
  = Ret (object [("text", VStr "abcde")])
  ∧ ∀ (D : value) (p s : string) (vs : list string),
      getValueByPointer D p = Ret (VStr s) →
      ∃ D', patch D ((λ v, AddOperation p (VStr v)) <$> vs) = Ret D'
            ∧ getValueByPointer D' p = Ret (VStr (foldl String.append s vs)).
Proof.
  split; [by vm_compute|].
  intros D p s vs Hget.
  destruct (pointer_focus _ _ _ Hget) as (plug & <- & Hfoc); [done|].
  clear Hget. revert s. induction vs as [|v vs IH]; intros s.
  - exists (plug (VStr s)). split; [by rewrite patch_eq|apply Hfoc].
  - destruct (IH (s +:+ v)) as (D' & HP & HD'). exists D'. split; [|done].
    rewrite fmap_cons, patch_cons, <- patch_one.
    by rewrite (string_add_in_focus _ _ _ _ Hfoc).
Qed.

Lemma string_adds_compose_witness :
  ∃ D', patch (object [("message", VStr "Hello")])
              ((λ v, AddOperation "/message" (VStr v)) <$> [" beautiful"; " world"; "!"])
        = Ret D'
        ∧ getValueByPointer D' "/message"
          = Ret (VStr (foldl String.append "Hello" [" beautiful"; " world"; "!"])).
Proof.
  apply (proj2 string_adds_compose (object [("message", VStr "Hello")]) "/message" "Hello").
  vm_compute. reflexivity.
Defined.

(** C5.  Where the code departs from the claim: with validation off,
    removing or replacing an absent member of an existing object succeeds.
    The two inputs are those of patcher.test.ts ('preserves original object
    on error', 'returns error result for invalid patch'), which expect a
    failure; the last two parts are the general facts. *)
Theorem missing_member_succeeds :
  safePatch (object [("name", VStr "John")]) [RemoveOperation "/nonexistent"]
  = Ret (Success (object [("name", VStr "John")]))
  ∧ safePatch (object [("name", VStr "John")]) [ReplaceOperation "/nonexistent" (VStr "test")]
    = Ret (Success (object [("name", VStr "John"); ("nonexistent", VStr "test")]))
  ∧ (∀ D pp seg m,
      pointer_ok pp = true → plain_key seg = true →
      getValueByPointer D pp = Ret (VObj m) → m !! seg = None →
      patch D [RemoveOperation (child pp seg)] = Ret D)
  ∧ (∀ D pp seg m v,
      pointer_ok pp = true → plain_key seg = true →
      getValueByPointer D pp = Ret (VObj m) → m !! seg = None → is_string v = false →
      ∃ D', patch D [ReplaceOperation (child pp seg) v] = Ret D'
            ∧ getValueByPointer D' pp = Ret (VObj (<[seg := v]> m))).
Proof.
  split; [by vm_compute|]. split; [by vm_compute|]. split.
  - intros D pp seg m Hok Hplain Hget Hm.
    destruct (pointer_focus _ _ _ Hget) as (plug & <- & Hfoc); [done|].
    rewrite patch_one, patch_step_other by done. simpl.
    rewrite (remove_member _ _ _ _ Hfoc Hok Hplain). simpl.
    by rewrite delete_id.
  - intros D pp seg m v Hok Hplain Hget Hm Hv.
    destruct (pointer_focus _ _ _ Hget) as (plug & <- & Hfoc); [done|].
    exists (plug (VObj (<[seg := v]> m))). split; [|apply Hfoc].
    rewrite patch_one, patch_step_other by done. simpl.
    by rewrite (replace_member _ _ _ _ _ Hfoc Hok Hplain).
Qed.

Lemma missing_member_succeeds_witness :
  patch (object [("user", object [("name", VStr "John")])]) [RemoveOperation (child "/user" "age")]
  = Ret (object [("user", object [("name", VStr "John")])]).
Proof.
  apply (proj1 (proj2 (proj2 missing_member_succeeds))
           (object [("user", object [("name", VStr "John")])]) "/user" "age"
           (list_to_map [("name", VStr "John")])).
  - reflexivity.
  - reflexivity.
  - vm_compute. reflexivity.
  - reflexivity.
Defined.









(** C10.  The [_get] tag goes to the library like any operation that is
    not a string add (also when it carries a string), and where its pointer
    can be read the document comes back as it was. *)
Theorem get_operation_is_noop (D : value) (p : string) (x w : value) :
  getValueByPointer D p = Ret w →
  patch_step D (GetOperation p x) = applyPatch D [GetOperation p x]
  ∧ patch D [GetOperation p x] = Ret D
  ∧ safePatch D [GetOperation p x] = Ret (Success D).
Proof.
  intros Hget. split; [done|].
  assert (Hpatch : patch D [GetOperation p x] = Ret D).
  { rewrite patch_one, patch_step_other by done. simpl.
    revert Hget. unfold getValueByPointer, apply_get.
    destruct (decide (p = "")) as [->|Hp]; [done|].
    unfold below_root.
    destruct (walk_path ops_get D p) as [[wr r]| |] eqn:Hw; simpl; try done.
    assert (wr = None) as ->; [|done].
    revert Hw. unfold walk_path. destruct (split_slash p) as [|k0 [|seg rest]].
    - destruct D; try done; apply ops_get_reads.
    - destruct D; try done; apply ops_get_reads.
    - apply walk_reads, ops_get_reads. }
  split; [done|]. unfold safePatch. by rewrite Hpatch.
Qed.

Lemma get_operation_is_noop_witness :
  patch_step (object [("name", VStr "John")]) (GetOperation "/name" (VStr "x"))
  = applyPatch (object [("name", VStr "John")]) [GetOperation "/name" (VStr "x")]
  ∧ patch (object [("name", VStr "John")]) [GetOperation "/name" (VStr "x")]
    = Ret (object [("name", VStr "John")])
  ∧ safePatch (object [("name", VStr "John")]) [GetOperation "/name" (VStr "x")]
    = Ret (Success (object [("name", VStr "John")])).
Proof.
  apply (get_operation_is_noop (object [("name", VStr "John")]) "/name" (VStr "x") (VStr "John")).
  vm_compute. reflexivity.
Defined.

End DocFacts.

(** * Facts about the store *)

Module StoreFacts.
Import Store.

(** ** What a call can write *)

Section frame.
(** [h0] is the store the call starts in and [T] a set of its objects:
    those an operation value can reach. *)
Variables (h0 : store) (T : list loc).

#[local] Abbreviation own := (Store.own h0 T).
#[local] Abbreviation ok_val := (Store.ok_val h0 T).
#[local] Abbreviation ok_cell := (Store.ok_cell h0 T).
#[local] Abbreviation inv := (Store.inv h0 T).
#[local] Abbreviation safe := (Store.safe h0 T).
#[local] Abbreviation safe_leaf := (Store.safe_leaf h0 T).
#[local] Abbreviation ok_result := (Store.ok_result h0 T).
#[local] Abbreviation ok_op := (Store.ok_op h0 T).

Lemma safe_ret {A} (a : A) (Q : A → Prop) : Q a → safe (ret a) Q.
Proof. intros HQ h Hh. split; [done|]. by intros a' [= <-]. Qed.

Lemma safe_throw {A} e (Q : A → Prop) : safe (throw e) Q.
Proof. intros h Hh. by split. Qed.

Lemma safe_out {A} (Q : A → Prop) : safe out_of_model Q.
Proof. intros h Hh. by split. Qed.

Lemma safe_bind {A B} (m : M A) (f : A → M B) (Q : A → Prop) (R : B → Prop) :
  safe m Q → (∀ a, Q a → safe (f a) R) → safe (m ≫= f) R.
Proof.
  intros Hm Hf h Hh. unfold mbind, M_bind, bind.
  destruct (Hm h Hh) as [Hinv HQ]. destruct (m h) as [[a|e|] h']; simpl in *; try done.
  by apply Hf; [apply HQ|].
Qed.

Lemma safe_weaken {A} (m : M A) (Q R : A → Prop) :
  safe m Q → (∀ a, Q a → R a) → safe m R.
Proof. intros Hm HQR h Hh. destruct (Hm h Hh). split; [done|]. auto. Qed.

Lemma safe_reads {A} (f : store → outcome A) (Q : A → Prop) :
  (∀ h a, inv h → f h = Ret a → Q a) → safe (reads f) Q.
Proof. intros Hf h Hh. split; [done|]. intros a. by apply Hf. Qed.

Lemma safe_new c : ok_cell c → safe (new c) own.
Proof.
  intros Hc h (Hlen & Hframe & Hclosed). split.
  - change ((new c h).2) with (h ++ [c]).
    split; [rewrite length_app; lia|]. split.
    + intros l Hl HT. rewrite lookup_app_l by lia. by apply Hframe.
    + intros l c' Hown Hl. destruct (decide (l < length h)%nat).
      * rewrite lookup_app_l in Hl by done. by eapply Hclosed.
      * rewrite lookup_app_r in Hl by lia.
        apply list_lookup_singleton_Some in Hl as [_ <-]. done.
  - intros l [= <-]. right. lia.
Qed.

Lemma safe_set_cell l c : own l → ok_cell c → safe (set_cell l c) (λ _, True).
Proof.
  intros Hl Hc h (Hlen & Hframe & Hclosed). split; [|done].
  change ((set_cell l c h).2) with (<[l := c]> h).
  split; [by rewrite length_insert|]. split.
  - intros l' Hl' HT. rewrite list_lookup_insert_ne; [by apply Hframe|].
    intros ->. destruct Hl; [done|lia].
  - intros l' c' Hown Hl'. destruct (decide (l = l')) as [->|Hne].
    + destruct (decide (l' < length h)%nat).
      * rewrite list_lookup_insert_eq in Hl' by done. by simplify_eq.
      * rewrite list_insert_ge in Hl' by lia. by eapply Hclosed.
    + rewrite list_lookup_insert_ne in Hl' by done. by eapply Hclosed.
Qed.

Lemma safe_on_cell {A} obj (f : loc → cell → M A) (Q : A → Prop) :
  ok_val obj → (∀ l c, own l → ok_cell c → safe (f l c) Q) → safe (on_cell obj f) Q.
Proof.
  intros Hobj Hf h Hh. unfold on_cell. destruct obj as [| | | | |l]; try done.
  destruct (h !! l) as [c|] eqn:Hl; [|done].
  apply Hf; [done| |done]. destruct Hh as (_ & _ & Hclosed). by eapply Hclosed.
Qed.

Lemma getprop_ok h obj k v :
  inv h → ok_val obj → getprop h obj k = Ret v → ok_val v.
Proof.
  intros (_ & _ & Hclosed) Hobj. destruct obj as [| | | | |l]; try done. simpl.
  destruct (h !! l) as [[xs|m]|] eqn:Hl; try done;
    pose proof (Hclosed _ _ Hobj Hl) as Hc; destruct k as [s|i]; try done.
  - intros [= <-]. unfold arr_get. destruct (0 <=? i); [|done].
    destruct (xs !! Z.to_nat i) as [x|] eqn:Hx; [|done].
    simpl. by eapply (Forall_lookup_1 _ _ _ _ Hc).
  - destruct (m !! s) as [x|] eqn:Hx.
    + intros [= <-]. by eapply Hc.
    + destruct (inherited s); [done|]. by intros [= <-].
Qed.
(** *** The entries *)

Lemma safe_getprop obj k :
  ok_val obj → safe (reads (λ h, getprop h obj k)) ok_val.
Proof. intros Hobj. apply safe_reads. intros h a Hh. by apply getprop_ok. Qed.

Lemma ops_add_safe v : ok_val v → safe_leaf (ops_add v).
Proof.
  intros Hv obj k Hobj. apply safe_on_cell; [done|]. intros l c Hl Hc.
  destruct c as [xs|m], k as [s|i]; try apply safe_out.
  - eapply safe_bind; [apply safe_set_cell; [done|]|intros; by apply safe_ret].
    simpl in *. unfold splice_insert.
    apply Forall_app. split; [by apply Forall_take|].
    apply Forall_cons. split; [done|by apply Forall_drop].
  - eapply safe_bind; [apply safe_set_cell; [done|]|intros; by apply safe_ret].
    simpl in *. by apply map_Forall_insert_2.
Qed.

Lemma ops_remove_safe : safe_leaf ops_remove.
Proof.
  intros obj k Hobj. apply safe_on_cell; [done|]. intros l c Hl Hc.
  destruct c as [xs|m], k as [s|i]; try apply safe_out.
  - unfold splice_remove.
    eapply safe_bind; [apply safe_set_cell; [done|]|intros; apply safe_ret].
    + simpl in *. apply Forall_app. split; [by apply Forall_take|by apply Forall_drop].
    + simpl in *. destruct (xs !! _) as [x|] eqn:Hx; [|done].
      simpl. by eapply (Forall_lookup_1 _ _ _ _ Hc).
  - eapply safe_bind; [by apply safe_getprop|]. intros r Hr.
    eapply safe_bind; [apply safe_set_cell; [done|]|intros; by apply safe_ret].
    simpl in *. by apply map_Forall_delete.
Qed.

Lemma ops_replace_safe v : ok_val v → safe_leaf (ops_replace v).
Proof.
  intros Hv obj k Hobj. apply safe_on_cell; [done|]. intros l c Hl Hc.
  destruct c as [xs|m], k as [s|i]; try apply safe_out.
  - destruct (0 <=? i); [|apply safe_out].
    eapply safe_bind; [apply safe_set_cell; [done|]|intros; apply safe_ret].
    + simpl in *. unfold arr_set. case_decide.
      * by apply Forall_insert.
      * apply Forall_app. split; [done|]. apply Forall_app. split.
        -- by apply Forall_replicate.
        -- by apply Forall_singleton.
    + simpl in *. unfold arr_get. destruct (0 <=? i); [|done].
      destruct (xs !! _) as [x|] eqn:Hx; [|done].
      simpl. by eapply (Forall_lookup_1 _ _ _ _ Hc).
  - eapply safe_bind; [by apply safe_getprop|]. intros r Hr.
    eapply safe_bind; [apply safe_set_cell; [done|]|intros; by apply safe_ret].
    simpl in *. by apply map_Forall_insert_2.
Qed.

Lemma ops_test_safe v : safe_leaf (ops_test v).
Proof.
  intros obj k Hobj. unfold ops_test.
  eapply safe_bind; [by apply safe_getprop|]. intros w Hw.
  eapply (safe_bind _ _ (λ _, True)); [by apply safe_reads|]. intros [] _.
  - by apply safe_ret.
  - apply safe_throw.
Qed.

Lemma ops_get_safe : safe_leaf ops_get.
Proof. intros obj k Hobj. by apply safe_getprop. Qed.

Lemma ops_none_safe : safe_leaf ops_none.
Proof. intros obj k Hobj. by apply safe_ret. Qed.

(** *** applyOperation *)

Lemma walk_safe f : safe_leaf f →
  ∀ rest prev seg obj, ok_val obj → safe (walk f prev seg rest obj) ok_val.
Proof.
  intros Hf rest. induction rest as [|seg' rest IH]; intros prev seg obj Hobj; simpl.
  - destruct (banned _ _); [apply safe_throw|].
    eapply (safe_bind _ _ (λ _, True)); [by apply safe_reads|]. intros k _. by apply Hf.
  - destruct (banned _ _); [apply safe_throw|].
    eapply (safe_bind _ _ (λ _, True)); [by apply safe_reads|]. intros k _.
    eapply safe_bind; [by apply safe_getprop|]. intros child Hchild. by apply IH.
Qed.

Lemma walk_path_safe f document path :
  safe_leaf f → ok_val document → safe (walk_path f document path) ok_val.
Proof.
  intros Hf Hd. unfold walk_path.
  destruct (split_slash path) as [|k0 [|seg rest]]; try by apply walk_safe.
  - eapply (safe_bind _ _ (λ _, True)); [by apply safe_reads|]. intros [] _.
    + apply safe_throw.
    + by apply Hf.
  - eapply (safe_bind _ _ (λ _, True)); [by apply safe_reads|]. intros [] _.
    + apply safe_throw.
    + by apply Hf.
Qed.

Lemma below_root_safe f document path (g : val → OperationResult) :
  safe_leaf f → ok_val document → (∀ r, ok_val r → ok_result (g r)) →
  safe (r ← walk_path f document path; ret (g r)) ok_result.
Proof.
  intros Hf Hd Hg. eapply safe_bind; [by apply walk_path_safe|].
  intros r Hr. apply safe_ret. by apply Hg.
Qed.

Lemma apply_add_safe document path v :
  ok_val document → ok_val v → safe (apply_add document path v) ok_result.
Proof.
  intros Hd Hv. unfold apply_add. case_decide; [by apply safe_ret|].
  apply below_root_safe; [by apply ops_add_safe|done|]. by intros r Hr.
Qed.

Lemma apply_remove_safe document path :
  ok_val document → safe (apply_remove document path) ok_result.
Proof.
  intros Hd. unfold apply_remove. case_decide; [by apply safe_ret|].
  apply below_root_safe; [apply ops_remove_safe|done|]. by intros r Hr.
Qed.

Lemma apply_replace_safe document path v :
  ok_val document → ok_val v → safe (apply_replace document path v) ok_result.
Proof.
  intros Hd Hv. unfold apply_replace. case_decide; [by apply safe_ret|].
  apply below_root_safe; [by apply ops_replace_safe|done|]. by intros r Hr.
Qed.

Lemma apply_test_safe document path v :
  ok_val document → safe (apply_test document path v) ok_result.
Proof.
  intros Hd. unfold apply_test. case_decide.
  - eapply (safe_bind _ _ (λ _, True)); [by apply safe_reads|]. intros [] _.
    + by apply safe_ret.
    + apply safe_throw.
  - apply below_root_safe; [apply ops_test_safe|done|]. by intros r Hr.
Qed.

Lemma apply_get_safe document path :
  ok_val document → safe (apply_get document path) ok_result.
Proof.
  intros Hd. unfold apply_get. case_decide; [by apply safe_ret|].
  apply below_root_safe; [apply ops_get_safe|done|]. by intros r Hr.
Qed.

Lemma getValueByPointer_safe document pointer :
  ok_val document → safe (getValueByPointer document pointer) ok_val.
Proof.
  intros Hd. unfold getValueByPointer. case_decide; [by apply safe_ret|].
  eapply safe_bind; [by apply apply_get_safe|]. intros r (_ & _ & Hr). by apply safe_ret.
Qed.

(** *** New objects *)

Lemma build_safe t : safe (build t) ok_val.
Proof.
  induction t as [| | | | |ts IH|tm IH] using DocFacts.value_ind';
    try (by apply safe_ret).
  - change (build (Doc.VArr ts)) with
      (xs ← foldr (λ t acc, xs ← acc; x ← build t; ret (x :: xs)) (ret []) ts;
       l ← new (CArr xs); ret (VRef l)).
    eapply (safe_bind _ _ (Forall ok_val)).
    + induction IH as [|t ts Ht _ IHts]; simpl; [by apply safe_ret|].
      eapply safe_bind; [apply IHts|]. intros xs Hxs.
      eapply safe_bind; [apply Ht|]. intros x Hx. apply safe_ret. by constructor.
    + intros xs Hxs. eapply safe_bind; [by apply safe_new|].
      intros l Hl. by apply safe_ret.
  - change (build (Doc.VObj tm)) with
      (m ← map_fold (λ k t acc, m ← acc; x ← build t; ret (<[k := x]> m)) (ret ∅) tm;
       l ← new (CObj m); ret (VRef l)).
    eapply (safe_bind _ _ (map_Forall (λ _, ok_val))).
    + revert IH.
      apply (map_fold_weak_ind (λ r (tm : gmap string Doc.value),
               map_Forall (λ _ t, safe (build t) ok_val) tm →
               safe r (map_Forall (λ _, ok_val)))).
      * intros _. apply safe_ret. apply map_Forall_empty.
      * intros k t tm' r Hk IHr Hall.
        apply map_Forall_insert in Hall as [Ht Hall]; [|done].
        eapply safe_bind; [by apply IHr|]. intros m Hm.
        eapply safe_bind; [apply Ht|]. intros x Hx. apply safe_ret.
        by apply map_Forall_insert_2.
    + intros m Hm. eapply safe_bind; [by apply safe_new|].
      intros l Hl. by apply safe_ret.
Qed.

Lemma _deepClone_safe obj : ok_val obj → safe (_deepClone obj) ok_val.
Proof.
  intros Hobj h Hh. unfold _deepClone.
  destruct obj as [| | | | |l]; try (split; [done|by intros a [= <-]]).
  destruct (snapshot h (VRef l)) as [[t ls]| |]; try done.
  by apply build_safe.
Qed.

Lemma structuredClone_safe v : safe (structuredClone v) ok_val.
Proof.
  intros h Hh. unfold structuredClone.
  destruct (snapshot h v) as [[t ls]| |]; try done.
  case_bool_decide; [|done]. by apply build_safe.
Qed.

(** *** move, copy and the patch *)

Lemma ops_move_safe document path from :
  ok_val document → safe (ops_move document path from) ok_result.
Proof.
  intros Hd. unfold ops_move.
  eapply safe_bind; [by apply getValueByPointer_safe|]. intros removed0 H0.
  eapply (safe_bind _ _ ok_val).
  { destruct (truthy removed0); [by apply _deepClone_safe|by apply safe_ret]. }
  intros removed1 H1.
  eapply safe_bind; [by apply apply_remove_safe|]. intros r1 (_ & Hr1 & _).
  eapply safe_bind; [by apply apply_add_safe|]. intros _ _. by apply safe_ret.
Qed.

Lemma ops_copy_safe document path from :
  ok_val document → safe (ops_copy document path from) ok_result.
Proof.
  intros Hd. unfold ops_copy.
  eapply safe_bind; [by apply getValueByPointer_safe|]. intros v Hv.
  eapply safe_bind; [by apply _deepClone_safe|]. intros c Hc.
  eapply safe_bind; [by apply apply_add_safe|]. intros _ _. by apply safe_ret.
Qed.

Lemma apply_move_safe document path from :
  ok_val document → safe (apply_move document path from) ok_result.
Proof.
  intros Hd. unfold apply_move. case_decide.
  - eapply safe_bind; [by apply getValueByPointer_safe|]. intros d Hd'. by apply safe_ret.
  - eapply safe_bind; [apply walk_path_safe; [apply ops_none_safe|done]|].
    intros _ _. by apply ops_move_safe.
Qed.

Lemma apply_copy_safe document path from :
  ok_val document → safe (apply_copy document path from) ok_result.
Proof.
  intros Hd. unfold apply_copy. case_decide.
  - eapply safe_bind; [by apply getValueByPointer_safe|]. intros d Hd'. by apply safe_ret.
  - eapply safe_bind; [apply walk_path_safe; [apply ops_none_safe|done]|].
    intros _ _. by apply ops_copy_safe.
Qed.

Lemma applyOperation_safe document op :
  ok_val document → ok_op op → safe (applyOperation document op) ok_result.
Proof.
  intros Hd Hop. destruct op; simpl in *.
  - apply apply_add_safe; [done|]. by inversion Hop.
  - by apply apply_remove_safe.
  - apply apply_replace_safe; [done|]. by inversion Hop.
  - by apply apply_move_safe.
  - by apply apply_copy_safe.
  - by apply apply_test_safe.
  - by apply apply_get_safe.
Qed.

Lemma applyPatch_safe ops : Forall ok_op ops →
  ∀ document, ok_val document → safe (applyPatch document ops) ok_val.
Proof.
  induction 1 as [|op ops Hop _ IH]; intros document Hd; simpl.
  - by apply safe_ret.
  - eapply safe_bind; [by apply applyOperation_safe|]. intros r (Hr & _). by apply IH.
Qed.

Lemma patch_step_safe target op :
  ok_val target → ok_op op → safe (patch_step target op) ok_val.
Proof.
  intros Ht Hop.
  assert (Hother : safe (applyPatch target [op]) ok_val).
  { apply applyPatch_safe; [by constructor|done]. }
  destruct op as [p v| | | | | |]; try done. destruct v; try done.
  unfold patch_step. eapply safe_bind; [by apply getValueByPointer_safe|]. intros w Hw.
  apply applyPatch_safe; [|done]. constructor; [|done]. constructor; [|done].
  by destruct w.
Qed.

Lemma patch_loop_safe ops : Forall ok_op ops →
  ∀ target, ok_val target → safe (patch_loop target ops) ok_val.
Proof.
  induction 1 as [|op ops Hop _ IH]; intros target Ht; simpl.
  - by apply safe_ret.
  - eapply safe_bind; [by apply patch_step_safe|]. intros t' Ht'. by apply IH.
Qed.

Lemma patch_safe object ops : Forall ok_op ops → safe (patch object ops) ok_val.
Proof.
  intros Hops. unfold patch.
  eapply safe_bind; [apply structuredClone_safe|]. intros t Ht. by apply patch_loop_safe.
Qed.

End frame.

(** ** Regions of the store *)

Lemma cell_in_arr S xs : cell_in S (CArr xs) = true ↔ Forall (λ v, val_in S v = true) xs.
Proof. simpl. rewrite forallb_forall, Forall_forall. by setoid_rewrite list_elem_of_In. Qed.

Lemma cell_in_obj S m :
  cell_in S (CObj m) = true ↔ map_Forall (λ _ v, val_in S v = true) m.
Proof. apply (DocFacts.fold_all_true (λ _ v, val_in S v)). Qed.

Lemma region_lookup h S l :
  region h S = true → l ∈ S → ∃ c, h !! l = Some c ∧ cell_in S c = true.
Proof.
  unfold region. rewrite forallb_forall. intros Hr Hl%list_elem_of_In.
  specialize (Hr l Hl). destruct (h !! l) as [c|]; [eauto|done].
Qed.


Lemma safePatch_store D P h : (safePatch D P h).2 = (patch D P h).2.
Proof. unfold safePatch. by destruct (patch D P h) as [[d|e|] h']. Qed.

Lemma safePatch_result D P h :
  (safePatch D P h).1 =
  match (patch D P h).1 with
  | Ret d => Ret (Success d)
  | Throw e => Ret (Failure e)
  | OutOfModel => OutOfModel
  end.
Proof. unfold safePatch. by destruct (patch D P h) as [[d|e|] h']. Qed.



(** ** Unfoldings and new objects *)

Lemma all_elements_Ret {A} (os : list (outcome A)) (ts : list A) :
  all_elements os = Ret ts ↔ os = Ret <$> ts.
Proof.
  revert ts. induction os as [|o os IH]; intros ts; simpl.
  - split; [by intros [= <-]|]. by destruct ts.
  - destruct o as [a|e|]; destruct (all_elements os) as [l|e'|] eqn:Hos;
      (split; [try done|]).
    + intros [= <-]. csimpl. f_equal. by apply IH.
    + destruct ts as [|t ts]; [done|]. intros [= -> Hts%IH]. by simplify_eq.
    + destruct ts as [|t ts]; [done|]. intros [= -> Hts%IH]. done.
    + destruct ts as [|t ts]; [done|]. intros [= -> Hts%IH]. done.
    + by destruct ts.
    + by destruct ts.
    + by destruct ts.
    + by destruct ts.
    + by destruct ts.
    + by destruct ts.
Qed.

Lemma all_members_Ret {A} (mo : gmap string (outcome A)) :
  ∀ tm, all_members mo = Ret tm ↔ mo = Ret <$> tm.
Proof.
  unfold all_members.
  apply (map_fold_weak_ind (λ r (mo : gmap string (outcome A)),
           ∀ tm, r = Ret tm ↔ mo = Ret <$> tm)).
  - intros tm. split.
    + intros [= <-]. by rewrite fmap_empty.
    + intros Htm. symmetry in Htm. apply fmap_empty_inv in Htm. by subst.
  - intros k o m r Hk IH tm. split.
    + destruct o as [a|e|], r as [m'|e'|]; try done. intros [= <-].
      rewrite fmap_insert. f_equal. by apply IH.
    + intros Hm.
      assert (Hko : Ret <$> tm !! k = Some o).
      { rewrite <- lookup_fmap, <- Hm. apply lookup_insert_eq. }
      destruct (tm !! k) as [a|] eqn:Ha; simplify_eq/=.
      assert (Hr : r = Ret (delete k tm)).
      { apply IH. rewrite fmap_delete, <- Hm, delete_insert_eq. by rewrite delete_id. }
      rewrite Hr. by rewrite insert_delete_id.
Qed.

(** More depth and more objects do not change an unfolding. *)
Lemma unfold_mono fuel : ∀ fuel' h h' v r,
  unfold fuel h v = Ret r → (fuel ≤ fuel')%nat →
  (∀ l c, h !! l = Some c → h' !! l = Some c) →
  unfold fuel' h' v = Ret r.
Proof.
  induction fuel as [|fuel IH]; intros fuel' h h' v r Hu Hf Hh;
    destruct v as [| | | | |l]; try (by destruct fuel'); try done.
  destruct fuel' as [|fuel']; [lia|]. simpl in *.
  destruct (h !! l) as [[xs|m]|] eqn:Hl; try done; rewrite (Hh _ _ Hl).
  - destruct (all_elements (unfold fuel h <$> xs)) as [ts| |] eqn:Hts; try done.
    apply all_elements_Ret in Hts.
    assert (all_elements (unfold fuel' h' <$> xs) = Ret ts) as ->; [|done].
    apply all_elements_Ret. clear Hl Hu. revert ts Hts.
    induction xs as [|x xs IHxs]; intros [|t ts] Hts; simplify_eq/=; [done|].
    f_equal; [|by apply IHxs]. eapply IH; [done|lia|done].
  - destruct (all_members (unfold fuel h <$> m)) as [ts| |] eqn:Hts; try done.
    apply all_members_Ret in Hts.
    assert (all_members (unfold fuel' h' <$> m) = Ret ts) as ->; [|done].
    apply all_members_Ret. apply map_eq. intros k.
    apply (f_equal (λ m, m !! k)) in Hts. rewrite !lookup_fmap in *.
    destruct (m !! k) as [x|], (ts !! k) as [t|]; simplify_eq/=; try done.
    f_equal. eapply IH; [done|lia|done].
Qed.

Lemma lookup_app_Some_l {A} (h ext : list A) l c :
  h !! l = Some c → (h ++ ext) !! l = Some c.
Proof. intros Hl. rewrite lookup_app_l; [done|]. by apply lookup_lt_Some in Hl. Qed.

Lemma unfold_mono_list fuel fuel' h h' (xs : list val) ps :
  unfold fuel h <$> xs = Ret <$> ps → (fuel ≤ fuel')%nat →
  (∀ l c, h !! l = Some c → h' !! l = Some c) →
  unfold fuel' h' <$> xs = Ret <$> ps.
Proof.
  intros Hxs Hf Hh. revert ps Hxs.
  induction xs as [|x xs IH]; intros [|p ps] Hxs; simplify_eq/=; [done|].
  f_equal; [|by apply IH]. by eapply unfold_mono.
Qed.

Lemma unfold_mono_map fuel fuel' h h' (m : gmap string val) pm :
  unfold fuel h <$> m = Ret <$> pm → (fuel ≤ fuel')%nat →
  (∀ l c, h !! l = Some c → h' !! l = Some c) →
  unfold fuel' h' <$> m = Ret <$> pm.
Proof.
  intros Hm Hf Hh. apply map_eq. intros k.
  apply (f_equal (λ m, m !! k)) in Hm. rewrite !lookup_fmap in *.
  destruct (m !! k) as [x|], (pm !! k) as [p|]; simplify_eq/=; try done.
  f_equal. by eapply unfold_mono.
Qed.

Lemma fold_locs_Forall (Q : loc → Prop) (pm : gmap string (Doc.value * list loc)) :
  map_Forall (λ _ p, Forall Q p.2) pm →
  Forall Q (map_fold (λ _ t acc, t.2 ++ acc) [] pm).
Proof.
  apply (map_fold_weak_ind (λ r (pm : gmap string (Doc.value * list loc)),
           map_Forall (λ _ p, Forall Q p.2) pm → Forall Q r)).
  - done.
  - intros k p m r Hk IH Hall. apply map_Forall_insert in Hall as [Hp Hall]; [|done].
    apply Forall_app. split; [done|by apply IH].
Qed.

Lemma run_bind {A B} (m : M A) (f : A → M B) h a h' :
  m h = (Ret a, h') → (m ≫= f) h = f a h'.
Proof. intros Hm. unfold mbind, M_bind, bind. by rewrite Hm. Qed.

Lemma build_elements (ts : list Doc.value) :
  Forall builds ts →
  ∀ h, ∃ xs ext ps n,
    foldr (λ t acc, xs ← acc; x ← build t; ret (x :: xs)) (ret []) ts h = (Ret xs, h ++ ext)
    ∧ (n ≤ length ext)%nat
    ∧ unfold n (h ++ ext) <$> xs = Ret <$> ps
    ∧ fst <$> ps = ts
    ∧ Forall (λ p, Forall (λ l, (length h ≤ l)%nat) p.2) ps.
Proof.
  induction 1 as [|t ts Ht _ IH]; intros h.
  - exists [], [], [], 0%nat. by rewrite app_nil_r.
  - destruct (IH h) as (xs & ext1 & ps & n1 & Hrun & Hn1 & Hxs & Hps & Hfresh).
    destruct (Ht (h ++ ext1)) as (x & ext2 & ls & Hb & n2 & Hn2 & Hx & Hls).
    exists (x :: xs), (ext1 ++ ext2), ((t, ls) :: ps), (n1 `max` n2)%nat.
    split; [|split; [|split; [|split]]].
    + cbn [foldr]. rewrite (run_bind _ _ _ _ _ Hrun), (run_bind _ _ _ _ _ Hb).
      by rewrite app_assoc.
    + rewrite length_app. lia.
    + csimpl. rewrite app_assoc. f_equal.
      * eapply unfold_mono; [done|lia|done].
      * eapply unfold_mono_list; [done|lia|]. intros l c. apply lookup_app_Some_l.
    + csimpl. by rewrite Hps.
    + constructor; [|done]. simpl. eapply Forall_impl; [done|].
      intros l. simpl. rewrite length_app. lia.
Qed.

Lemma build_members (tm : gmap string Doc.value) :
  map_Forall (λ _, builds) tm →
  ∀ h, ∃ m ext pm n,
    map_fold (λ k t acc, m ← acc; x ← build t; ret (<[k := x]> m)) (ret ∅) tm h
    = (Ret m, h ++ ext)
    ∧ (n ≤ length ext)%nat
    ∧ unfold n (h ++ ext) <$> m = Ret <$> pm
    ∧ fst <$> pm = tm
    ∧ map_Forall (λ _ p, Forall (λ l, (length h ≤ l)%nat) p.2) pm.
Proof.
  apply (map_fold_weak_ind (λ (r : M (gmap string val)) (tm : gmap string Doc.value),
    map_Forall (λ _, builds) tm →
    ∀ h, ∃ m ext pm n,
      r h = (Ret m, h ++ ext)
      ∧ (n ≤ length ext)%nat
      ∧ unfold n (h ++ ext) <$> m = Ret <$> pm
      ∧ fst <$> pm = tm
      ∧ map_Forall (λ _ p, Forall (λ l, (length h ≤ l)%nat) p.2) pm)).
  - intros _ h. exists ∅, [], ∅, 0%nat. rewrite app_nil_r, !fmap_empty.
    repeat split; try done.
  - intros k t tm' r Hk IH Hall h.
    apply map_Forall_insert in Hall as [Ht Hall]; [|done].
    destruct (IH Hall h) as (m & ext1 & pm & n1 & Hrun & Hn1 & Hm & Hpm & Hfresh).
    destruct (Ht (h ++ ext1)) as (x & ext2 & ls & Hb & n2 & Hn2 & Hx & Hls).
    exists (<[k := x]> m), (ext1 ++ ext2), (<[k := (t, ls)]> pm), (n1 `max` n2)%nat.
    split; [|split; [|split; [|split]]].
    + rewrite (run_bind _ _ _ _ _ Hrun), (run_bind _ _ _ _ _ Hb). by rewrite app_assoc.
    + rewrite length_app. lia.
    + rewrite !fmap_insert, app_assoc. f_equal.
      * eapply unfold_mono; [done|lia|done].
      * eapply unfold_mono_map; [done|lia|]. intros l c. apply lookup_app_Some_l.
    + by rewrite fmap_insert, Hpm.
    + apply map_Forall_insert_2; [|done]. simpl. eapply Forall_impl; [done|].
      intros l. simpl. rewrite length_app. lia.
Qed.

Lemma build_spec t : builds t.
Proof.
  induction t as [| | | | |ts IH|tm IH] using DocFacts.value_ind';
    try (intros h; eexists _, [], []; rewrite app_nil_r; split; [done|];
         exists 0%nat; by repeat split).
  - intros h.
    destruct (build_elements ts IH h) as (xs & ext & ps & n & Hrun & Hn & Hxs & Hps & Hfresh).
    exists (VRef (length (h ++ ext))), (ext ++ [CArr xs]),
           (length (h ++ ext) :: concat (snd <$> ps)).
    split.
    + change (build (Doc.VArr ts)) with
        (xs ← foldr (λ t acc, xs ← acc; x ← build t; ret (x :: xs)) (ret []) ts;
         l ← new (CArr xs); ret (VRef l)).
      rewrite (run_bind _ _ _ _ _ Hrun). unfold mbind, M_bind, bind, new, ret.
      by rewrite app_assoc.
    + exists (S n). split; [rewrite length_app; simpl; lia|]. split.
      * simpl. rewrite app_assoc, list_lookup_middle by done.
        assert (all_elements (unfold n ((h ++ ext) ++ [CArr xs]) <$> xs) = Ret ps) as ->.
        { apply all_elements_Ret. eapply unfold_mono_list; [done|lia|].
          intros l c. apply lookup_app_Some_l. }
        simpl. by rewrite Hps.
      * constructor; [rewrite length_app; lia|]. apply Forall_concat.
        apply Forall_fmap. done.
  - intros h.
    destruct (build_members tm IH h) as (m & ext & pm & n & Hrun & Hn & Hm & Hpm & Hfresh).
    exists (VRef (length (h ++ ext))), (ext ++ [CObj m]),
           (length (h ++ ext) :: map_fold (λ _ t acc, t.2 ++ acc) [] pm).
    split.
    + change (build (Doc.VObj tm)) with
        (m ← map_fold (λ k t acc, m ← acc; x ← build t; ret (<[k := x]> m)) (ret ∅) tm;
         l ← new (CObj m); ret (VRef l)).
      rewrite (run_bind _ _ _ _ _ Hrun). unfold mbind, M_bind, bind, new, ret.
      by rewrite app_assoc.
    + exists (S n). split; [rewrite length_app; simpl; lia|]. split.
      * simpl. rewrite app_assoc, list_lookup_middle by done.
        assert (all_members (unfold n ((h ++ ext) ++ [CObj m]) <$> m) = Ret pm) as ->.
        { apply all_members_Ret. eapply unfold_mono_map; [done|lia|].
          intros l c. apply lookup_app_Some_l. }
        simpl. by rewrite Hpm.
      * constructor; [rewrite length_app; lia|]. by apply fold_locs_Forall.
Qed.

Lemma unfold_ref n h l t ls :
  unfold n h (VRef l) = Ret (t, ls) →
  (l < length h)%nat ∧ (∃ ls0, ls = l :: ls0)
  ∧ ((∃ ts, t = Doc.VArr ts) ∨ (∃ tm, t = Doc.VObj tm)).
Proof.
  destruct n as [|n]; [done|]. simpl.
  destruct (h !! l) as [[xs|m]|] eqn:Hl; [| |done]; apply lookup_lt_Some in Hl.
  - destruct (all_elements _); [|done..]. intros [= <- <-]. eauto 6.
  - destruct (all_members _); [|done..]. intros [= <- <-]. eauto 6.
Qed.

Lemma unfold_prim n h v t ls :
  unfold n h v = Ret (t, ls) → (∀ l, v ≠ VRef l) → t = prim v.
Proof.
  destruct v as [| | | | |l]; try (destruct n; by intros [= <- _]).
  intros _ Hv. by destruct (Hv l).
Qed.

(** C9.  On a document [D] (a value that unfolds to a tree [t] without
    meeting an object twice), [patch] with no operation returns a value
    that unfolds to the same tree [t], made of new objects only: when [D]
    is an object or array, the result is another reference.  [D] itself
    unfolds as before. *)
Theorem empty_patch_is_a_copy (h : store) (D : val) (t : Doc.value) (ls : list loc) :
  snapshot h D = Ret (t, ls) → NoDup ls →
  ∃ v ext ls',
    patch D [] h = (Ret v, h ++ ext)
    ∧ snapshot (h ++ ext) v = Ret (t, ls')
    ∧ look (h ++ ext) v = look h D
    ∧ Forall (λ l, (length h ≤ l)%nat) ls'
    ∧ (∀ l, D = VRef l → ∃ l', v = VRef l' ∧ l' ≠ l)
    ∧ snapshot (h ++ ext) D = Ret (t, ls).
Proof.
  intros Hsnap Hnodup.
  destruct (build_spec t h) as (v & ext & ls' & Hb & n & Hn & Hv & Hfresh).
  assert (Hv' : snapshot (h ++ ext) v = Ret (t, ls')).
  { unfold snapshot. eapply unfold_mono; [done| |done]. rewrite length_app. lia. }
  exists v, ext, ls'. split; [|split; [|split; [|split; [|split]]]]; try done.
  - unfold patch. rewrite (run_bind _ _ h v (h ++ ext)); [done|].
    unfold structuredClone. rewrite Hsnap. by rewrite bool_decide_eq_true_2.
  - unfold look. by rewrite Hv', Hsnap.
  - intros l ->. apply unfold_ref in Hsnap as (Hl & _ & Ht).
    destruct v as [| | | | |l'];
      try (apply unfold_prim in Hv; [|done]; destruct Ht as [[? ->]|[? ->]]; done).
    exists l'. split; [done|]. intros ->.
    apply unfold_ref in Hv as (_ & (ls0 & ->) & _).
    apply Forall_cons in Hfresh as [Hfresh _]. lia.
  - unfold snapshot in *. eapply unfold_mono; [done| |].
    + rewrite length_app. lia.
    + intros l c. apply lookup_app_Some_l.
Qed.

(** ** The claims at concrete inputs *)


Lemma empty_patch_is_a_copy_witness :
  let h := [CObj {["a" := VRef 1%nat]}; CArr [VNum 1]] in
  ∃ v ext ls',
    patch (VRef 0%nat) [] h = (Ret v, h ++ ext)
    ∧ snapshot (h ++ ext) v = Ret (Doc.object [("a", Doc.VArr [Doc.VNum 1])], ls')
    ∧ look (h ++ ext) v = look h (VRef 0%nat)
    ∧ Forall (λ l, (length h ≤ l)%nat) ls'
    ∧ (∀ l, VRef 0%nat = VRef l → ∃ l', v = VRef l' ∧ l' ≠ l)
    ∧ snapshot (h ++ ext) (VRef 0%nat)
      = Ret (Doc.object [("a", Doc.VArr [Doc.VNum 1])], [0%nat; 1%nat]).
Proof.
  intros h.
  apply (empty_patch_is_a_copy h (VRef 0%nat)
           (Doc.object [("a", Doc.VArr [Doc.VNum 1])]) [0%nat; 1%nat]).
  - vm_compute. reflexivity.
  - apply (bool_decide_eq_true_1 (NoDup [0%nat; 1%nat])). vm_compute. reflexivity.
Defined.

(** ** The two embeddings on the cases of patcher.test.ts *)

(** On the documents and patches of the repository's tests, [patch] in the
    store returns the document that [Doc.patch] computes. *)
Lemma embeddings_agree_on_tests :
  Forall (λ '(t, patches), patch_tree t patches = Doc.patch t patches)
    [ (Doc.object [("text", Doc.VStr "a")],
       [AddOperation "/text" (Doc.VStr "b"); AddOperation "/text" (Doc.VStr "c");
        AddOperation "/text" (Doc.VStr "de")]);
      (Doc.object [("name", Doc.VStr "John"); ("age", Doc.VNum 30)],
       [ReplaceOperation "/name" (Doc.VStr "Jane")]);
      (Doc.object [("name", Doc.VStr "John")], [AddOperation "/age" (Doc.VNum 30)]);
      (Doc.object [("name", Doc.VStr "John"); ("age", Doc.VNum 30)],
       [RemoveOperation "/age"]);
      (Doc.object [("oldName", Doc.VStr "John"); ("age", Doc.VNum 30)],
       [MoveOperation "/newName" "/oldName"]);
      (Doc.object [("name", Doc.VStr "John"); ("age", Doc.VNum 30)],
       [CopyOperation "/backup" "/name"]);
      (Doc.object [("name", Doc.VStr "John"); ("age", Doc.VNum 30)],
       [TestOperation "/name" (Doc.VStr "John")]);
      (Doc.object [("name", Doc.VStr "John")], [TestOperation "/name" (Doc.VStr "Jane")]);
      (Doc.object [("user", Doc.object [("name", Doc.VStr "John"); ("age", Doc.VNum 30)])],
       [ReplaceOperation "/user/name" (Doc.VStr "Jane")]);
      (Doc.object [("users", Doc.VArr [Doc.VStr "John"; Doc.VStr "Jane"])],
       [AddOperation "/users/2" (Doc.VStr "Bob")]);
      (Doc.object [("users", Doc.VArr
          [Doc.object [("name", Doc.VStr "John"); ("age", Doc.VNum 30)];
           Doc.object [("name", Doc.VStr "Jane"); ("age", Doc.VNum 25)]])],
       [ReplaceOperation "/users/0/age" (Doc.VNum 31);
        AddOperation "/users/1/email" (Doc.VStr "jane@example.com")]);
      (Doc.object [("name", Doc.VStr "John"); ("age", Doc.VNum 30)],
       [ReplaceOperation "/name" (Doc.VStr "Jane");
        AddOperation "/email" (Doc.VStr "jane@example.com"); RemoveOperation "/age"]);
      (Doc.object [("count", Doc.VNum 5)], [AddOperation "/count" (Doc.VStr "more")]);
      (Doc.object [("name", Doc.VStr "John")], []);
      (Doc.object [("name", Doc.VStr "John")],
       [AddOperation "/nullValue" Doc.VNull; AddOperation "/undefinedValue" Doc.VUndefined]);
      (Doc.object [("name", Doc.VStr "John")],
       [ReplaceOperation "/nonexistent" (Doc.VStr "test")]);
      (Doc.object [("name", Doc.VStr "John")], [RemoveOperation "/nonexistent"]);
      (Doc.object [("text", Doc.VStr "hello")], [AddOperation "/text" (Doc.VNum 123)]);
      (Doc.object [("items", Doc.VArr [Doc.VStr "a"; Doc.VStr "b"; Doc.VStr "c"])],
       [ReplaceOperation "/items/1" (Doc.VStr "modified")]);
      (Doc.object [("messages", Doc.VArr [Doc.VStr "Hello"; Doc.VStr "World"])],
       [AddOperation "/messages/0" (Doc.VStr " there"); AddOperation "/messages/1" (Doc.VStr "!")]);
      (Doc.object [("data", Doc.VStr "prefix")],
       [AddOperation "/data" (Doc.object [("nested", Doc.VStr "object")])]) ].
Proof. repeat constructor; by vm_compute. Qed.

End StoreFacts.

(** * Facts about the joiner *)

Module JoinerFacts.
Import Doc DocFacts JsonPathJoiner.

Lemma drop_slashes_head (s r : string) : drop_slashes s ≠ String slash r.
Proof.
  induction s as [|a s IH]; [done|]. simpl. case_decide; [done|]. congruence.
Qed.

Lemma drop_slashes_id (s : string) : (∀ r, s ≠ String slash r) → drop_slashes s = s.
Proof.
  destruct s as [|a s]; [done|]. intros Hs. simpl.
  rewrite decide_False; [done|]. intros ->. by destruct (Hs s).
Qed.

Lemma replace_leading_slashes_slash (s : string) :
  replace_leading_slashes (String slash s) = String slash (drop_slashes s).
Proof. unfold replace_leading_slashes. by rewrite decide_True. Qed.

Lemma join_eq (path : JsonPath) :
  join path =
  joinedPath ← match path with
               | Complete key => key_to_string key
               | Segments keys => ss ← mapM key_to_string keys; Ret (join_strings slash ss)
               end;
  Ret (String slash (drop_slashes joinedPath)).
Proof.
  unfold join. by destruct (match path with Complete _ => _ | Segments _ => _ end).
Qed.

Lemma join_shape (path : JsonPath) (p : string) :
  join path = Ret p → ∃ r, p = String slash r ∧ ∀ r', r ≠ String slash r'.
Proof.
  rewrite join_eq.
  destruct (match path with Complete _ => _ | Segments _ => _ end) as [j| |]; simpl; try done.
  intros [= <-]. exists (drop_slashes j). split; [done|]. intros r'. apply drop_slashes_head.
Qed.

Lemma join_again (path : JsonPath) (p : string) :
  join path = Ret p → join (Complete (KeyString p)) = Ret p.
Proof.
  intros (r & -> & Hr)%join_shape.
  rewrite join_eq. cbn [key_to_string mbind outcome_mbind outcome_bind drop_slashes].
  rewrite decide_True by done. by rewrite drop_slashes_id.
Qed.

Lemma join_one_slash (path : JsonPath) (p : string) : join path = Ret p → one_slash p = true.
Proof.
  intros (r & -> & Hr)%join_shape. destruct r as [|b r]; [done|].
  cbn [one_slash]. apply andb_true_iff. split; [by apply bool_decide_eq_true|].
  apply negb_true_iff, bool_decide_eq_false. intros ->. by destruct (Hr r).
Qed.

(** X1.  Whatever the path, the pointer [join] returns starts with one slash,
    and with one only: it is never the pointer to the whole document, and
    never a relative one.  [join] leaves such a pointer as it is: the
    builder, which joins again a path that the parser has joined, uses the
    same pointer. *)
Theorem join_normal_form (path : JsonPath) (p : string) :
  join path = Ret p →
  (∃ r, p = String slash r ∧ ∀ r', r ≠ String slash r')
  ∧ p ≠ "" ∧ pointer_ok p = true
  ∧ join (Complete (KeyString p)) = Ret p.
Proof.
  intros Hj. split; [by apply join_shape in Hj|].
  pose proof (join_again _ _ Hj) as Hagain.
  destruct (join_shape _ _ Hj) as (r & -> & Hr). by repeat split.
Qed.

Lemma join_normal_form_witness :
  (∃ r, "/a/b" = String slash r ∧ ∀ r', r ≠ String slash r')
  ∧ "/a/b" ≠ "" ∧ pointer_ok "/a/b" = true
  ∧ join (Complete (KeyString "/a/b")) = Ret "/a/b".
Proof.
  apply (join_normal_form (Segments [KeyString "//a"; KeyString "b"]) "/a/b").
  reflexivity.
Defined.

(** ** The digits of a number *)

Lemma pretty_N_char_digit (d : N) :
  (d < 10)%N →
  is_digit (pretty_N_char d) = true ∧ Z.of_N (N_of_ascii (pretty_N_char d)) - 48 = Z.of_N d.
Proof.
  intros Hd.
  assert (d = 0 ∨ d = 1 ∨ d = 2 ∨ d = 3 ∨ d = 4 ∨ d = 5 ∨ d = 6 ∨ d = 7 ∨ d = 8 ∨ d = 9)%N
    as Hcases by lia.
  repeat (destruct Hcases as [->|Hcases]; [by vm_compute|]). subst. by vm_compute.
Qed.

Lemma decimal_from_acc (s : string) : ∀ acc,
  decimal_from acc s = acc * 10 ^ Z.of_nat (String.length s) + decimal_from 0 s.
Proof.
  induction s as [|a s IH]; intros acc; cbn [decimal_from String.length].
  - change (10 ^ Z.of_nat 0) with 1. lia.
  - rewrite IH, (IH (10 * 0 + _)). rewrite Nat2Z.inj_succ, Z.pow_succ_r by lia. lia.
Qed.

Lemma pretty_N_go_digits (x : N) : ∀ s,
  isInteger s = true →
  isInteger (pretty_N_go x s) = true
  ∧ decimal (pretty_N_go x s) = Z.of_N x * 10 ^ Z.of_nat (String.length s) + decimal s.
Proof.
  induction (N.lt_wf_0 x) as [x _ IH]. intros s Hs.
  destruct (decide (x = 0%N)) as [->|Hx].
  - rewrite pretty_N_go_0. split; [done|]. lia.
  - rewrite pretty_N_go_step by lia.
    destruct (pretty_N_char_digit (x `mod` 10)) as [Hd Hv]; [by apply N.mod_upper_bound|].
    destruct (IH (x `div` 10)%N) with (s := String (pretty_N_char (x `mod` 10)) s)
      as [Hi Hdec].
    + apply N.div_lt; lia.
    + cbn [isInteger]. by rewrite Hd, Hs.
    + split; [done|]. rewrite Hdec. unfold decimal. cbn [decimal_from String.length].
      rewrite (decimal_from_acc s (10 * 0 + _)), Hv.
      rewrite Nat2Z.inj_succ, Z.pow_succ_r by lia.
      rewrite (N.div_mod x 10) at 3 by lia. rewrite N2Z.inj_add, N2Z.inj_mul.
      change (Z.of_N 10) with 10. lia.
Qed.

(** The decimal digits of a natural number are what the library reads as
    the index of an element. *)
Lemma pretty_index (n : Z) :
  0 ≤ n → isInteger (pretty n) = true ∧ decimal (pretty n) = n.
Proof.
  intros Hn. destruct n as [|x|x]; [done| |lia].
  unfold pretty, pretty_Z, pretty, pretty_positive, pretty, pretty_N.
  rewrite decide_False by done.
  destruct (pretty_N_go_digits (N.pos x) "" eq_refl) as [Hi Hd]. split; [done|].
  rewrite Hd. change (decimal "") with 0. change (10 ^ Z.of_nat (String.length "")) with 1.
  change (Z.of_N (N.pos x)) with (Z.pos x). lia.
Qed.

Lemma pretty_no_slash (n : Z) : has_char slash (pretty n) = false.
Proof.
  destruct n as [|x|x]; [done| |].
  - by apply isInteger_has_char, (pretty_index (Z.pos x)).
  - unfold pretty, pretty_Z.
    change ("-" +:+ pretty x) with (String "-" (pretty (Z.pos x))).
    cbn [has_char]. rewrite bool_decide_eq_false_2 by done.
    by apply isInteger_has_char, (pretty_index (Z.pos x)).
Qed.

Lemma pretty_nonempty (n : Z) : pretty n ≠ "".
Proof.
  destruct n as [|x|x]; [done| |done].
  intros Hp. pose proof (proj2 (pretty_index (Z.pos x) ltac:(lia))) as Hd.
  by rewrite Hp in Hd.
Qed.

(** ** The segments of a joined path *)

Lemma mapM_cons {A B} (f : A → outcome B) (x : A) (l : list A) :
  mapM f (x :: l) = y ← f x; k ← mapM f l; Ret (y :: k).
Proof. done. Qed.

Lemma key_to_string_no_slash (key : JsonKey) (s : string) :
  one_segment key = true → key_to_string key = Ret s → has_char slash s = false.
Proof.
  destruct key as [s'|n]; simpl.
  - intros Hs [= <-]. by apply negb_true_iff.
  - intros _. unfold number_to_string. case_match; [|done]. intros [= <-].
    apply pretty_no_slash.
Qed.

Lemma key_to_string_nonempty (key : JsonKey) (s : string) :
  key ≠ KeyString "" → key_to_string key = Ret s → s ≠ "".
Proof.
  destruct key as [s'|n]; simpl.
  - intros Hs [= <-]. congruence.
  - intros _. unfold number_to_string. case_match; [|done]. intros [= <-].
    apply pretty_nonempty.
Qed.

Lemma mapM_no_slash (keys : list JsonKey) : ∀ ss,
  Forall (λ k, one_segment k = true) keys → mapM key_to_string keys = Ret ss →
  Forall (λ s, has_char slash s = false) ss.
Proof.
  induction keys as [|key keys IH]; intros ss Hks.
  - by intros [= <-].
  - apply Forall_cons in Hks as [Hk Hks]. rewrite mapM_cons.
    destruct (key_to_string key) as [s| |] eqn:Hs; try done.
    destruct (mapM key_to_string keys) as [ss'| |]; try done. intros [= <-].
    constructor; [by eapply key_to_string_no_slash|by apply IH].
Qed.

Lemma split_join_strings (s : string) (ss : list string) :
  Forall (λ s, has_char slash s = false) (s :: ss) →
  split_slash (join_strings slash (s :: ss)) = s :: ss.
Proof.
  revert s. induction ss as [|s' ss IH]; intros s [Hs Hss]%Forall_cons.
  - by apply split_slash_no_slash.
  - change (join_strings slash (s :: s' :: ss))
      with (s +:+ String slash (join_strings slash (s' :: ss))).
    by rewrite split_slash_app, (split_slash_no_slash s), IH.
Qed.

Lemma append_cons (a : ascii) (s t : string) : String a s +:+ t = String a (s +:+ t).
Proof. done. Qed.

Lemma join_strings_head (s : string) (ss : list string) (r : string) :
  s ≠ "" → has_char slash s = false → join_strings slash (s :: ss) ≠ String slash r.
Proof.
  destruct s as [|a s]; [done|]. intros _. cbn [has_char].
  intros [Ha _]%orb_false_iff. apply bool_decide_eq_false in Ha.
  destruct ss as [|s' ss]; cbn [join_strings]; [congruence|].
  rewrite append_cons. congruence.
Qed.

Lemma split_joined (s : string) (ss : list string) :
  s ≠ "" → Forall (λ s, has_char slash s = false) (s :: ss) →
  split_slash (String slash (drop_slashes (join_strings slash (s :: ss)))) = "" :: s :: ss.
Proof.
  intros Hne Hno. rewrite drop_slashes_id.
  - cbn [split_slash]. rewrite decide_True by done. by rewrite split_join_strings.
  - intros r. apply join_strings_head; [done|]. by apply Forall_cons in Hno as [? _].
Qed.

(** X2.  A list of keys that starts with a key other than the empty string, and
    whose keys hold no slash, comes back from the joined pointer when the
    library splits it: one segment for each key, after the empty first
    segment. *)
Theorem join_then_split (key : JsonKey) (keys : list JsonKey) (p : string) :
  Forall (λ k, one_segment k = true) (key :: keys) → key ≠ KeyString "" →
  join (Segments (key :: keys)) = Ret p →
  ∃ ss, mapM key_to_string (key :: keys) = Ret ss ∧ split_slash p = "" :: ss.
Proof.
  intros Hks Hkey. rewrite join_eq.
  destruct (mapM key_to_string (key :: keys)) as [ss| |] eqn:Hss; try done.
  simpl. intros [= <-]. exists ss. split; [done|].
  pose proof (mapM_no_slash _ _ Hks Hss) as Hno.
  rewrite mapM_cons in Hss. destruct (key_to_string key) as [s| |] eqn:Hs; try done.
  destruct (mapM key_to_string keys) as [ss'| |]; try done. simpl in Hss.
  injection Hss as <-.
  apply split_joined; [|done]. by eapply key_to_string_nonempty.
Qed.

Lemma join_then_split_witness :
  ∃ ss, mapM key_to_string [KeyString "users"; KeyNumber 10; KeyString "name"] = Ret ss
        ∧ split_slash "/users/10/name" = "" :: ss.
Proof.
  apply (join_then_split (KeyString "users") [KeyNumber 10; KeyString "name"] "/users/10/name").
  - repeat constructor.
  - discriminate.
  - reflexivity.
Defined.

(** X3.  What the joiner does not keep: the slashes a complete path starts
    with, the empty keys a list starts with, and (there is no escaping) the
    difference between a slash inside a key and the slash between two keys.
    The empty list is the pointer to the member with the empty name, not to
    the document. *)
Theorem join_loses (s a b : string) (keys : list JsonKey) :
  join (Complete (KeyString (String slash s))) = join (Complete (KeyString s))
  ∧ join (Segments (KeyString "" :: keys)) = join (Segments keys)
  ∧ join (Segments [KeyString (a +:+ String slash b)])
    = join (Segments [KeyString a; KeyString b])
  ∧ join (Segments []) = Ret "/".
Proof.
  split; [|split; [|split]]; try done.
  rewrite !join_eq, mapM_cons. cbn [key_to_string mbind outcome_mbind outcome_bind].
  by destruct (mapM key_to_string keys) as [[|s' ss]| |].
Qed.

(** ** Reading a document through a joined path *)

Lemma direct_key_one_segment (key : JsonKey) :
  direct_key key = true → one_segment key = true.
Proof.
  destruct key as [s|n]; [|done]. simpl. intros Hs. by rewrite (plain_key_no_slash _ Hs).
Qed.

Lemma direct_key_to_string (key : JsonKey) :
  direct_key key = true → ∃ s, key_to_string key = Ret s.
Proof.
  destruct key as [s|n]; simpl; [eauto|].
  intros [Hn0%Z.leb_le Hn%Z.ltb_lt]%andb_true_iff. unfold number_to_string.
  rewrite (proj2 (Z.ltb_lt _ _)) by lia. eauto.
Qed.

Lemma direct_keys_to_strings (keys : list JsonKey) :
  Forall (λ k, direct_key k = true) keys → ∃ ss, mapM key_to_string keys = Ret ss.
Proof.
  induction keys as [|key keys IH]; [by eexists|].
  intros [Hk Hks]%Forall_cons. rewrite mapM_cons.
  destruct (direct_key_to_string _ Hk) as [s ->]. destruct (IH Hks) as [ss ->]. by eexists.
Qed.

(** One turn of the loop of applyOperation on a direct key. *)
Lemma direct_key_step (D x : value) (key : JsonKey) (s prev : string) :
  direct_key key = true → key_to_string key = Ret s → member D key = Some x →
  banned (unescape_key s) prev = false
  ∧ ∃ k, resolve_key D (unescape_key s) = Ret k ∧ getprop D k = Ret x.
Proof.
  destruct key as [s'|n]; simpl.
  - intros Hp [= <-] Hm. rewrite (plain_key_unescape _ Hp).
    split; [by apply plain_key_not_banned|].
    destruct D as [| | | | | |m]; try done. exists (KStr s'). simpl in Hm. simpl.
    by rewrite Hm.
  - intros [Hn0%Z.leb_le Hn%Z.ltb_lt]%andb_true_iff. unfold number_to_string.
    case_match; [|done]. intros [= <-] Hm.
    destruct (pretty_index n Hn0) as [Hi Hd].
    assert (unescape_key (pretty n) = pretty n) as ->.
    { unfold unescape_key. by rewrite (isInteger_has_char tilde _ eq_refl Hi). }
    split.
    + unfold banned. apply orb_false_iff. split.
      * apply bool_decide_eq_false. intros Hp. rewrite Hp in Hi. by vm_compute in Hi.
      * apply andb_false_iff. left. apply bool_decide_eq_false. intros Hp.
        rewrite Hp in Hi. by vm_compute in Hi.
    + destruct D as [| | | | |xs|]; try done. exists (KNum n). simpl.
      rewrite (array_key_index _ _ (Z.to_nat n)) by (rewrite ?Z2Nat.id; done || lia).
      rewrite Z2Nat.id by lia. split; [done|].
      unfold arr_get. simpl in Hm. revert Hm. rewrite (proj2 (Z.leb_le _ _)) by lia.
      by intros ->.
Qed.

Lemma walk_descend (keys : list JsonKey) : ∀ key prev D c s ss,
  Forall (λ k, direct_key k = true) (key :: keys) →
  key_to_string key = Ret s → mapM key_to_string keys = Ret ss →
  descend D (key :: keys) = Some c →
  walk ops_get prev s ss D = Ret (None, c).
Proof.
  induction keys as [|key' keys IH]; intros key prev D c s ss [Hk Hks]%Forall_cons Hs Hss.
  - injection Hss as <-. cbn [descend]. destruct (member D key) as [x|] eqn:Hm; [|done].
    intros [= ->]. destruct (direct_key_step D c key s prev Hk Hs Hm) as (Hb & k & Hr & Hg).
    cbn [walk]. rewrite Hb, Hr. simpl. unfold ops_get. by rewrite Hg.
  - rewrite mapM_cons in Hss. destruct (key_to_string key') as [s'| |] eqn:Hs'; try done.
    destruct (mapM key_to_string keys) as [ss'| |] eqn:Hss'; try done. injection Hss as <-.
    change (descend D (key :: key' :: keys))
      with (x ← member D key; descend x (key' :: keys)).
    destruct (member D key) as [x|] eqn:Hm; [|done]. simpl. intros Hd.
    destruct (direct_key_step D x key s prev Hk Hs Hm) as (Hb & k & Hr & Hg).
    cbn [walk]. rewrite Hb, Hr. simpl. rewrite Hg. simpl.
    by rewrite (IH key' s x c s' ss' Hks Hs' eq_refl Hd).
Qed.

(** X4.  The pointer joined from a list of property names and indices reads, in
    the library, the member that the names and indices lead to one after the
    other.  The names are plain and the first key is not the empty name. *)
Theorem join_reads_member (D c : value) (key : JsonKey) (keys : list JsonKey) :
  Forall (λ k, direct_key k = true) (key :: keys) → key ≠ KeyString "" →
  descend D (key :: keys) = Some c →
  ∃ p, join (Segments (key :: keys)) = Ret p ∧ getValueByPointer D p = Ret c.
Proof.
  intros Hks Hkey Hd.
  destruct (direct_keys_to_strings _ Hks) as [ss Hss].
  exists (String slash (drop_slashes (join_strings slash ss))).
  split; [by rewrite join_eq, Hss|].
  assert (Hno : Forall (λ s, has_char slash s = false) ss).
  { apply (mapM_no_slash (key :: keys)); [|done].
    eapply Forall_impl; [exact Hks|]. apply direct_key_one_segment. }
  rewrite mapM_cons in Hss. destruct (key_to_string key) as [s| |] eqn:Hs; try done.
  destruct (mapM key_to_string keys) as [ss'| |] eqn:Hss'; try done. injection Hss as <-.
  rewrite (getValueByPointer_walk _ _ "" s ss').
  - by rewrite (walk_descend keys key "" D c s ss' Hks Hs Hss' Hd).
  - apply split_joined; [|done]. by eapply key_to_string_nonempty.
Qed.

Lemma join_reads_member_witness :
  ∃ p, join (Segments [KeyString "users"; KeyNumber 1; KeyString "name"]) = Ret p
       ∧ getValueByPointer
           (object [("users", VArr [object [("name", VStr "John")];
                                    object [("name", VStr "Jane")]])]) p
         = Ret (VStr "Jane").
Proof.
  apply (join_reads_member _ (VStr "Jane") (KeyString "users") [KeyNumber 1; KeyString "name"]).
  - repeat constructor.
  - discriminate.
  - vm_compute. reflexivity.
Defined.

End JoinerFacts.

(** * More facts about the patcher *)

Module PatchFacts.
Import Doc DocFacts.

(** ** One call or several *)




(** ** The pointer to the whole document *)



(** ** The prototype guard *)

Lemma bind_never_ret {A B} (m : outcome A) (f : A → outcome B) :
  (∀ a, m ≠ Ret a) → ∀ b, m ≫= f ≠ Ret b.
Proof. intros Hm b. destruct m as [a| |]; try done. by destruct (Hm a). Qed.

Lemma walk_proto (f : leaf) (rest : list string) : ∀ prev seg obj r,
  "__proto__" ∈ seg :: rest → walk f prev seg rest obj ≠ Ret r.
Proof.
  induction rest as [|seg' rest IH]; intros prev seg obj r Hin.
  - apply list_elem_of_singleton in Hin as <-. done.
  - destruct (decide (seg = "__proto__")) as [->|Hseg]; [done|].
    apply elem_of_cons in Hin as [?|Hin]; [done|].
    cbn [walk]. destruct (banned _ _); [done|].
    destruct (resolve_key obj _) as [k| |]; try done. simpl.
    destruct (getprop obj k) as [c| |]; try done. simpl.
    apply bind_never_ret. intros a. apply IH, Hin.
Qed.

Lemma walk_constructor_prototype (f : leaf) (rest : list string) : ∀ prev seg obj r pre post,
  prev :: seg :: rest = pre ++ "constructor" :: "prototype" :: post →
  walk f prev seg rest obj ≠ Ret r.
Proof.
  induction rest as [|seg' rest IH]; intros prev seg obj r pre post Heq.
  - destruct pre as [|? [|? [|? pre]]]; simplify_eq/=. done.
  - destruct pre as [|x pre]; simplify_eq/=; [done|].
    cbn [walk]. destruct (banned _ _); [done|].
    destruct (resolve_key obj _) as [k| |]; try done. simpl.
    destruct (getprop obj k) as [c| |]; try done. simpl.
    apply bind_never_ret. intros a. by eapply IH.
Qed.

Lemma guarded_split (path : string) :
  guarded path →
  ∃ k0 seg rest, split_slash path = k0 :: seg :: rest
    ∧ ("__proto__" ∈ seg :: rest
       ∨ ∃ pre post, k0 :: seg :: rest = pre ++ "constructor" :: "prototype" :: post).
Proof.
  intros [(pre & post & Hs & Hpre)|(pre & post & Hs)].
  - destruct pre as [|k0 pre]; [done|]. rewrite Hs.
    destruct pre as [|seg pre]; simpl.
    + eexists _, _, _. split; [done|]. left. by left.
    + eexists _, _, _. split; [done|]. left. right. apply elem_of_app. right. by left.
  - rewrite Hs. destruct pre as [|k0 [|seg pre]]; simpl; eexists _, _, _; (split; [done|]);
      right; [by exists [], post|by exists [k0], post|by exists (k0 :: seg :: pre), post].
Qed.

Lemma guarded_nonempty (path : string) : guarded path → path ≠ "".
Proof. intros (k0 & seg & rest & Hs & _)%guarded_split ->. done. Qed.

Lemma walk_path_guarded (f : leaf) (D : value) (path : string) r :
  guarded path → walk_path f D path ≠ Ret r.
Proof.
  intros (k0 & seg & rest & Hs & [Hin|(pre & post & Heq)])%guarded_split;
    unfold walk_path; rewrite Hs.
  - by apply walk_proto.
  - by eapply walk_constructor_prototype.
Qed.

Lemma below_root_guarded (f : leaf) (D : value) (path : string) isget r :
  guarded path → below_root f D path isget ≠ Ret r.
Proof.
  intros Hg. unfold below_root. apply bind_never_ret. intros a. by apply walk_path_guarded.
Qed.

Lemma getValueByPointer_guarded (D : value) (path : string) r :
  guarded path → getValueByPointer D path ≠ Ret r.
Proof.
  intros Hg. unfold getValueByPointer, apply_get.
  rewrite !decide_False by (by apply guarded_nonempty).
  apply bind_never_ret. intros a. by apply below_root_guarded.
Qed.

Lemma applyOperation_guarded (D : value) (op : JsonPatchOperation value) r :
  guarded (op_path op) ∨ (∃ from, op_from op = Some from ∧ guarded from) →
  applyOperation D op ≠ Ret r.
Proof.
  intros [Hg|(from & Hfrom & Hg)].
  - pose proof (guarded_nonempty _ Hg) as Hne.
    destruct op as [p v|p|p v|p from|p from|p v|p v]; simpl in *;
      unfold apply_add, apply_remove, apply_replace, apply_move, apply_copy, apply_test,
        apply_get; rewrite decide_False by done;
      try (by apply below_root_guarded);
      apply bind_never_ret; intros ?; by apply walk_path_guarded.
  - destruct op as [p v|p|p v|p from'|p from'|p v|p v]; simplify_eq/=.
    + unfold apply_move. case_decide.
      * apply bind_never_ret. intros ?. by apply getValueByPointer_guarded.
      * destruct (walk_path ops_none D p) as [?| |]; try done. simpl.
        unfold ops_move. destruct (getValueByPointer D p) as [?| |]; try done. simpl.
        rewrite decide_False by (by apply guarded_nonempty).
        apply bind_never_ret. intros ?. unfold apply_remove.
        rewrite decide_False by (by apply guarded_nonempty). by apply below_root_guarded.
    + unfold apply_copy. case_decide.
      * apply bind_never_ret. intros ?. by apply getValueByPointer_guarded.
      * destruct (walk_path ops_none D p) as [?| |]; try done. simpl.
        unfold ops_copy. apply bind_never_ret. intros ?. by apply getValueByPointer_guarded.
Qed.

(** X7.  No operation goes through the prototype guard: when the path of an
    operation (or the [from] of a move or copy) has [__proto__] among its
    segments, or [prototype] after [constructor], the call never returns a
    document, whatever the document and the operation are, and [safePatch]
    never reports a success. *)
Theorem prototype_guard (D : value) (op : JsonPatchOperation value) :
  guarded (op_path op) ∨ (∃ from, op_from op = Some from ∧ guarded from) →
  (∀ D', patch D [op] ≠ Ret D') ∧ (∀ D', safePatch D [op] ≠ Ret (Success D')).
Proof.
  intros Hg.
  assert (Hp : ∀ D', patch D [op] ≠ Ret D').
  { intros D'. rewrite patch_one.
    destruct op as [p v| | | | | |]; [destruct v as [| | | |s| |]|..];
      try (rewrite patch_step_other by done; apply bind_never_ret; intros ?;
           by apply applyOperation_guarded).
    rewrite patch_step_string_add. apply bind_never_ret. intros a.
    apply getValueByPointer_guarded. by destruct Hg as [Hg|(from & ? & _)]. }
  split; [done|]. intros D'. unfold safePatch.
  destruct (patch D [op]) as [d| |] eqn:Hd; try done. by destruct (Hp d).
Qed.

Lemma prototype_guard_witness :
  (∀ D', patch (object []) [AddOperation "/__proto__/polluted" (VBool true)] ≠ Ret D')
  ∧ (∀ D', safePatch (object []) [AddOperation "/__proto__/polluted" (VBool true)]
           ≠ Ret (Success D')).
Proof.
  apply (prototype_guard (object []) (AddOperation "/__proto__/polluted" (VBool true))).
  left. left. exists [""], ["polluted"]. split; [reflexivity|discriminate].
Defined.

(** ** Array indices at and past the end *)

Lemma splice_remove_at (xs : list value) (n : nat) :
  (splice_remove VUndefined xs (Z.of_nat n)).1 = delete n xs.
Proof.
  unfold splice_remove, splice_start. rewrite (proj2 (Z.ltb_ge _ _)) by lia.
  rewrite Nat2Z.id. simpl. rewrite delete_take_drop.
  destruct (decide (n < length xs)%nat).
  - by rewrite Nat.min_l by lia.
  - rewrite Nat.min_r by lia. by rewrite !take_ge, !drop_ge by lia.
Qed.

(** An entry applied at the segment [-] of the array in focus. *)
Lemma dash_member f pp plug xs :
  focus pp plug → pointer_ok pp = true →
  walk_path f (plug (VArr xs)) (child pp "-") =
  '(w, r) ← f (VArr xs) (KNum (Z.of_nat (length xs))); Ret (option_map plug w, r).
Proof. intros (_ & _ & Hf) Hok. by rewrite (Hf Hok f (VArr xs) "-" eq_refl). Qed.

(** X8.  A remove at the index [n] of an array takes the element out and moves
    the later ones down.  At an index past the end there is nothing to take
    out: the call succeeds and the document is as it was. *)
Theorem remove_at_array_index (D : value) (pp seg : string) (xs : list value) (n : nat) :
  pointer_ok pp = true → getValueByPointer D pp = Ret (VArr xs) →
  isInteger seg = true → decimal seg = Z.of_nat n → Z.of_nat n < 2 ^ 31 →
  ∃ D', patch D [RemoveOperation (child pp seg)] = Ret D'
        ∧ getValueByPointer D' pp = Ret (VArr (delete n xs))
        ∧ ((length xs ≤ n)%nat → D' = D).
Proof.
  intros Hok Hget Hi Hd Hn.
  destruct (pointer_focus _ _ _ Hget) as (plug & <- & Hfoc); [done|].
  exists (plug (VArr (delete n xs))). split; [|split; [apply Hfoc|]].
  - rewrite patch_one, patch_step_other by done. simpl.
    rewrite apply_remove_child, (array_member _ _ _ _ _ _ Hfoc Hok Hi Hd Hn).
    unfold ops_remove. pose proof (splice_remove_at xs n) as Hs.
    destruct (splice_remove VUndefined xs (Z.of_nat n)) as [xs' r]. simpl in Hs.
    by rewrite Hs.
  - intros Hlen. by rewrite delete_take_drop, take_ge, drop_ge, app_nil_r by lia.
Qed.

Lemma remove_at_array_index_witness :
  ∃ D', patch (object [("items", VArr [VNum 1; VNum 2; VNum 3])])
              [RemoveOperation (child "/items" "1")] = Ret D'
        ∧ getValueByPointer D' "/items" = Ret (VArr (delete 1%nat [VNum 1; VNum 2; VNum 3]))
        ∧ ((length [VNum 1; VNum 2; VNum 3] ≤ 1)%nat
           → D' = object [("items", VArr [VNum 1; VNum 2; VNum 3])]).
Proof.
  apply (remove_at_array_index (object [("items", VArr [VNum 1; VNum 2; VNum 3])])
           "/items" "1" [VNum 1; VNum 2; VNum 3] 1).
  - reflexivity.
  - vm_compute. reflexivity.
  - reflexivity.
  - reflexivity.
  - reflexivity.
Defined.

(** X9.  An add at the segment [-] of an array appends the value, a string like
    any other value.  An add of a value that is not a string at an index
    past the end appends it too: the index is not kept, and the call does
    not fail. *)
Theorem add_at_the_end (D : value) (pp : string) (xs : list value) :
  pointer_ok pp = true → getValueByPointer D pp = Ret (VArr xs) →
  (∀ v, ∃ D', patch D [AddOperation (child pp "-") v] = Ret D'
              ∧ getValueByPointer D' pp = Ret (VArr (xs ++ [v])))
  ∧ (∀ seg n v,
       isInteger seg = true → decimal seg = Z.of_nat n → Z.of_nat n < 2 ^ 31 →
       (length xs ≤ n)%nat → is_string v = false →
       ∃ D', patch D [AddOperation (child pp seg) v] = Ret D'
             ∧ getValueByPointer D' pp = Ret (VArr (xs ++ [v]))).
Proof.
  intros Hok Hget.
  destruct (pointer_focus _ _ _ Hget) as (plug & <- & Hfoc); [done|].
  split.
  - intros v. exists (plug (VArr (xs ++ [v]))). split; [|apply Hfoc].
    rewrite patch_one.
    assert (Hadd : ∀ y, apply_add (plug (VArr xs)) (child pp "-") y
                        = Ret (mkResult (plug (VArr (xs ++ [y]))) VUndefined VUndefined)).
    { intros y. rewrite apply_add_child, (dash_member _ _ _ _ Hfoc Hok). simpl.
      rewrite splice_insert_at by done. by rewrite take_ge, drop_ge by lia. }
    destruct v as [| | | |s| |]; try (rewrite patch_step_other by done; simpl; by rewrite Hadd).
    rewrite patch_step_string_add, getValueByPointer_child, (dash_member _ _ _ _ Hfoc Hok).
    unfold ops_get. simpl. rewrite arr_get_at, (lookup_ge_None_2 xs (length xs)) by lia.
    simpl. rewrite apply_replace_child, (dash_member _ _ _ _ Hfoc Hok). simpl.
    rewrite (proj2 (Z.leb_le _ _)) by lia. simpl. rewrite Nat2Z.id. unfold arr_set.
    rewrite decide_False by lia. by rewrite Nat.sub_diag.
  - intros seg n v Hi Hd Hn Hlen Hv. exists (plug (VArr (xs ++ [v]))). split; [|apply Hfoc].
    rewrite patch_one, patch_step_other by (intros p s [= _ ->]; done). simpl.
    rewrite apply_add_child, (array_member _ _ _ _ _ _ Hfoc Hok Hi Hd Hn). simpl.
    unfold splice_insert, splice_start. rewrite (proj2 (Z.ltb_ge _ _)) by lia.
    rewrite Nat2Z.id, Nat.min_r by lia. by rewrite take_ge, drop_ge by lia.
Qed.

Lemma add_at_the_end_witness :
  (∀ v, ∃ D', patch (object [("items", VArr [VNum 1])]) [AddOperation (child "/items" "-") v]
              = Ret D'
              ∧ getValueByPointer D' "/items" = Ret (VArr ([VNum 1] ++ [v])))
  ∧ (∃ D', patch (object [("items", VArr [VNum 1])]) [AddOperation (child "/items" "7") (VNum 2)]
           = Ret D'
           ∧ getValueByPointer D' "/items" = Ret (VArr ([VNum 1] ++ [VNum 2]))).
Proof.
  assert (H := add_at_the_end (object [("items", VArr [VNum 1])]) "/items" [VNum 1]).
  destruct H as [Hdash Hpast].
  - reflexivity.
  - vm_compute. reflexivity.
  - split; [exact Hdash|]. apply (Hpast "7" 7%nat (VNum 2)).
    + reflexivity.
    + reflexivity.
    + reflexivity.
    + simpl. lia.
    + reflexivity.
Defined.

(** ** Replace, move and copy *)

(** X10.  Where a pointer reads a value, a replace writes there and nowhere else:
    the pointer then reads the new value, replacing the old value back
    gives the document one started from, and of two replaces at the pointer
    the second one alone decides. *)
Theorem replace_then_read (D : value) (p : string) (w v v' : value) :
  getValueByPointer D p = Ret w → w ≠ VUndefined →
  ∃ D', patch D [ReplaceOperation p v] = Ret D'
        ∧ getValueByPointer D' p = Ret v
        ∧ patch D' [ReplaceOperation p w] = Ret D
        ∧ patch D [ReplaceOperation p v; ReplaceOperation p v']
          = patch D [ReplaceOperation p v'].
Proof.
  intros Hget Hw.
  destruct (pointer_focus _ _ _ Hget Hw) as (plug & <- & Hg & Hr & _).
  assert (Hone : ∀ x y, patch (plug x) [ReplaceOperation p y] = Ret (plug y)).
  { intros x y. rewrite patch_one, patch_step_other by done. simpl. by rewrite Hr. }
  exists (plug v). split; [apply Hone|]. split; [apply Hg|]. split; [apply Hone|].
  rewrite patch_cons, <- patch_one, Hone. simpl. by rewrite !Hone.
Qed.

Lemma replace_then_read_witness :
  ∃ D', patch (object [("user", object [("name", VStr "John")])])
              [ReplaceOperation "/user/name" (VStr "Jane")] = Ret D'
        ∧ getValueByPointer D' "/user/name" = Ret (VStr "Jane")
        ∧ patch D' [ReplaceOperation "/user/name" (VStr "John")]
          = Ret (object [("user", object [("name", VStr "John")])])
        ∧ patch (object [("user", object [("name", VStr "John")])])
                [ReplaceOperation "/user/name" (VStr "Jane");
                 ReplaceOperation "/user/name" (VNum 1)]
          = patch (object [("user", object [("name", VStr "John")])])
                  [ReplaceOperation "/user/name" (VNum 1)].
Proof.
  apply (replace_then_read (object [("user", object [("name", VStr "John")])])
           "/user/name" (VStr "John")).
  - vm_compute. reflexivity.
  - discriminate.
Defined.



(** X12.  A copy or a move whose [from] is an absent member of an existing
    object does not fail: the copy leaves [null] at the target, the move
    leaves a member that is [undefined]. *)
Theorem move_copy_of_absent_member
  (D : value) (pp k1 k2 : string) (m : gmap string value) :
  pointer_ok pp = true → plain_key k1 = true → plain_key k2 = true →
  getValueByPointer D pp = Ret (VObj m) → m !! k1 = None →
  (∃ D', patch D [CopyOperation (child pp k2) (child pp k1)] = Ret D'
         ∧ getValueByPointer D' pp = Ret (VObj (<[k2 := VNull]> m)))
  ∧ (∃ D', patch D [MoveOperation (child pp k2) (child pp k1)] = Ret D'
           ∧ getValueByPointer D' pp = Ret (VObj (<[k2 := VUndefined]> m))).
Proof.
  intros Hok Hp1 Hp2 Hget Hk1.
  destruct (pointer_focus _ _ _ Hget) as (plug & <- & Hfoc); [done|].
  split.
  - exists (plug (VObj (<[k2 := VNull]> m))). split; [|apply Hfoc].
    rewrite patch_one, patch_step_other by done. simpl.
    unfold apply_copy, ops_copy. rewrite !decide_False by apply child_nonempty.
    rewrite (visit_member _ _ _ _ Hfoc Hok Hp2). simpl.
    rewrite (get_member _ _ _ _ Hfoc Hok Hp1), Hk1. simpl.
    by rewrite (add_member _ _ _ _ _ Hfoc Hok Hp2).
  - exists (plug (VObj (<[k2 := VUndefined]> m))). split; [|apply Hfoc].
    rewrite patch_one, patch_step_other by done. simpl.
    unfold apply_move, ops_move. rewrite !decide_False by apply child_nonempty.
    rewrite (visit_member _ _ _ _ Hfoc Hok Hp2). simpl.
    rewrite (get_member _ _ _ _ Hfoc Hok Hp2). simpl.
    rewrite decide_False by apply child_nonempty.
    rewrite (remove_member _ _ _ _ Hfoc Hok Hp1). simpl.
    rewrite (add_member _ _ _ _ _ Hfoc Hok Hp2). simpl.
    by rewrite Hk1, delete_id.
Qed.

Lemma move_copy_of_absent_member_witness :
  (∃ D', patch (object [("name", VStr "John")]) [CopyOperation (child "" "b") (child "" "a")]
         = Ret D'
         ∧ getValueByPointer D' ""
           = Ret (VObj (<["b" := VNull]> (list_to_map [("name", VStr "John")]))))
  ∧ (∃ D', patch (object [("name", VStr "John")]) [MoveOperation (child "" "b") (child "" "a")]
           = Ret D'
           ∧ getValueByPointer D' ""
             = Ret (VObj (<["b" := VUndefined]> (list_to_map [("name", VStr "John")])))).
Proof.
  apply (move_copy_of_absent_member (object [("name", VStr "John")]) "" "a" "b"
           (list_to_map [("name", VStr "John")])).
  - reflexivity.
  - reflexivity.
  - reflexivity.
  - reflexivity.
  - reflexivity.
Defined.

End PatchFacts.

(** * Facts about the builder *)

Module BuilderFacts.
Import Doc DocFacts JsonPatchBuilder.

(** What every operation of a builder satisfies. *)
Lemma patches_Forall (Q : JsonPatchOperation value → Prop) (b : JsonPatchBuilder) :
  (∀ op, Q op → Q (op_map structuredClone op)) →
  Forall Q (_patches b) → Forall Q (patches b).
Proof.
  intros HQ Hb. unfold patches. apply Forall_fmap. eapply Forall_impl; [exact Hb|]. done.
Qed.

Lemma run_Forall (Q : JsonPatchOperation value → Prop) (c : call) (b b' : JsonPatchBuilder) :
  (∀ op, op_path op ≠ "" → one_slash (op_path op) = true →
         (∀ f, op_from op = Some f → one_slash f = true) → Q op) →
  Forall Q (_patches b) → run c b = Ret b' → Forall Q (_patches b').
Proof.
  intros HQ Hb.
  assert (Hjoin : ∀ path p, joinPath path = Ret p → p ≠ "" ∧ one_slash p = true).
  { intros path p Hp. pose proof (JoinerFacts.join_one_slash _ _ Hp). by destruct p. }
  destruct c as [path v|path|path v|from to|from to|path v|]; simpl;
    unfold add, remove, replace, move, copy, test;
    try (destruct (joinPath path) as [p| |] eqn:Hp; try done; simpl; intros [= <-];
         destruct (Hjoin _ _ Hp); apply Forall_app; split; [done|];
         constructor; [|done]; by apply HQ).
  - destruct (joinPath from) as [f| |] eqn:Hf; try done. simpl.
    destruct (joinPath to) as [p| |] eqn:Hp; try done. simpl. intros [= <-].
    destruct (Hjoin _ _ Hp), (Hjoin _ _ Hf). apply Forall_app. split; [done|].
    constructor; [|done]. apply HQ; try done. by intros ? [= <-].
  - destruct (joinPath from) as [f| |] eqn:Hf; try done. simpl.
    destruct (joinPath to) as [p| |] eqn:Hp; try done. simpl. intros [= <-].
    destruct (Hjoin _ _ Hp), (Hjoin _ _ Hf). apply Forall_app. split; [done|].
    constructor; [|done]. apply HQ; try done. by intros ? [= <-].
  - by intros [= <-].
Qed.

Lemma chain_app (cs1 cs2 : list call) : ∀ b,
  chain (cs1 ++ cs2) b = b1 ← chain cs1 b; chain cs2 b1.
Proof.
  induction cs1 as [|c cs1 IH]; intros b; [done|]. simpl.
  by destruct (run c b) as [b'| |]; simpl.
Qed.

(** X13.  Whatever is called on a new builder, the pointers of the operations
    that [patches] returns ([path], and [from] of a move or copy) are
    joined pointers: none is the pointer to the whole document, none is
    relative.  [clear] forgets the calls made before it. *)
Theorem builder_pointers (cs cs' : list call) (b : JsonPatchBuilder) :
  chain cs empty = Ret b →
  Forall (λ op, op_path op ≠ "" ∧ one_slash (op_path op) = true
                ∧ ∀ f, op_from op = Some f → one_slash f = true) (patches b)
  ∧ chain (cs ++ Clear :: cs') empty = chain cs' empty.
Proof.
  intros Hcs. split.
  - apply patches_Forall; [by intros []|].
    assert (Hgen : ∀ b0, Forall (λ op, op_path op ≠ "" ∧ one_slash (op_path op) = true
                     ∧ ∀ f, op_from op = Some f → one_slash f = true) (_patches b0) →
                   chain cs b0 = Ret b →
                   Forall (λ op, op_path op ≠ "" ∧ one_slash (op_path op) = true
                     ∧ ∀ f, op_from op = Some f → one_slash f = true) (_patches b)).
    { clear Hcs. induction cs as [|c cs IH]; intros b0 Hb0; simpl.
      - by intros [= <-].
      - destruct (run c b0) as [b1| |] eqn:Hrun; try done. simpl. apply IH.
        eapply run_Forall; [|exact Hb0|exact Hrun]. done. }
    apply (Hgen empty); [constructor|done].
  - by rewrite chain_app, Hcs.
Qed.

Lemma builder_pointers_witness :
  Forall (λ op, op_path op ≠ "" ∧ one_slash (op_path op) = true
                ∧ ∀ f, op_from op = Some f → one_slash f = true)
    (patches (mk [AddOperation "/a" (VNum 1); MoveOperation "/b/0" "/a"]))
  ∧ chain ([Add (Complete (KeyString "a")) (VNum 1);
            Move (Complete (KeyString "a")) (Segments [KeyString "b"; KeyNumber 0])]
           ++ Clear :: [Remove (Segments [])]) empty
    = chain [Remove (Segments [])] empty.
Proof.
  apply (builder_pointers
           [Add (Complete (KeyString "a")) (VNum 1);
            Move (Complete (KeyString "a")) (Segments [KeyString "b"; KeyNumber 0])]
           [Remove (Segments [])]).
  reflexivity.
Defined.

End BuilderFacts.

(** * Facts about the parser *)

Module ParserFacts.
Import Doc DocFacts JsonParser.

Lemma op_map_structuredClone (ops : list (JsonPatchOperation value)) :
  op_map structuredClone <$> ops = ops.
Proof.
  induction ops as [|op ops IH]; [done|]. rewrite fmap_cons, IH. f_equal.
  destruct op; simpl; by rewrite ?structuredClone_id.
Qed.

Section host.
Variable JSON_parse : string → result value.
Variables new_Date parseInt parseFloat : string → option value.

#[local] Abbreviation convertValue := (JsonParser.convertValue new_Date parseInt parseFloat).
#[local] Abbreviation convert_fields := (JsonParser.convert_fields new_Date parseInt parseFloat).
#[local] Abbreviation field_patch := (JsonParser.field_patch new_Date parseInt parseFloat).
#[local] Abbreviation parse := (JsonParser.parse JSON_parse new_Date parseInt parseFloat).

(** The loop of [parse] gives the builder one replace for each field, at
    the pointer the field was read at. *)
Lemma convert_fields_eq (raw : value) (fields : list ParseField) : ∀ b,
  convert_fields raw fields b =
  ops ← mapM (field_patch raw) fields;
  Ret (JsonPatchBuilder.mk (JsonPatchBuilder._patches b ++ ops)).
Proof.
  induction fields as [|f fields IH]; intros b.
  - simpl. rewrite app_nil_r. by destruct b.
  - rewrite JoinerFacts.mapM_cons. cbn [JsonParser.convert_fields].
    unfold JsonParser.field_patch.
    destruct (JsonPathJoiner.join (path f)) as [p| |] eqn:Hp; try done.
    pose proof (JoinerFacts.join_again _ _ Hp) as Hagain.
    rewrite JoinerFacts.join_eq in Hagain. simpl in Hagain. injection Hagain as Hagain.
    simpl. destruct (getValueByPointer raw p) as [w| |]; try done. simpl.
    destruct (convertValue w (conversion f)) as [c| |]; try done. simpl.
    rewrite Hagain, IH. unfold JsonParser.field_patch.
    destruct (mapM _ fields) as [ops| |]; try done. simpl.
    by rewrite <- app_assoc.
Qed.

Lemma parse_eq (text : string) (raw : value) (f : ParseField) (fields : list ParseField)
    (ops : list (JsonPatchOperation value)) :
  JSON_parse text = Parsed raw → mapM (field_patch raw) (f :: fields) = Ret ops →
  parse (mkParser (f :: fields)) text =
  match patch raw ops with
  | Ret data => Parsed data
  | Throw e => Raised (Failed_to_parse_JSON e)
  | OutOfModel => Unmodelled
  end.
Proof.
  intros Hraw Hops. unfold JsonParser.parse. rewrite Hraw.
  cbn [parsedFields]. rewrite convert_fields_eq, Hops. simpl.
  unfold JsonPatchBuilder.patches. simpl. rewrite op_map_structuredClone.
  unfold safePatch. by destruct (patch raw ops).
Qed.

Lemma field_patch_Ret (raw w c : value) (f : ParseField) (p : string) :
  JsonPathJoiner.join (path f) = Ret p → getValueByPointer raw p = Ret w →
  convertValue w (conversion f) = Ret c →
  field_patch raw f = Ret (ReplaceOperation p c).
Proof. intros Hp Hw Hc. unfold JsonParser.field_patch. by rewrite Hp; simpl; rewrite Hw; simpl; rewrite Hc. Qed.

Lemma patch_replace_in_focus (p : string) (plug : value → value) (x y : value) :
  focus p plug → patch (plug x) [ReplaceOperation p y] = Ret (plug y).
Proof.
  intros (_ & Hr & _). rewrite patch_one, patch_step_other by done. simpl. by rewrite Hr.
Qed.

(** X14.  What [convertValue] leaves as it is: [null] and [undefined] under every
    conversion; a value that is not a string under the conversions to a
    date, an integer and a float; a string under the conversion to a string;
    a boolean under the conversion to a boolean.  The conversion to a
    boolean makes [true] of every string but the empty one and "false", and
    gives every other value its truth value of JavaScript. *)
Theorem convertValue_cases (v : value) (c : JsonFieldConversion) :
  (v = VNull ∨ v = VUndefined
   ∨ (is_string v = false ∧ c ∈ [Date; Int; Float])
   ∨ (is_string v = true ∧ c = String')
   ∨ ((∃ b, v = VBool b) ∧ c = Boolean) →
   convertValue v c = Ret v)
  ∧ (∀ s, convertValue (VStr s) Boolean = Ret (VBool (bool_decide (s ≠ "false" ∧ s ≠ ""))))
  ∧ (is_string v = false → v ≠ VNull → v ≠ VUndefined →
     convertValue v Boolean = Ret (VBool (truthy v))).
Proof.
  split; [|split].
  - intros [->|[->|[[Hv Hc]|[[Hv ->]|[[b ->] ->]]]]]; try done.
    + destruct v; try done;
        repeat (apply elem_of_cons in Hc as [->|Hc]; [done|]); by apply elem_of_nil in Hc.
    + by destruct v.
  - intros s. simpl. do 2 f_equal.
    destruct (decide (s = "false")) as [->|Hs]; [done|].
    rewrite bool_decide_eq_false_2 by done.
    destruct (decide (s = "")) as [->|Hs']; [done|].
    rewrite bool_decide_eq_false_2 by done. by rewrite bool_decide_eq_true_2.
  - intros Hs Hn Hu. by destruct v.
Qed.


(** X16.  Fields that [convertValue] leaves as they are (fields that are [null],
    or numbers under the conversion to an integer) leave the parsed text as
    it is, whatever their number; so does a parser without fields. *)
Theorem parse_leaves_unconverted (text : string) (raw : value) (fields : list ParseField) :
  JSON_parse text = Parsed raw →
  Forall (λ f, ∃ p w, JsonPathJoiner.join (path f) = Ret p
                      ∧ getValueByPointer raw p = Ret w ∧ w ≠ VUndefined
                      ∧ convertValue w (conversion f) = Ret w) fields →
  parse (mkParser fields) text = Parsed raw.
Proof.
  intros Hraw Hfields.
  assert (Hops : ∃ ops, mapM (field_patch raw) fields = Ret ops
                        ∧ Forall (λ op, patch_step raw op = Ret raw) ops).
  { induction Hfields as [|f fields (p & w & Hp & Hw & Hdef & Hc) _ (ops & Hops & Hall)].
    - by exists [].
    - exists (ReplaceOperation p w :: ops). rewrite JoinerFacts.mapM_cons.
      rewrite (field_patch_Ret _ _ _ _ _ Hp Hw Hc), Hops. split; [done|].
      constructor; [|done].
      destruct (pointer_focus _ _ _ Hw Hdef) as (plug & Hplug & Hfoc).
      rewrite <- patch_one, <- Hplug. rewrite (patch_replace_in_focus _ _ _ _ Hfoc).
      by rewrite Hplug. }
  destruct Hops as (ops & Hops & Hall).
  destruct fields as [|f fields']; [unfold JsonParser.parse; by rewrite Hraw|].
  rewrite (parse_eq text raw f fields' ops Hraw Hops).
  assert (patch raw ops = Ret raw) as ->; [|done].
  rewrite patch_eq. clear Hops. induction Hall as [|op ops Hop _ IH]; [done|].
  simpl. by rewrite Hop.
Qed.


(** X18.  A field that the parsed text does not have, in an object that it has,
    is not left out: the result has the member, with the value
    [undefined]. *)
Theorem parse_absent_field
  (text : string) (raw : value) (f : ParseField) (pp seg : string) (m : gmap string value) :
  JSON_parse text = Parsed raw → JsonPathJoiner.join (path f) = Ret (child pp seg) →
  pointer_ok pp = true → plain_key seg = true →
  getValueByPointer raw pp = Ret (VObj m) → m !! seg = None →
  ∃ D', parse (mkParser [f]) text = Parsed D'
        ∧ getValueByPointer D' pp = Ret (VObj (<[seg := VUndefined]> m)).
Proof.
  intros Hraw Hp Hok Hplain Hget Hm.
  destruct (pointer_focus _ _ _ Hget) as (plug & <- & Hfoc); [done|].
  exists (plug (VObj (<[seg := VUndefined]> m))). split; [|apply Hfoc].
  rewrite (parse_eq text _ f [] [ReplaceOperation (child pp seg) VUndefined] Hraw).
  - rewrite patch_one, patch_step_other by done. simpl.
    by rewrite (replace_member _ _ _ _ _ Hfoc Hok Hplain).
  - rewrite JoinerFacts.mapM_cons.
    rewrite (field_patch_Ret _ VUndefined VUndefined _ _ Hp); [done| |done].
    by rewrite (get_member _ _ _ _ Hfoc Hok Hplain), Hm.
Qed.


End host.

(** ** The facts about the parser at concrete inputs

    The host here parses every text to the one document of the example and
    knows no dates and no numbers. *)

Lemma convertValue_cases_witness :
  JsonParser.convertValue (λ _, None) (λ _, None) (λ _, None) (VNum 42) Int = Ret (VNum 42)
  ∧ JsonParser.convertValue (λ _, None) (λ _, None) (λ _, None) (VNum 0) Boolean
    = Ret (VBool (truthy (VNum 0))).
Proof.
  split.
  - apply (proj1 (convertValue_cases (λ _, None) (λ _, None) (λ _, None) (VNum 42) Int)).
    right. right. left. split; [reflexivity|]. apply elem_of_cons. right. apply elem_of_cons. by left.
  - apply (proj2 (proj2 (convertValue_cases (λ _, None) (λ _, None) (λ _, None) (VNum 0) Int)));
      [reflexivity|discriminate..].
Defined.


Lemma parse_leaves_unconverted_witness :
  JsonParser.parse
    (λ _, Parsed (object [("firstName", VStr "Robert"); ("championDate", VNull)]))
    (λ _, None) (λ _, None) (λ _, None)
    (mkParser [mkField (Complete (KeyString "championDate")) Date]) "text"
  = Parsed (object [("firstName", VStr "Robert"); ("championDate", VNull)]).
Proof.
  apply (parse_leaves_unconverted
           (λ _, Parsed (object [("firstName", VStr "Robert"); ("championDate", VNull)]))
           (λ _, None) (λ _, None) (λ _, None) "text").
  - reflexivity.
  - constructor; [|constructor]. exists "/championDate", VNull.
    split; [reflexivity|]. split; [vm_compute; reflexivity|]. split; [discriminate|reflexivity].
Defined.


Lemma parse_absent_field_witness :
  ∃ D', JsonParser.parse (λ _, Parsed (object [("a", VNum 1)]))
          (λ _, None) (λ _, None) (λ _, None)
          (mkParser [mkField (Complete (KeyString "when")) Date]) "text"
        = Parsed D'
        ∧ getValueByPointer D' ""
          = Ret (VObj (<["when" := VUndefined]> (list_to_map [("a", VNum 1)]))).
Proof.
  apply (parse_absent_field (λ _, Parsed (object [("a", VNum 1)]))
           (λ _, None) (λ _, None) (λ _, None) "text" (object [("a", VNum 1)])
           (mkField (Complete (KeyString "when")) Date) "" "when" (list_to_map [("a", VNum 1)])).
  - reflexivity.
  - reflexivity.
  - reflexivity.
  - reflexivity.
  - reflexivity.
  - reflexivity.
Defined.


End ParserFacts.

(** * Facts about the builder in the store *)

Module BuilderStoreFacts.
Import Store StoreFacts BuilderStore.

(** ** Regions *)

Lemma val_in_mono (S S' : list loc) (v : val) :
  (∀ l, l ∈ S → l ∈ S') → val_in S v = true → val_in S' v = true.
Proof.
  intros HS. destruct v as [| | | | |l]; try done. simpl.
  intros Hl%bool_decide_eq_true. apply bool_decide_eq_true. auto.
Qed.

Lemma cell_in_mono (S S' : list loc) (c : cell) :
  (∀ l, l ∈ S → l ∈ S') → cell_in S c = true → cell_in S' c = true.
Proof.
  intros HS. destruct c as [xs|m].
  - rewrite !cell_in_arr. intros Hxs. eapply Forall_impl; [exact Hxs|].
    intros v. by apply val_in_mono.
  - rewrite !cell_in_obj. intros Hm k v Hk. eapply val_in_mono; [done|]. by apply (Hm k).
Qed.

Lemma fold_locs_elem (pm : gmap string (Doc.value * list loc)) :
  ∀ k p l, pm !! k = Some p → l ∈ p.2 → l ∈ map_fold (λ _ t acc, t.2 ++ acc) [] pm.
Proof.
  apply (map_fold_weak_ind (λ r (pm : gmap string (Doc.value * list loc)),
           ∀ k p l, pm !! k = Some p → l ∈ p.2 → l ∈ r)).
  - intros k p l Hk. by rewrite lookup_empty in Hk.
  - intros k p m r Hk IH k' p' l Hl Hin. apply elem_of_app.
    destruct (decide (k' = k)) as [->|Hne].
    + rewrite lookup_insert_eq in Hl. simplify_eq. by left.
    + rewrite lookup_insert_ne in Hl by done. right. by eapply IH.
Qed.

Lemma fold_locs_inv (pm : gmap string (Doc.value * list loc)) (l : loc) :
  l ∈ map_fold (λ _ t acc, t.2 ++ acc) [] pm → ∃ k p, pm !! k = Some p ∧ l ∈ p.2.
Proof.
  intros Hl.
  pose proof (fold_locs_Forall (λ l, ∃ k p, pm !! k = Some p ∧ l ∈ p.2) pm) as H.
  rewrite Forall_forall in H. apply H; [|done].
  intros k p Hk. apply Forall_forall. eauto.
Qed.

Lemma concat_locs_elem (ts : list (Doc.value * list loc)) (p : Doc.value * list loc) (l : loc) :
  p ∈ ts → l ∈ p.2 → l ∈ concat (snd <$> ts).
Proof.
  intros Hp Hl. apply list_elem_of_In, in_concat. exists p.2.
  split; [|by apply list_elem_of_In]. apply list_elem_of_In, list_elem_of_fmap. eauto.
Qed.

Lemma concat_locs_inv (ts : list (Doc.value * list loc)) (l : loc) :
  l ∈ concat (snd <$> ts) → ∃ p, p ∈ ts ∧ l ∈ p.2.
Proof.
  intros (ls & Hls & Hl)%list_elem_of_In%in_concat.
  apply list_elem_of_In, list_elem_of_fmap in Hls as (p & -> & Hp).
  exists p. split; [done|]. by apply list_elem_of_In.
Qed.

Lemma fmap_Ret_Forall2 {A B} (f : A → outcome B) (xs : list A) (ts : list B) :
  f <$> xs = Ret <$> ts → Forall2 (λ x t, f x = Ret t) xs ts.
Proof.
  revert ts. induction xs as [|x xs IH]; intros [|t ts] Heq; simplify_eq/=; constructor; auto.
Qed.

(** The locations of an unfolding are a region that holds the value. *)
Lemma unfold_region (n : nat) : ∀ h v t ls,
  unfold n h v = Ret (t, ls) →
  val_in ls v = true ∧ ∀ l, l ∈ ls → ∃ c, h !! l = Some c ∧ cell_in ls c = true.
Proof.
  induction n as [|n IH]; intros h v t ls Hu;
    destruct v as [| | | | |l0]; simplify_eq/=;
    try (split; [done|]; intros l Hl; by apply elem_of_nil in Hl).
  destruct (h !! l0) as [[xs|m]|] eqn:Hl0; try done.
  - destruct (all_elements (unfold n h <$> xs)) as [ts| |] eqn:Hts; simplify_eq/=.
    apply all_elements_Ret, fmap_Ret_Forall2 in Hts.
    split; [apply bool_decide_eq_true; by left|].
    assert (Hsub : ∀ p l, p ∈ ts → l ∈ p.2 → l ∈ l0 :: concat (snd <$> ts)).
    { intros p l Hp Hl. right. by eapply concat_locs_elem. }
    intros l [->|Hl]%elem_of_cons.
    + exists (CArr xs). split; [done|]. apply cell_in_arr.
      apply Forall_forall. intros x Hx.
      apply list_elem_of_lookup in Hx as [i Hi].
      destruct (Forall2_lookup_l _ _ _ _ _ Hts Hi) as ([t' ls'] & Hi' & Hx).
      apply IH in Hx as [Hx _]. eapply val_in_mono; [|exact Hx].
      intros l Hl. eapply (Hsub (t', ls')); [|done]. by eapply list_elem_of_lookup_2.
    + apply concat_locs_inv in Hl as ([t' ls'] & Hp & Hl).
      apply list_elem_of_lookup in Hp as [i Hi].
      destruct (Forall2_lookup_r _ _ _ _ _ Hts Hi) as (x & _ & Hx).
      apply IH in Hx as [_ Hx]. destruct (Hx l Hl) as (c & Hc & Hin).
      exists c. split; [done|]. eapply cell_in_mono; [|exact Hin].
      intros l' Hl'. eapply (Hsub (t', ls')); [|done]. by eapply list_elem_of_lookup_2.
  - destruct (all_members (unfold n h <$> m)) as [pm| |] eqn:Hpm; simplify_eq/=.
    apply all_members_Ret in Hpm.
    split; [apply bool_decide_eq_true; by left|].
    assert (Hsub : ∀ k p l, pm !! k = Some p → l ∈ p.2 →
                     l ∈ l0 :: map_fold (λ _ t acc, t.2 ++ acc) [] pm).
    { intros k p l Hk Hl. right. by eapply fold_locs_elem. }
    assert (Hkey : ∀ k, Ret <$> pm !! k = unfold n h <$> m !! k).
    { intros k. by rewrite <- !lookup_fmap, Hpm. }
    intros l [->|Hl]%elem_of_cons.
    + exists (CObj m). split; [done|]. apply cell_in_obj. intros k x Hk.
      specialize (Hkey k). rewrite Hk in Hkey. simpl in Hkey.
      destruct (pm !! k) as [[t' ls']|] eqn:Hp; simplify_eq/=.
      symmetry in Hkey. apply IH in Hkey as [Hx _]. eapply val_in_mono; [|exact Hx].
      intros l Hl. by eapply (Hsub k (t', ls')).
    + apply fold_locs_inv in Hl as (k & [t' ls'] & Hp & Hl).
      specialize (Hkey k). rewrite Hp in Hkey. simpl in Hkey.
      destruct (m !! k) as [x|] eqn:Hk; simplify_eq/=.
      symmetry in Hkey. apply IH in Hkey as [_ Hx]. destruct (Hx l Hl) as (c & Hc & Hin).
      exists c. split; [done|]. eapply cell_in_mono; [|exact Hin].
      intros l' Hl'. by eapply (Hsub k (t', ls')).
Qed.

Lemma region_intro (h : store) (S : list loc) :
  (∀ l, l ∈ S → ∃ c, h !! l = Some c ∧ cell_in S c = true) → region h S = true.
Proof.
  intros HS. unfold region. apply forallb_forall. intros l Hl%list_elem_of_In.
  by destruct (HS l Hl) as (c & -> & Hc).
Qed.

(** What a call of [patch] leaves alone: every object outside the region of
    the operation values. *)
Lemma patch_frame (h : store) (D : val) (P : list (JsonPatchOperation val)) (T : list loc) :
  region h T = true → values_in T P = true →
  ∀ l, (l < length h)%nat → l ∉ T → (patch D P h).2 !! l = h !! l.
Proof.
  intros HT HP.
  assert (Hinv : inv h T h).
  { split; [done|]. split; [done|]. intros l c [Hl|Hl] Hc.
    - destruct (region_lookup _ _ _ HT Hl) as (c' & Hc' & Hin). simplify_eq.
      destruct c as [xs|m].
      + apply cell_in_arr in Hin. eapply Forall_impl; [exact Hin|].
        intros [| | | | |l'] Hv; try done. left. by apply bool_decide_eq_true in Hv.
      + apply cell_in_obj in Hin. intros k v Hk. specialize (Hin k v Hk).
        destruct v as [| | | | |l']; try done. left. by apply bool_decide_eq_true in Hin.
    - apply lookup_lt_Some in Hc. lia. }
  assert (Hops : Forall (ok_op h T) P).
  { unfold values_in in HP. rewrite forallb_forall in HP.
    apply Forall_forall. intros op Hop%list_elem_of_In. specialize (HP op Hop).
    rewrite forallb_forall in HP. unfold ok_op. apply Forall_forall.
    intros v Hv%list_elem_of_In.
    specialize (HP v Hv). destruct v as [| | | | |l']; try done.
    left. by apply bool_decide_eq_true in HP. }
  destruct (patch_safe h T D P Hops h Hinv) as [(_ & Hframe & _) _].
  intros l Hl HlT. by apply Hframe.
Qed.

(** ** The operations of an array *)

Lemma getprop_in (h : store) (T : list loc) (x v : val) (k : key) :
  region h T = true → val_in T x = true → getprop h x k = Ret v → val_in T v = true.
Proof.
  intros HT Hx. destruct x as [| | | | |l]; try done. apply bool_decide_eq_true in Hx.
  destruct (region_lookup _ _ _ HT Hx) as (c & Hc & Hin). simpl. rewrite Hc.
  destruct c as [xs|m], k as [s|i]; try done.
  - intros [= <-]. apply cell_in_arr in Hin. unfold arr_get. case_match; [|done].
    destruct (xs !! Z.to_nat i) as [y|] eqn:Hy; [|done]. simpl.
    by apply (Forall_lookup_1 _ _ _ _ Hin Hy).
  - apply cell_in_obj in Hin. destruct (m !! s) as [y|] eqn:Hy.
    + intros [= <-]. by apply (Hin s).
    + case_match; [done|]. by intros [= <-].
Qed.

Lemma operation_values (h : store) (T : list loc) (x : val) (op : JsonPatchOperation val) :
  region h T = true → val_in T x = true → operation_of h x = Ret op →
  forallb (val_in T) (op_values op) = true.
Proof.
  intros HT Hx. unfold operation_of.
  destruct (getprop h x (KStr "op")) as [o| |]; try done.
  destruct (getprop h x (KStr "path")) as [pth| |]; try done. simpl.
  destruct o as [| | | |tag|]; try done. destruct pth as [| | | |p|]; try done.
  repeat case_decide; try done;
    try (destruct (getprop h x (KStr "value")) as [v| |] eqn:Hv; try done; simpl;
         intros [= <-]; simpl; by rewrite (getprop_in _ _ _ _ _ HT Hx Hv));
    try (destruct (getprop h x (KStr "from")) as [[| | | |f|]| |]; try done; simpl;
         by intros [= <-]).
Qed.

Lemma operations_values (h : store) (T : list loc) (v : val)
    (ops : list (JsonPatchOperation val)) :
  region h T = true → val_in T v = true → operations_of h v = Ret ops →
  values_in T ops = true.
Proof.
  intros HT Hv. destruct v as [| | | | |l]; try done. simpl.
  pose proof Hv as Hl. apply bool_decide_eq_true in Hl.
  destruct (region_lookup _ _ _ HT Hl) as (c & Hc & Hin). rewrite Hc.
  destruct c as [xs|m]; [|done]. apply cell_in_arr in Hin.
  intros Hops%all_elements_Ret%fmap_Ret_Forall2.
  unfold values_in. apply forallb_forall. intros op Hop%list_elem_of_In.
  apply list_elem_of_lookup in Hop as [i Hi].
  destruct (Forall2_lookup_r _ _ _ _ _ Hops Hi) as (x & Hx & Hop).
  eapply operation_values; [done| |done]. by apply (Forall_lookup_1 _ _ _ _ Hin Hx).
Qed.

(** ** The operations of a copy *)

Lemma unfold_of_prim (n : nat) (h : store) (y : val) :
  (∀ l, y ≠ VRef l) → unfold n h y = Ret (prim y, []).
Proof. intros Hy. destruct y as [| | | | |l]; try (by destruct n). by destruct (Hy l). Qed.

(** A value is a string exactly when its tree is. *)
Lemma unfold_VStr (n : nat) (h : store) (y : val) (ty : Doc.value) (ls : list loc) :
  unfold n h y = Ret (ty, ls) →
  (∀ s, y = VStr s ↔ ty = Doc.VStr s).
Proof.
  intros Hu s. destruct y as [| | | | |l];
    try (rewrite unfold_of_prim in Hu by done; injection Hu as <- <-; simpl;
         split; intros [= ]; by subst).
  apply unfold_ref in Hu as (_ & _ & [[ts ->]|[tm ->]]); by split.
Qed.

(** A member of an object and the member of its tree. *)
Lemma unfold_member (n : nat) (h : store) (l : loc) (m : gmap string val)
    (tx : Doc.value) (ls : list loc) (k : string) :
  h !! l = Some (CObj m) → unfold (S n) h (VRef l) = Ret (tx, ls) → inherited k = false →
  ∃ y ty lsy, getprop h (VRef l) (KStr k) = Ret y
              ∧ Doc.getprop tx (KStr k) = Ret ty
              ∧ unfold n h y = Ret (ty, lsy).
Proof.
  intros Hl Hu Hk. simpl in Hu. rewrite Hl in Hu.
  destruct (all_members (unfold n h <$> m)) as [pm| |] eqn:Hpm; simplify_eq/=.
  apply all_members_Ret in Hpm.
  assert (Hkey : unfold n h <$> m !! k = Ret <$> pm !! k).
  { by rewrite <- !lookup_fmap, Hpm. }
  rewrite Hl, lookup_fmap. destruct (m !! k) as [y|] eqn:Hy; simpl in Hkey.
  - destruct (pm !! k) as [[ty lsy]|]; simplify_eq/=. eauto 6.
  - destruct (pm !! k); simplify_eq/=. rewrite Hk.
    exists VUndefined, Doc.VUndefined, []. by rewrite unfold_of_prim.
Qed.

Lemma operation_of_ref (h : store) (x : val) (op : JsonPatchOperation val) :
  operation_of h x = Ret op → ∃ l m, x = VRef l ∧ h !! l = Some (CObj m).
Proof.
  unfold operation_of. destruct (getprop h x (KStr "op")) as [v| |] eqn:Hv; try done.
  intros _. destruct x as [| | | | |l]; try done. simpl in Hv.
  destruct (h !! l) as [[xs|m]|] eqn:Hl; try done. eauto.
Qed.

Lemma tree_operation_obj (t : Doc.value) (top : JsonPatchOperation Doc.value) :
  tree_operation t = Ret top → ∃ tm, t = Doc.VObj tm.
Proof.
  unfold tree_operation. destruct (Doc.getprop t (KStr "op")) as [v| |] eqn:Hv; try done.
  intros _. destruct t; try done. eauto.
Qed.

Lemma unfold_obj (n : nat) (h : store) (x : val) (tm : gmap string Doc.value)
    (ls : list loc) :
  unfold n h x = Ret (Doc.VObj tm, ls) →
  ∃ n' l m, n = S n' ∧ x = VRef l ∧ h !! l = Some (CObj m).
Proof.
  intros Hu. destruct x as [| | | | |l];
    try (rewrite unfold_of_prim in Hu by done; by injection Hu).
  destruct n as [|n']; [done|]. simpl in Hu.
  destruct (h !! l) as [[xs|m]|] eqn:Hl; [|by eauto 6|done].
  by destruct (all_elements _).
Qed.

Lemma unfold_arr (n : nat) (h : store) (x : val) (ts : list Doc.value) (ls : list loc) :
  unfold n h x = Ret (Doc.VArr ts, ls) →
  ∃ n' l xs ps, n = S n' ∧ x = VRef l ∧ h !! l = Some (CArr xs)
                ∧ unfold n' h <$> xs = Ret <$> ps ∧ ts = fst <$> ps.
Proof.
  intros Hu. destruct x as [| | | | |l];
    try (rewrite unfold_of_prim in Hu by done; by injection Hu).
  destruct n as [|n']; [done|]. simpl in Hu.
  destruct (h !! l) as [[xs|m]|] eqn:Hl; [| |done].
  - destruct (all_elements _) as [ps| |] eqn:Hps; simplify_eq/=.
    apply all_elements_Ret in Hps. eauto 10.
  - by destruct (all_members _).
Qed.

Ltac shape y Hu :=
  destruct y;
  [rewrite unfold_of_prim in Hu by done; injection Hu as <- <-; simpl prim in *..
  |apply unfold_ref in Hu as (_ & _ & [[? ->]|[? ->]])].

(** The operation that an operation object holds and the operation that
    its tree holds are the same but for the value they carry: a value of
    the store there, a tree here. *)
Lemma operation_of_unfold_obj (n : nat) (h : store) (l : loc) (m : gmap string val)
    (tx : Doc.value) (ls : list loc) :
  h !! l = Some (CObj m) → unfold (S n) h (VRef l) = Ret (tx, ls) →
  (∀ op, operation_of h (VRef l) = Ret op →
     ∃ top, tree_operation tx = Ret top ∧ without_value top = without_value op)
  ∧ (∀ top, tree_operation tx = Ret top →
     ∃ op, operation_of h (VRef l) = Ret op ∧ without_value op = without_value top).
Proof.
  intros Hl Hu.
  destruct (unfold_member n h l m tx ls "op" Hl Hu eq_refl)
    as (y1 & t1 & ls1 & Hy1 & Ht1 & Hu1).
  destruct (unfold_member n h l m tx ls "path" Hl Hu eq_refl)
    as (y2 & t2 & ls2 & Hy2 & Ht2 & Hu2).
  destruct (unfold_member n h l m tx ls "value" Hl Hu eq_refl)
    as (y3 & t3 & ls3 & Hy3 & Ht3 & Hu3).
  destruct (unfold_member n h l m tx ls "from" Hl Hu eq_refl)
    as (y4 & t4 & ls4 & Hy4 & Ht4 & Hu4).
  unfold operation_of, tree_operation.
  rewrite Hy1, Hy2, Ht1, Ht2, Hy3, Ht3, Hy4, Ht4. clear Hy1 Hy2 Ht1 Ht2 Hy3 Ht3 Hy4 Ht4.
  simpl.
  shape y1 Hu1; try (by split); shape y2 Hu2; try (by split).
  repeat case_decide; try (by split);
    try (split; intros ? [= <-]; by eexists);
    shape y4 Hu4; try (by split); split; intros ? [= <-]; by eexists.
Qed.

Lemma operation_of_unfold (n : nat) (h : store) (x : val) (tx : Doc.value)
    (ls : list loc) :
  unfold n h x = Ret (tx, ls) →
  (∀ op, operation_of h x = Ret op →
     ∃ top, tree_operation tx = Ret top ∧ without_value top = without_value op)
  ∧ (∀ top, tree_operation tx = Ret top →
     ∃ op, operation_of h x = Ret op ∧ without_value op = without_value top).
Proof.
  intros Hu. split.
  - intros op Hop. destruct (operation_of_ref _ _ _ Hop) as (l & m & -> & Hl).
    destruct n as [|n]; [done|].
    by apply (proj1 (operation_of_unfold_obj n h l m tx ls Hl Hu)).
  - intros top Htop. destruct (tree_operation_obj _ _ Htop) as [tm ->].
    destruct (unfold_obj _ _ _ _ _ Hu) as (n' & l & m & -> & -> & Hl).
    by apply (proj2 (operation_of_unfold_obj n' h l m _ ls Hl Hu)).
Qed.

(** Two arrays with the same tree hold the same operations, values apart. *)
Lemma operations_of_unfold (n n' : nat) (h h' : store) (xs xs' : list val)
    (ps ps' : list (Doc.value * list loc)) :
  unfold n h <$> xs = Ret <$> ps → unfold n' h' <$> xs' = Ret <$> ps' →
  fst <$> ps = fst <$> ps' →
  ∀ ops0, all_elements (operation_of h <$> xs) = Ret ops0 →
  ∃ ops, all_elements (operation_of h' <$> xs') = Ret ops
         ∧ without_value <$> ops = without_value <$> ops0.
Proof.
  revert xs' ps ps'. induction xs as [|x xs IH]; intros xs' ps ps' Hps Hps' Heq ops0 Hops0.
  - destruct ps; [|done]. destruct ps'; [|done]. destruct xs'; [|done].
    simpl in Hops0. injection Hops0 as <-. by exists [].
  - destruct ps as [|[tx lx] ps]; [done|]. destruct ps' as [|[tx' lx'] ps']; [done|].
    destruct xs' as [|x' xs']; [done|]. simplify_eq/=.
    destruct (operation_of h x) as [op0| |] eqn:Hop0;
      destruct (all_elements (operation_of h <$> xs)) as [ops1| |] eqn:Hops1; try done.
    injection Hops0 as <-.
    match goal with Hx : unfold n h x = _, Hx' : unfold n' h' x' = _ |- _ =>
      destruct (proj1 (operation_of_unfold _ _ _ _ _ Hx) op0 Hop0) as (top & Htop & Hw);
      destruct (proj2 (operation_of_unfold _ _ _ _ _ Hx') top Htop) as (op & Hop & Hw')
    end.
    match goal with Hxs : unfold n h <$> xs = _, Hxs' : unfold n' h' <$> xs' = _,
                    Hfst : fst <$> ps = fst <$> ps' |- _ =>
      destruct (IH xs' ps ps' Hxs Hxs' Hfst ops1 eq_refl) as (ops & Hops & Hws)
    end.
    exists (op :: ops). rewrite Hop, Hops. split; [done|].
    rewrite !fmap_cons, Hws, Hw', Hw. done.
Qed.

(** X20.  The list that [patches()] returns is a copy of the builder's array,
    made of new objects only; it holds the operations that the builder
    holds, in their order, each with a copy of its value.  So whatever is
    patched with its operations, the call writes to no object that was
    there before [patches()] was called: not to the document, not to the
    values that were given to the builder, not to the builder. *)
Theorem builder_patches_share_nothing
  (h : store) (this arr : loc) (t : Doc.value) (ls : list loc) :
  is_builder h this arr → snapshot h (VRef arr) = Ret (t, ls) → NoDup ls →
  ∃ v ext,
    patches (VRef this) h = (Ret v, h ++ ext)
    ∧ look (h ++ ext) v = Ret t
    ∧ (∀ l, v = VRef l → (length h ≤ l)%nat)
    ∧ (∀ ops0, operations_of h (VRef arr) = Ret ops0 →
         ∃ ops, operations_of (h ++ ext) v = Ret ops
                ∧ without_value <$> ops = without_value <$> ops0)
    ∧ ∀ ops D l, operations_of (h ++ ext) v = Ret ops → (l < length h)%nat →
        (patch D ops (h ++ ext)).2 !! l = h !! l
        ∧ (safePatch D ops (h ++ ext)).2 !! l = h !! l.
Proof.
  intros (Hne & (m & Hthis & Hm) & (xs & Harr)) Hsnap Hnodup.
  destruct (build_spec t h) as (v & ext & ls' & Hb & n & Hn & Hv & Hfresh).
  exists v, ext.
  destruct (unfold_region _ _ _ _ _ Hv) as [Hin Hreg]. apply region_intro in Hreg.
  split; [|split; [|split; [|split]]].
  - unfold patches. rewrite (run_bind _ _ h (VRef arr) h).
    + unfold structuredClone. rewrite Hsnap. by rewrite bool_decide_eq_true_2.
    + unfold field, reads. simpl. by rewrite Hthis, Hm.
  - unfold look, snapshot.
    rewrite (unfold_mono n (S (length (h ++ ext))) (h ++ ext) (h ++ ext) v (t, ls'));
      [done|done| |done].
    rewrite length_app. lia.
  - intros l ->. apply bool_decide_eq_true in Hin.
    rewrite Forall_forall in Hfresh. by apply Hfresh.
  - intros ops0 Hops0. simpl in Hops0. rewrite Harr in Hops0.
    unfold snapshot in Hsnap. simpl in Hsnap. rewrite Harr in Hsnap.
    destruct (all_elements (unfold (length h) h <$> xs)) as [ps| |] eqn:Hps;
      simplify_eq/=.
    apply all_elements_Ret in Hps.
    destruct (unfold_arr _ _ _ _ _ Hv) as (n' & l' & xs' & ps' & -> & -> & Hl' & Hps' & Heq).
    simpl. rewrite Hl'. exact (operations_of_unfold _ _ _ _ _ _ _ _ Hps Hps' Heq ops0 Hops0).
  - intros ops D l Hops Hl.
    assert (Hframe : (patch D ops (h ++ ext)).2 !! l = h !! l).
    { rewrite (patch_frame (h ++ ext) D ops ls' Hreg).
      - by rewrite lookup_app_l.
      - by eapply operations_values.
      - rewrite length_app. lia.
      - intros Hl'. rewrite Forall_forall in Hfresh. specialize (Hfresh l Hl'). lia. }
    split; [done|]. by rewrite safePatch_store.
Qed.

Lemma builder_patches_share_nothing_witness :
  let h := [CObj {["_patches" := VRef 1%nat]}; CArr [VRef 2%nat];
            operation_object (AddOperation "/a" (VRef 3%nat)); CObj {["x" := VNum 1]}] in
  ∃ v ext,
    patches (VRef 0%nat) h = (Ret v, h ++ ext)
    ∧ look (h ++ ext) v
      = Ret (Doc.VArr [Doc.object [("op", Doc.VStr "add"); ("path", Doc.VStr "/a");
                                   ("value", Doc.object [("x", Doc.VNum 1)])]])
    ∧ (∀ l, v = VRef l → (length h ≤ l)%nat)
    ∧ (∀ ops0, operations_of h (VRef 1%nat) = Ret ops0 →
         ∃ ops, operations_of (h ++ ext) v = Ret ops
                ∧ without_value <$> ops = without_value <$> ops0)
    ∧ ∀ ops D l, operations_of (h ++ ext) v = Ret ops → (l < length h)%nat →
        (patch D ops (h ++ ext)).2 !! l = h !! l
        ∧ (safePatch D ops (h ++ ext)).2 !! l = h !! l.
Proof.
  intros h.
  apply (builder_patches_share_nothing h 0%nat 1%nat
           (Doc.VArr [Doc.object [("op", Doc.VStr "add"); ("path", Doc.VStr "/a");
                                  ("value", Doc.object [("x", Doc.VNum 1)])]])
           [1%nat; 2%nat; 3%nat]).
  - split; [discriminate|]. split.
    + exists {["_patches" := VRef 1%nat]}. split; reflexivity.
    + exists [VRef 2%nat]. reflexivity.
  - vm_compute. reflexivity.
  - apply (bool_decide_eq_true_1 (NoDup [1%nat; 2%nat; 3%nat])). vm_compute. reflexivity.
Defined.

(** ** The methods of the builder *)

Lemma operation_of_object (h : store) (l : loc) (op : JsonPatchOperation val) :
  h !! l = Some (operation_object op) → operation_of h (VRef l) = Ret op.
Proof.
  intros Hl. unfold operation_of. simpl. rewrite Hl. by destruct op; vm_compute.
Qed.

Lemma operation_of_same (h h' : store) (x : val) (op : JsonPatchOperation val) :
  operation_of h x = Ret op → (∀ l m, h !! l = Some (CObj m) → h' !! l = Some (CObj m)) →
  operation_of h' x = Ret op.
Proof.
  intros Hop Hh. destruct (operation_of_ref _ _ _ Hop) as (l & m & -> & Hl).
  revert Hop. unfold operation_of. simpl. by rewrite Hl, (Hh _ _ Hl).
Qed.

Lemma push_operation_spec (h : store) (this arr : loc) (op : JsonPatchOperation val)
    (ops : list (JsonPatchOperation val)) :
  is_builder h this arr → operations_of h (VRef arr) = Ret ops →
  ∃ h', push_operation (VRef this) op h = (Ret (VRef this), h')
        ∧ is_builder h' this arr
        ∧ operations_of h' (VRef arr) = Ret (ops ++ [op])
        ∧ h' !! length h = Some (operation_object op)
        ∧ (∀ l, l ≠ arr → (l < length h)%nat → h' !! l = h !! l).
Proof.
  intros (Hne & (m & Hthis & Hm) & (xs & Harr)) Hops.
  pose proof (lookup_lt_Some _ _ _ Hthis) as Hthis_lt.
  pose proof (lookup_lt_Some _ _ _ Harr) as Harr_lt.
  exists (<[arr := CArr (xs ++ [VRef (length h)])]> (h ++ [operation_object op])).
  assert (Hold : ∀ l, l ≠ arr → (l < length h)%nat →
            <[arr := CArr (xs ++ [VRef (length h)])]> (h ++ [operation_object op]) !! l
            = h !! l).
  { intros l Hl Hlt. rewrite list_lookup_insert_ne by done. by rewrite lookup_app_l. }
  assert (Hnew : <[arr := CArr (xs ++ [VRef (length h)])]> (h ++ [operation_object op])
                   !! length h = Some (operation_object op)).
  { rewrite list_lookup_insert_ne by lia. by rewrite list_lookup_middle. }
  assert (Harr' : <[arr := CArr (xs ++ [VRef (length h)])]> (h ++ [operation_object op])
                    !! arr = Some (CArr (xs ++ [VRef (length h)]))).
  { apply list_lookup_insert_eq. rewrite length_app. lia. }
  split; [|split; [|split; [|split]]]; try done.
  - unfold push_operation. rewrite (run_bind _ _ h (VRef arr) h).
    + rewrite (run_bind _ _ h (length h) (h ++ [operation_object op])); [|done].
      unfold push, on_cell, mbind, M_bind, bind, set_cell, ret.
      by rewrite lookup_app_l, Harr by done.
    + unfold field, reads. simpl. by rewrite Hthis, Hm.
  - split; [done|]. split; [|eauto]. exists m. by rewrite Hold.
  - simpl. rewrite Harr'. apply all_elements_Ret. rewrite !fmap_app. f_equal.
    + simpl in Hops. rewrite Harr in Hops. apply all_elements_Ret in Hops.
      rewrite <- Hops. apply Forall_fmap_ext_1, Forall_forall. intros x Hx.
      assert (∃ o, operation_of h x = Ret o) as [o Ho].
      { apply (list_elem_of_fmap_2 (operation_of h)) in Hx. rewrite Hops in Hx.
        apply list_elem_of_fmap in Hx as (o & Ho & _). eauto. }
      rewrite Ho. eapply operation_of_same; [done|].
      intros l m' Hl. rewrite Hold; [done| |by eapply lookup_lt_Some]. congruence.
    + simpl. by rewrite (operation_of_object _ _ _ Hnew).
Qed.

(** X21.  A call of [add], [remove], [replace], [move], [copy] or [test] makes
    one new object, the operation with the joined pointers, and appends it
    to the array of the builder; a value is kept by reference, it is not
    copied.  No other object changes, and the builder is returned. *)
Theorem builder_call_appends
  (h : store) (this arr : loc) (c : call) (op : JsonPatchOperation val)
  (ops : list (JsonPatchOperation val)) :
  is_builder h this arr → operations_of h (VRef arr) = Ret ops → pushed c = Ret op →
  ∃ h', run c (VRef this) h = (Ret (VRef this), h')
        ∧ is_builder h' this arr
        ∧ operations_of h' (VRef arr) = Ret (ops ++ [op])
        ∧ h' !! length h = Some (operation_object op)
        ∧ (∀ l, l ≠ arr → (l < length h)%nat → h' !! l = h !! l).
Proof.
  intros Hb Hops Hc.
  destruct (push_operation_spec h this arr op ops Hb Hops) as (h' & Hrun & Hrest).
  exists h'. split; [|done].
  destruct c as [path v|path|path v|from to|from to|path v]; cbn [run pushed] in *;
    unfold add, remove, replace, move, copy, test, joinPath.
  1-3, 6: destruct (JsonPathJoiner.join path) as [p| |] eqn:Hp; try done;
    injection Hc as <-;
    by rewrite (run_bind _ _ h p h) by done.
  all: destruct (JsonPathJoiner.join from) as [f| |] eqn:Hf; try done;
    destruct (JsonPathJoiner.join to) as [p| |] eqn:Hp; try done;
    injection Hc as <-;
    rewrite (run_bind _ _ h f h) by done;
    by rewrite (run_bind _ _ h p h) by done.
Qed.

Lemma builder_call_appends_witness :
  let h := [CObj {["_patches" := VRef 1%nat]}; CArr []; CObj {["x" := VNum 1]}] in
  ∃ h', run (Add (Segments [KeyString "a"; KeyNumber 0]) (VRef 2%nat)) (VRef 0%nat) h
        = (Ret (VRef 0%nat), h')
        ∧ is_builder h' 0%nat 1%nat
        ∧ operations_of h' (VRef 1%nat) = Ret ([] ++ [AddOperation "/a/0" (VRef 2%nat)])
        ∧ h' !! length h = Some (operation_object (AddOperation "/a/0" (VRef 2%nat)))
        ∧ (∀ l, l ≠ 1%nat → (l < length h)%nat → h' !! l = h !! l).
Proof.
  intros h.
  apply (builder_call_appends h 0%nat 1%nat
           (Add (Segments [KeyString "a"; KeyNumber 0]) (VRef 2%nat))
           (AddOperation "/a/0" (VRef 2%nat)) []).
  - split; [discriminate|]. split.
    + exists {["_patches" := VRef 1%nat]}. split; reflexivity.
    + exists []. reflexivity.
  - reflexivity.
  - reflexivity.
Defined.

(** X22.  A builder made with an array works on that array, the caller's; a
    builder made without one has a new, empty array.  [clear] gives the
    builder a new empty array and leaves the one it had as it is. *)
Theorem builder_constructor_and_clear (h : store) :
  (∀ a xs, h !! a = Some (CArr xs) →
     constructor (VRef a) h
     = (Ret (VRef (length h)), h ++ [CObj {["_patches" := VRef a]}])
     ∧ is_builder (h ++ [CObj {["_patches" := VRef a]}]) (length h) a)
  ∧ (∃ h', constructor VUndefined h = (Ret (VRef (S (length h))), h')
           ∧ is_builder h' (S (length h)) (length h)
           ∧ operations_of h' (VRef (length h)) = Ret []
           ∧ ∀ l, (l < length h)%nat → h' !! l = h !! l)
  ∧ (∀ this arr, is_builder h this arr →
     ∃ h', clear (VRef this) h = (Ret (VRef this), h')
           ∧ is_builder h' this (length h)
           ∧ operations_of h' (VRef (length h)) = Ret []
           ∧ ∀ l, l ≠ this → (l < length h)%nat → h' !! l = h !! l).
Proof.
  split; [|split].
  - intros a xs Ha. pose proof (lookup_lt_Some _ _ _ Ha) as Hlt. split; [done|].
    split; [lia|]. split.
    + exists {["_patches" := VRef a]}. by rewrite list_lookup_middle.
    + exists xs. by rewrite lookup_app_l.
  - exists (h ++ [CArr []; CObj {["_patches" := VRef (length h)]}]).
    split; [|split; [|split]].
    + unfold constructor, mbind, M_bind, bind, new, ret. simpl.
      rewrite length_app, <- app_assoc. simpl. by rewrite Nat.add_1_r.
    + split; [lia|]. split.
      * exists {["_patches" := VRef (length h)]}.
        by rewrite (lookup_app_r h) by lia; replace (S (length h) - length h)%nat with 1%nat by lia.
      * exists []. by rewrite list_lookup_middle.
    + simpl. by rewrite list_lookup_middle.
    + intros l Hl. by rewrite lookup_app_l.
  - intros this arr (Hne & (m & Hthis & Hm) & (xs & Harr)).
    pose proof (lookup_lt_Some _ _ _ Hthis) as Hlt.
    exists (<[this := CObj (<["_patches" := VRef (length h)]> m)]> (h ++ [CArr []])).
    assert (Hnew : <[this := CObj (<["_patches" := VRef (length h)]> m)]> (h ++ [CArr []])
                     !! length h = Some (CArr [])).
    { rewrite list_lookup_insert_ne by lia. by rewrite list_lookup_middle. }
    split; [|split; [|split]].
    + unfold clear, mbind, M_bind, bind, new, ret, set_field, on_cell, set_cell. simpl.
      by rewrite lookup_app_l, Hthis by done.
    + split; [lia|]. split; [|by exists []].
      exists (<["_patches" := VRef (length h)]> m). split.
      * apply list_lookup_insert_eq. rewrite length_app. lia.
      * apply lookup_insert_eq.
    + simpl. by rewrite Hnew.
    + intros l Hl Hll. rewrite list_lookup_insert_ne by done. by rewrite lookup_app_l.
Qed.

Lemma builder_constructor_and_clear_witness :
  constructor (VRef 0%nat) [CArr []]
  = (Ret (VRef (length [CArr []])), [CArr []] ++ [CObj {["_patches" := VRef 0%nat]}])
  ∧ is_builder ([CArr []] ++ [CObj {["_patches" := VRef 0%nat]}]) (length [CArr []]) 0%nat.
Proof.
  apply (proj1 (builder_constructor_and_clear [CArr []]) 0%nat []). reflexivity.
Defined.

End BuilderStoreFacts.

(** * Facts about the databases in memory *)

Module MemDbFacts.
Import MultiEntryMemDb.

(** ** The map *)

Lemma Map_get_set_eq (id : Id) (e : T) (es : Entries) : Map_get id (Map_set id e es) = Some e.
Proof.
  induction es as [|[k e'] es IH]; simpl.
  - by rewrite decide_True.
  - case_decide; simpl; [by rewrite decide_True|]. by rewrite decide_False.
Qed.

Lemma Map_get_set_ne (id id' : Id) (e : T) (es : Entries) :
  id ≠ id' → Map_get id' (Map_set id e es) = Map_get id' es.
Proof.
  intros Hne. induction es as [|[k e'] es IH]; simpl.
  - by rewrite decide_False.
  - case_decide; simpl.
    + subst. by rewrite !decide_False.
    + by rewrite IH.
Qed.

Lemma Map_get_None (id : Id) (es : Entries) : Map_get id es = None ↔ id ∉ fst <$> es.
Proof.
  induction es as [|[k e] es IH]; simpl.
  - split; [intros _; apply not_elem_of_nil|done].
  - rewrite not_elem_of_cons. case_decide; [subst; split; [done|by intros [? _]]|].
    rewrite IH. split; [by split|by intros [_ ?]].
Qed.

Lemma Map_get_Some (id : Id) (e : T) (es : Entries) :
  NoDup (fst <$> es) → Map_get id es = Some e ↔ (id, e) ∈ es.
Proof.
  induction es as [|[k e'] es IH]; simpl.
  - intros _. split; [done|]. by intros ?%elem_of_nil.
  - intros [Hk Hnd]%NoDup_cons. rewrite elem_of_cons. case_decide.
    + subst. split; [intros [= ->]; by left|]. intros [[= ->]|Hin]; [done|].
      destruct Hk. apply list_elem_of_fmap. by exists (id, e).
    + rewrite (IH Hnd). split; [by right|]. intros [[= -> ->]|?]; done.
Qed.

Lemma Map_has_true (id : Id) (es : Entries) : Map_has id es = true ↔ id ∈ fst <$> es.
Proof.
  unfold Map_has. destruct (Map_get id es) as [e|] eqn:He.
  - split; [|done]. intros _. destruct (decide (id ∈ fst <$> es)) as [|Hn]; [done|].
    apply Map_get_None in Hn. congruence.
  - apply Map_get_None in He. split; [done|]. by intros ?.
Qed.

Lemma Map_set_keys (id : Id) (e : T) (es : Entries) :
  fst <$> Map_set id e es = if Map_has id es then fst <$> es else (fst <$> es) ++ [id].
Proof.
  unfold Map_has. induction es as [|[k e'] es IH]; [done|]. cbn [Map_set Map_get].
  case_decide; [by subst|]. rewrite !fmap_cons, IH. by destruct (Map_get id es).
Qed.

Lemma Map_set_length (id : Id) (e : T) (es : Entries) :
  length (Map_set id e es) = if Map_has id es then length es else S (length es).
Proof.
  unfold Map_has. induction es as [|[k e'] es IH]; simpl; [done|].
  case_decide; simpl; [done|]. rewrite IH. by destruct (Map_get id es).
Qed.

Lemma Map_delete_elem (id : Id) (kv : Id * T) (es : Entries) :
  kv ∈ Map_delete id es → kv ∈ es.
Proof.
  induction es as [|[k e] es IH]; simpl; [done|].
  case_decide; [by right|]. intros [->|Hin]%elem_of_cons; [by left|]. right. auto.
Qed.

Lemma Map_delete_key (id k : Id) (es : Entries) :
  k ∈ fst <$> Map_delete id es → k ∈ fst <$> es.
Proof.
  intros (kv & -> & Hin)%list_elem_of_fmap. apply list_elem_of_fmap.
  exists kv. split; [done|]. by eapply Map_delete_elem.
Qed.

Lemma Map_delete_NoDup (id : Id) (es : Entries) :
  NoDup (fst <$> es) → NoDup (fst <$> Map_delete id es).
Proof.
  induction es as [|[k e] es IH]; simpl; [done|].
  intros [Hk Hnd]%NoDup_cons. case_decide; [done|]. simpl. apply NoDup_cons.
  split; [|auto]. intros Hin. apply Hk. by eapply Map_delete_key.
Qed.

Lemma Map_delete_absent (id : Id) (es : Entries) :
  id ∉ fst <$> es → Map_delete id es = es.
Proof.
  induction es as [|[k e] es IH]; simpl; [done|].
  intros [Hne Hin]%not_elem_of_cons. rewrite decide_False by done. by rewrite IH.
Qed.

Lemma Map_get_delete_eq (id : Id) (es : Entries) :
  NoDup (fst <$> es) → Map_get id (Map_delete id es) = None.
Proof.
  induction es as [|[k e] es IH]; simpl; [done|].
  intros [Hk Hnd]%NoDup_cons. case_decide.
  - subst. by apply Map_get_None.
  - simpl. rewrite decide_False by done. auto.
Qed.

Lemma Map_get_delete_ne (id id' : Id) (es : Entries) :
  id ≠ id' → Map_get id' (Map_delete id es) = Map_get id' es.
Proof.
  intros Hne. induction es as [|[k e] es IH]; simpl; [done|].
  case_decide; simpl.
  - subst. by rewrite decide_False.
  - by rewrite IH.
Qed.

Lemma Map_delete_length (id : Id) (es : Entries) :
  length (Map_delete id es) = if Map_has id es then (length es - 1)%nat else length es.
Proof.
  unfold Map_has. induction es as [|[k e] es IH]; simpl; [done|].
  case_decide; simpl; [lia|]. rewrite IH.
  destruct (Map_get id es) eqn:He; [|done].
  destruct es; [done|]. simpl. lia.
Qed.

(** ** The invariant *)

Lemma well_keyed_set (id : Id) (e : T) (es : Entries) :
  id_of e = Resolved id → well_keyed es → well_keyed (Map_set id e es).
Proof.
  intros He [Hnd Hall]. split.
  - rewrite Map_set_keys. destruct (Map_has id es) eqn:Hh; [done|].
    apply NoDup_app. split; [done|]. split; [|apply NoDup_singleton].
    intros k Hk ->%list_elem_of_singleton. apply Map_has_true in Hk. congruence.
  - clear Hnd. induction es as [|[k e'] es IH]; simpl.
    + by repeat constructor.
    + apply Forall_cons in Hall as [Hke Hall]. case_decide; constructor; auto.
Qed.

Lemma well_keyed_delete (id : Id) (es : Entries) :
  well_keyed es → well_keyed (Map_delete id es).
Proof.
  intros [Hnd Hall]. split; [by apply Map_delete_NoDup|].
  rewrite Forall_forall in *. intros kv Hkv. eapply Hall, Map_delete_elem, Hkv.
Qed.

Lemma deleteWhere_loop_well_keyed (predicate : T → bool) (pending : Entries) :
  ∀ deleted ignored es,
    well_keyed es → well_keyed (deleteWhere_loop predicate pending deleted ignored es).2.
Proof.
  induction pending as [|[id e] pending IH]; intros deleted ignored es Hes; simpl; [done|].
  destruct (predicate e); [|by apply IH].
  destruct (Map_has id es); apply IH; by apply well_keyed_delete.
Qed.

Lemma after_well_keyed (c : call) (es : Entries) : well_keyed es → well_keyed (after c es).
Proof.
  intros Hes. destruct c as [entry|id updater|id|ids|predicate|]; simpl.
  - unfold create. destruct (id_of entry) as [id| |] eqn:Hid; simpl; try done.
    by apply well_keyed_set.
  - unfold update. destruct (Map_get id es) as [e|]; simpl; [|done].
    destruct (id_of (spread e (updater e))) as [j| |] eqn:Hj; simpl; try done.
    case_decide; [by apply well_keyed_set|]. by apply well_keyed_delete, well_keyed_set.
  - by apply well_keyed_delete.
  - unfold deleteByIds, deleteWhere.
    pose proof (deleteWhere_loop_well_keyed (includes_id ids) es [] [] es Hes) as H.
    by destruct (deleteWhere_loop (includes_id ids) es [] [] es).
  - unfold deleteWhere.
    pose proof (deleteWhere_loop_well_keyed predicate es [] [] es Hes) as H.
    by destruct (deleteWhere_loop predicate es [] [] es).
  - split; [constructor|constructor].
Qed.

(** ** Creating, reading and deleting *)

(** X23.  After any calls on a new database, no id is stored twice and every
    entry is stored under its own id: [getAllIds] has no duplicates, as many
    ids as [countAll] counts, and the ids of the entries of [getAll], in the
    same order; [getById] returns an entry of the id it is asked for. *)
Theorem entries_are_well_keyed (calls : list call) :
  well_keyed (foldl (λ es c, after c es) [] calls)
  ∧ ∃ ids entries,
      (getAllIds (foldl (λ es c, after c es) [] calls)).1 = Resolved ids
      ∧ (getAll None (foldl (λ es c, after c es) [] calls)).1 = Resolved entries
      ∧ NoDup ids
      ∧ (countAll (foldl (λ es c, after c es) [] calls)).1 = Resolved (length ids)
      ∧ Forall2 (λ k e, id_of e = Resolved k) ids entries
      ∧ ∀ k e, (getById k (foldl (λ es c, after c es) [] calls)).1 = Resolved (Some e) →
               id_of e = Resolved k.
Proof.
  assert (Hwk : well_keyed (foldl (λ es c, after c es) [] calls)).
  { induction calls as [|c calls IH] using rev_ind; [split; constructor|].
    rewrite foldl_app. simpl. by apply after_well_keyed. }
  split; [done|]. destruct Hwk as [Hnd Hall].
  exists (fst <$> foldl (λ es c, after c es) [] calls),
         (snd <$> foldl (λ es c, after c es) [] calls).
  split; [done|]. split; [done|]. split; [done|]. split; [by rewrite length_fmap|]. split.
  - apply Forall2_fmap, Forall_Forall2_diag. eapply Forall_impl; [exact Hall|]. by intros [k e].
  - intros k e [= He]. apply Map_get_Some in He; [|done].
    rewrite Forall_forall in Hall. apply (Hall (k, e) He).
Qed.

(** X24.  [create] stores the entry under its id and returns it: [getById] and
    [getByIdOrThrow] then find it, the other ids are as they were, an id that was there keeps its
    place in the order and a new one goes last. *)
Theorem create_then_get (entry : T) (id : Id) (es : Entries) :
  id_of entry = Resolved id →
  (create entry es).1 = Resolved entry
  ∧ (getById id (create entry es).2).1 = Resolved (Some entry)
  ∧ (getByIdOrThrow id (create entry es).2).1 = Resolved entry
  ∧ (exists' id (create entry es).2).1 = Resolved true
  ∧ (∀ j, j ≠ id → (getById j (create entry es).2).1 = (getById j es).1)
  ∧ (getAllIds (create entry es).2).1
    = Resolved (if Map_has id es then fst <$> es else (fst <$> es) ++ [id])
  ∧ (countAll (create entry es).2).1
    = Resolved (if Map_has id es then length es else S (length es)).
Proof.
  intros Hid. unfold create, getById, getByIdOrThrow, exists', getAllIds, countAll, Map_has.
  rewrite Hid. simpl. rewrite Map_get_set_eq. repeat split.
  - intros j Hj. by rewrite Map_get_set_ne.
  - by rewrite Map_set_keys.
  - by rewrite Map_set_length.
Qed.

Lemma create_then_get_witness :
  (create {["id" := Doc.VStr "a"; "title" := Doc.VStr "new"]}
     [("a", {["id" := Doc.VStr "a"]}); ("b", {["id" := Doc.VStr "b"]})]).1
  = Resolved {["id" := Doc.VStr "a"; "title" := Doc.VStr "new"]}
  ∧ (getAllIds (create {["id" := Doc.VStr "a"; "title" := Doc.VStr "new"]}
       [("a", {["id" := Doc.VStr "a"]}); ("b", {["id" := Doc.VStr "b"]})]).2).1
    = Resolved ["a"; "b"].
Proof.
  pose proof (create_then_get {["id" := Doc.VStr "a"; "title" := Doc.VStr "new"]} "a"
                [("a", {["id" := Doc.VStr "a"]}); ("b", {["id" := Doc.VStr "b"]})]) as H.
  destruct H as (H1 & _ & _ & _ & _ & H5 & _); [reflexivity|].
  split; [exact H1|exact H5].
Defined.

(** X25.  [delete] returns whether the id was stored; afterwards it is not
    ([getById] returns [null], [getByIdOrThrow] is rejected), the other ids
    are as they were, and a second [delete] returns [false]. *)
Theorem delete_then_get (id : Id) (es : Entries) :
  well_keyed es →
  (delete id es).1 = (exists' id es).1
  ∧ (getById id (delete id es).2).1 = Resolved None
  ∧ (getByIdOrThrow id (delete id es).2).1 = Rejected (not_found id)
  ∧ (∀ j, j ≠ id → (getById j (delete id es).2).1 = (getById j es).1)
  ∧ (countAll (delete id es).2).1
    = Resolved (if Map_has id es then (length es - 1)%nat else length es)
  ∧ delete id (delete id es).2 = (Resolved false, (delete id es).2).
Proof.
  intros [Hnd _]. unfold delete, exists', getById, getByIdOrThrow, countAll. simpl.
  pose proof (Map_get_delete_eq id es Hnd) as Hgone.
  split; [done|]. split; [by rewrite Hgone|]. split; [by rewrite Hgone|]. split.
  - intros j Hj. by rewrite Map_get_delete_ne.
  - split; [by rewrite Map_delete_length|].
    unfold Map_has. rewrite Hgone. f_equal.
    apply Map_delete_absent. by apply Map_get_None.
Qed.

Lemma delete_then_get_witness :
  (delete "a" [("a", {["id" := Doc.VStr "a"]}); ("b", {["id" := Doc.VStr "b"]})]).1
  = Resolved true
  ∧ delete "a" (delete "a" [("a", {["id" := Doc.VStr "a"]});
                            ("b", {["id" := Doc.VStr "b"]})]).2
    = (Resolved false, [("b", {["id" := Doc.VStr "b"]})]).
Proof.
  pose proof (delete_then_get "a"
                [("a", {["id" := Doc.VStr "a"]}); ("b", {["id" := Doc.VStr "b"]})]) as H.
  destruct H as (H1 & _ & _ & _ & _ & H5).
  - split.
    + apply (bool_decide_eq_true_1 (NoDup ["a"; "b"])). vm_compute. reflexivity.
    + repeat constructor.
  - split; [exact H1|exact H5].
Defined.

(** ** Updating *)

(** X26.  [update] of an id that is not stored is rejected and changes nothing.
    Otherwise it stores the entry merged with the fields of the updater
    under the id of the merged entry: when the updater changes the id, the
    old id is gone, and an entry that was stored under the new id is
    overwritten, so that one entry less is stored. *)
Theorem update_moves_entry (id : Id) (updater : T → gmap string Doc.value) (es : Entries) :
  well_keyed es →
  (Map_get id es = None → update id updater es = (Rejected (not_found id), es))
  ∧ (∀ e j, Map_get id es = Some e → id_of (spread e (updater e)) = Resolved j →
       (update id updater es).1 = Resolved (spread e (updater e))
       ∧ (getById j (update id updater es).2).1 = Resolved (Some (spread e (updater e)))
       ∧ (j ≠ id → (getById id (update id updater es).2).1 = Resolved None)
       ∧ (∀ k, k ≠ id → k ≠ j →
            (getById k (update id updater es).2).1 = (getById k es).1)
       ∧ (countAll (update id updater es).2).1
         = Resolved (if bool_decide (j ≠ id) && Map_has j es
                     then (length es - 1)%nat else length es)).
Proof.
  intros Hwk. split.
  - intros Hnone. unfold update. by rewrite Hnone.
  - intros e j He Hj. unfold update, getById, countAll. rewrite He. simpl. rewrite Hj. simpl.
    pose proof (well_keyed_set j _ es Hj Hwk) as [Hnd _].
    assert (Hid : Map_has id es = true) by (unfold Map_has; by rewrite He).
    destruct (decide (j = id)) as [->|Hne].
    + rewrite bool_decide_eq_false_2 by naive_solver. simpl.
      split; [done|]. split; [by rewrite Map_get_set_eq|]. split; [done|]. split.
      * intros k Hk _. by rewrite Map_get_set_ne.
      * by rewrite Map_set_length, Hid.
    + rewrite bool_decide_eq_true_2 by done. simpl.
      split; [done|]. split; [by rewrite Map_get_delete_ne, Map_get_set_eq|].
      split; [intros _; by rewrite Map_get_delete_eq|]. split.
      * intros k Hk Hkj. by rewrite Map_get_delete_ne, Map_get_set_ne.
      * rewrite Map_delete_length, Map_set_length.
        assert (Map_has id (Map_set j (spread e (updater e)) es) = true) as ->.
        { unfold Map_has. by rewrite Map_get_set_ne, He. }
        destruct (Map_has j es); [done|]. f_equal. simpl. lia.
Qed.

Lemma update_moves_entry_witness :
  (update "a" (λ _, {["id" := Doc.VStr "b"]})
     [("a", {["id" := Doc.VStr "a"]}); ("b", {["id" := Doc.VStr "b"]})]).1
  = Resolved (spread {["id" := Doc.VStr "a"]} {["id" := Doc.VStr "b"]})
  ∧ (countAll (update "a" (λ _, {["id" := Doc.VStr "b"]})
       [("a", {["id" := Doc.VStr "a"]}); ("b", {["id" := Doc.VStr "b"]})]).2).1
    = Resolved (if bool_decide ("b" ≠ "a")
                   && Map_has "b" [("a", {["id" := Doc.VStr "a"]});
                                   ("b", {["id" := Doc.VStr "b"]})]
                then (2 - 1)%nat else 2%nat).
Proof.
  pose proof (update_moves_entry "a" (λ _, {["id" := Doc.VStr "b"]})
                [("a", {["id" := Doc.VStr "a"]}); ("b", {["id" := Doc.VStr "b"]})]) as H.
  destruct H as [_ H].
  - split.
    + apply (bool_decide_eq_true_1 (NoDup ["a"; "b"])). vm_compute. reflexivity.
    + repeat constructor.
  - destruct (H {["id" := Doc.VStr "a"]} "b") as (H1 & _ & _ & _ & H5).
    + reflexivity.
    + reflexivity.
    + split; [exact H1|exact H5].
Defined.

(** ** Deleting several entries *)

Lemma Map_has_middle (id : Id) (e : T) (pre post : Entries) :
  Map_has id (pre ++ (id, e) :: post) = true.
Proof.
  apply Map_has_true. rewrite fmap_app, fmap_cons. apply elem_of_app. right. by left.
Qed.

Lemma Map_delete_middle (id : Id) (e : T) (pre post : Entries) :
  id ∉ fst <$> pre → Map_delete id (pre ++ (id, e) :: post) = pre ++ post.
Proof.
  induction pre as [|[k e'] pre IH]; simpl.
  - intros _. by rewrite decide_True.
  - intros [Hne Hin]%not_elem_of_cons. rewrite decide_False by done. by rewrite IH.
Qed.

Lemma deleteWhere_loop_spec (predicate : T → bool) (pending : Entries) :
  ∀ pre deleted ignored,
    NoDup (fst <$> pre ++ pending) →
    deleteWhere_loop predicate pending deleted ignored (pre ++ pending)
    = (mkOutput (deleted ++ (fst <$> List.filter (λ kv, predicate kv.2) pending)) ignored,
       pre ++ List.filter (λ kv, negb (predicate kv.2)) pending).
Proof.
  induction pending as [|[id e] pending IH]; intros pre deleted ignored Hnd; simpl.
  - by rewrite !app_nil_r.
  - destruct (predicate e) eqn:Hp; simpl.
    + rewrite Map_has_middle, Map_delete_middle.
      * rewrite IH.
        -- by rewrite <- app_assoc.
        -- rewrite fmap_app in *. apply NoDup_app in Hnd as (Hpre & Hdisj & Hpost).
           apply NoDup_app. split; [done|]. split.
           ++ intros k Hk Hk'. apply (Hdisj k Hk). rewrite fmap_cons. by right.
           ++ rewrite fmap_cons in Hpost. by apply NoDup_cons in Hpost as [_ ?].
      * rewrite fmap_app in Hnd. apply NoDup_app in Hnd as (_ & Hdisj & _).
        intros Hin. apply (Hdisj id Hin). rewrite fmap_cons. by left.
    + rewrite (cons_middle (id, e) pre pending), app_assoc, IH.
      * by rewrite <- app_assoc.
      * by rewrite <- app_assoc.
Qed.

Lemma includes_id_keyed (ids : list Id) (es : Entries) :
  Forall (λ kv, id_of kv.2 = Resolved kv.1) es →
  List.filter (λ kv, includes_id ids kv.2) es
  = List.filter (λ kv, bool_decide (kv.1 ∈ ids)) es
  ∧ List.filter (λ kv, negb (includes_id ids kv.2)) es
    = List.filter (λ kv, negb (bool_decide (kv.1 ∈ ids))) es.
Proof.
  intros Hall.
  assert (Heq : ∀ kv, In kv es → includes_id ids kv.2 = bool_decide (kv.1 ∈ ids)).
  { intros [k e] Hin%list_elem_of_In. rewrite Forall_forall in Hall.
    specialize (Hall _ Hin). unfold id_of, includes_id in *. simpl in *.
    destruct (e !! "id") as [[| | | |s| |]|]; by simplify_eq. }
  split; apply List.filter_ext_in; intros kv Hkv; by rewrite Heq.
Qed.

(** X27.  [deleteWhere] deletes exactly the entries that satisfy the predicate
    and reports their ids in the order of the map; [ignoredIds] is always
    empty.  So [deleteByIds] reports the ids that were stored among those it
    is given, and reports an id that was not stored nowhere. *)
Theorem deleteWhere_deletes (predicate : T → bool) (ids : list Id) (es : Entries) :
  well_keyed es →
  deleteWhere predicate es
  = (Resolved (mkOutput (fst <$> List.filter (λ kv, predicate kv.2) es) []),
     List.filter (λ kv, negb (predicate kv.2)) es)
  ∧ deleteByIds ids es
    = (Resolved (mkOutput (fst <$> List.filter (λ kv, bool_decide (kv.1 ∈ ids)) es) []),
       List.filter (λ kv, negb (bool_decide (kv.1 ∈ ids))) es).
Proof.
  intros [Hnd Hall].
  assert (Hgen : ∀ p, deleteWhere p es
            = (Resolved (mkOutput (fst <$> List.filter (λ kv, p kv.2) es) []),
               List.filter (λ kv, negb (p kv.2)) es)).
  { intros p. unfold deleteWhere.
    pose proof (deleteWhere_loop_spec p es [] [] [] Hnd) as Hloop. simpl in Hloop.
    by rewrite Hloop. }
  split; [apply Hgen|]. unfold deleteByIds. rewrite Hgen.
  by destruct (includes_id_keyed ids es Hall) as [-> ->].
Qed.

Lemma deleteWhere_deletes_witness :
  let es : Entries := [("exists", {["id" := Doc.VStr "exists"]})] in
  deleteByIds ["exists"; "nonexistent"] es = (Resolved (mkOutput ["exists"] []), []).
Proof.
  intros es.
  apply (deleteWhere_deletes (λ _, true) ["exists"; "nonexistent"] es).
  split.
  - apply (bool_decide_eq_true_1 (NoDup ["exists"])). vm_compute. reflexivity.
  - repeat constructor.
Defined.

(** ** Queries *)








(** ** The database of one entry *)

(** X30.  Writing an entry stores it, whatever was stored, and [read] returns it.
    Writing with an updater is rejected on a database without entry, which
    stays without one; otherwise the stored entry gets the fields that the
    updater returns and keeps its other fields.  After [delete] the database
    is as when new: not initialised, and [read] is rejected. *)
Theorem single_entry_write
  (entry : option SingleEntryMemDb.T) (e : SingleEntryMemDb.T)
  (updater : SingleEntryMemDb.T → gmap string Doc.value) :
  SingleEntryMemDb.read (SingleEntryMemDb.write (inl e) entry).2 = (Resolved e, Some e)
  ∧ (∃ message, SingleEntryMemDb.write (inr updater) None = (Rejected message, None))
  ∧ (∀ old, entry = Some old →
       ∃ new, SingleEntryMemDb.write (inr updater) entry = (Resolved new, Some new)
              ∧ SingleEntryMemDb.read (Some new) = (Resolved new, Some new)
              ∧ ∀ k, new !! k = match updater old !! k with
                                | Some v => Some v
                                | None => old !! k
                                end)
  ∧ (SingleEntryMemDb.isInited (SingleEntryMemDb.delete entry).2).1 = Resolved false
  ∧ (∃ message, (SingleEntryMemDb.read (SingleEntryMemDb.delete entry).2).1
                = Rejected message).
Proof.
  split; [done|]. split; [by eexists|]. split; [|split; [done|by eexists]].
  intros old ->. exists (spread old (updater old)). split; [done|]. split; [done|].
  intros k. unfold spread.
  rewrite (lookup_union (updater old) (old : gmap string Doc.value) k).
  destruct (updater old !! k) as [v|]; [by destruct (_ !! k)|]. by destruct (_ !! k).
Qed.

Lemma single_entry_write_witness :
  ∃ new, SingleEntryMemDb.write (inr (λ _, {["count" := Doc.VNum 1]}))
           (Some {["id" := Doc.VStr "a"; "count" := Doc.VNum 0]})
         = (Resolved new, Some new)
         ∧ SingleEntryMemDb.read (Some new) = (Resolved new, Some new)
         ∧ ∀ k, new !! k
                = match ({["count" := Doc.VNum 1]} : gmap string Doc.value) !! k with
                  | Some v => Some v
                  | None => ({["id" := Doc.VStr "a"; "count" := Doc.VNum 0]}
                             : gmap string Doc.value) !! k
                  end.
Proof.
  apply (proj1 (proj2 (proj2
           (single_entry_write (Some {["id" := Doc.VStr "a"; "count" := Doc.VNum 0]})
              ∅ (λ _, {["count" := Doc.VNum 1]}))))
           {["id" := Doc.VStr "a"; "count" := Doc.VNum 0]}).
  reflexivity.
Defined.

End MemDbFacts.
